(** * EchoLecture: the speech-synchronisation core, embedded in Rocq

    Shallow embedding of
    - the chunker ([splitLongSentence], [chunkText]) and the playback driver
      (the hook [useSpeechSynthesis]),
    - the edit reconciler [remapIndexAfterEdit] of the SuperDoc reader,
    - the reading history store of [lib/readingHistory.ts].

    A JavaScript string is a sequence of UTF-16 code units; it is modelled
    as a list of code units, each one a number of type [N].  Indices and
    the other JavaScript numbers the code computes with are integers and
    are modelled in [Z]. *)

From Stdlib Require Import Ascii String.
From Stdlib Require QArith Sorted Permutation.
From Stdlib Require Import List ZArith NArith Lia Bool.
Import ListNotations.

(** ** JavaScript string primitives used by the sources *)

Module JS.

Definition char := N.
Definition jsstring := list char.

(** An ASCII literal of the source as a list of code units. *)
Definition lit (s : string) : jsstring :=
  map N_of_ascii (list_ascii_of_string s).

Definition SP : char := 32%N.

(** The regular expression class [\s], which is also the set of characters
    [String.prototype.trim] removes: WhiteSpace and LineTerminator. *)
Definition is_space (c : char) : bool :=
  ((9 <=? c) && (c <=? 13) || (c =? 32) || (c =? 160) || (c =? 5760)
   || (8192 <=? c) && (c <=? 8202) || (c =? 8232) || (c =? 8233)
   || (c =? 8239) || (c =? 8287) || (c =? 12288) || (c =? 65279))%N.

Fixpoint takeWhile (p : char -> bool) (s : jsstring) : jsstring :=
  match s with
  | [] => []
  | c :: r => if p c then c :: takeWhile p r else []
  end.

Fixpoint dropWhile (p : char -> bool) (s : jsstring) : jsstring :=
  match s with
  | [] => []
  | c :: r => if p c then dropWhile p r else s
  end.

Definition trimStart (s : jsstring) : jsstring := dropWhile is_space s.
Definition trimEnd (s : jsstring) : jsstring := rev (dropWhile is_space (rev s)).

(** [s.trim()] *)
Definition trim (s : jsstring) : jsstring := trimEnd (trimStart s).

(** [s.replace(/\s+/g, " ")]: every maximal run of whitespace becomes one
    space.  [in_run] tells that the previous character belonged to the run
    being replaced. *)
Fixpoint replace_ws_from (in_run : bool) (s : jsstring) : jsstring :=
  match s with
  | [] => []
  | c :: r =>
      if is_space c
      then (if in_run then replace_ws_from true r else SP :: replace_ws_from true r)
      else c :: replace_ws_from false r
  end.

Definition replace_ws (s : jsstring) : jsstring := replace_ws_from false s.

(** [s.split(/\s+/)]: the pieces between the maximal runs of whitespace,
    the empty pieces at both ends included.  [cur] is the piece being read,
    reversed. *)
Fixpoint split_ws_from (cur : jsstring) (in_run : bool) (s : jsstring) : list jsstring :=
  match s with
  | [] => [rev cur]
  | c :: r =>
      if is_space c
      then (if in_run then split_ws_from [] true r
            else rev cur :: split_ws_from [] true r)
      else split_ws_from (c :: cur) false r
  end.

Definition split_ws (s : jsstring) : list jsstring := split_ws_from [] false s.

(** [Math.max(min, Math.min(max, value))], the [clamp] helper of the readers. *)
Definition clamp (value min max : Z) : Z := Z.max min (Z.min max value).

(** [s.slice(from, to)] with the relative-index rule of the language. *)
Definition slice_index (len i : Z) : Z :=
  if (i <? 0)%Z then Z.max (len + i) 0 else Z.min i len.

Definition slice (s : jsstring) (from to : Z) : jsstring :=
  let len := Z.of_nat (length s) in
  let a := slice_index len from in
  let b := slice_index len to in
  firstn (Z.to_nat (b - a)) (skipn (Z.to_nat a) s).

Fixpoint starts_with (pat s : jsstring) : bool :=
  match pat, s with
  | [], _ => true
  | _ :: _, [] => false
  | p :: pat', c :: s' => (p =? c)%N && starts_with pat' s'
  end.

(** [s.indexOf(pat)] searched from position [i] of the whole string, of
    which [s] is the part still to search. *)
Fixpoint indexOf_from (pat s : jsstring) (i : Z) : Z :=
  if starts_with pat s then i
  else match s with
       | [] => (-1)%Z
       | _ :: r => indexOf_from pat r (i + 1)%Z
       end.

Definition indexOf (s pat : jsstring) : Z := indexOf_from pat s 0%Z.

End JS.

(** ** The chunker *)

Module Chunker.
Import JS.

Record Chunk := mkChunk { text : jsstring; start : Z }.

Definition MAX_CHUNK_LENGTH : nat := 220.

(** The sentence terminators of [sentenceRegex]: [.], [!] and [?]. *)
Definition is_term (c : char) : bool := ((c =? 46) || (c =? 33) || (c =? 63))%N.
Definition not_term (c : char) : bool := negb (is_term c).

(** The local variables of [splitLongSentence]. *)
Record SplitState := mkSplit {
  chunks : list Chunk;
  current : jsstring;
  currentStart : Z;
  cursor : Z
}.

Definition is_empty (s : jsstring) : bool :=
  match s with [] => true | _ => false end.

(** [chunks.push({ text: current, start: currentStart })] when [current]
    is not the empty string. *)
Definition push_current (st : SplitState) : list Chunk :=
  if is_empty (current st) then chunks st
  else chunks st ++ [mkChunk (current st) (currentStart st)].

(** One iteration of the loop over the words. *)
Definition split_step (startOffset : Z) (st : SplitState) (word : jsstring) : SplitState :=
  if is_empty word then st
  else
    let next := if is_empty (current st) then word
                else current st ++ [SP] ++ word in
    let cursor' := (cursor st + Z.of_nat (length word) + 1)%Z in
    if (length next <=? MAX_CHUNK_LENGTH)%nat
    then mkSplit (chunks st) next
                 (if is_empty (current st) then (startOffset + cursor st)%Z
                  else currentStart st)
                 cursor'
    else mkSplit (push_current st) word (startOffset + cursor st)%Z cursor'.

Definition splitLongSentence (sentence : jsstring) (startOffset : Z) : list Chunk :=
  push_current
    (fold_left (split_step startOffset) (split_ws sentence)
               (mkSplit [] [] startOffset 0%Z)).

(** [sentenceRegex.exec(s)] for [/[^.!?]+[.!?]*\s*/g] with the search
    starting at [lastIndex]: the match starts at the first character that is
    not a terminator, and takes the longest run of such characters, then the
    longest run of terminators, then the longest run of whitespace (no
    alternative is ever retried, the last two parts may be empty).  The
    result is [match.index] and [match[0]]; the next [lastIndex] is the end
    of the match. *)
Definition sentenceRegex_exec (s : jsstring) (lastIndex : nat) : option (nat * jsstring) :=
  let rest := skipn lastIndex s in
  let skipped := takeWhile is_term rest in
  let from := dropWhile is_term rest in
  match from with
  | [] => None
  | _ :: _ =>
      let body := takeWhile not_term from in
      let after_body := dropWhile not_term from in
      let terms := takeWhile is_term after_body in
      let after_terms := dropWhile is_term after_body in
      let spaces := takeWhile is_space after_terms in
      Some ((lastIndex + length skipped)%nat, body ++ terms ++ spaces)
  end.

(** The [while ((match = sentenceRegex.exec(normalized)) !== null)] loop.
    Every match is at least one character long, so [fuel] bounds the number
    of iterations by the length of the text. *)
Fixpoint chunk_loop (fuel : nat) (normalized : jsstring) (lastIndex : nat)
    (acc : list Chunk) : list Chunk :=
  match fuel with
  | O => acc
  | S fuel' =>
      match sentenceRegex_exec normalized lastIndex with
      | None => acc
      | Some (index, m) =>
          let sentence := trim m in
          let lastIndex' := (index + length m)%nat in
          if is_empty sentence then chunk_loop fuel' normalized lastIndex' acc
          else if (length sentence <=? MAX_CHUNK_LENGTH)%nat
          then chunk_loop fuel' normalized lastIndex'
                          (acc ++ [mkChunk sentence (Z.of_nat index)])
          else chunk_loop fuel' normalized lastIndex'
                          (acc ++ splitLongSentence sentence (Z.of_nat index))
      end
  end.

Definition normalize (s : jsstring) : jsstring := trim (replace_ws s).

Definition chunkText (s : jsstring) : list Chunk :=
  let normalized := normalize s in
  if is_empty normalized then []
  else
    let found := chunk_loop (S (length normalized)) normalized 0 [] in
    match found with
    | [] => splitLongSentence normalized 0%Z
    | _ :: _ => found
    end.

(** The texts of the chunks joined by single spaces. *)
Fixpoint join_sp (l : list jsstring) : jsstring :=
  match l with
  | [] => []
  | [w] => w
  | w :: r => w ++ [SP] ++ join_sp r
  end.

End Chunker.

(** ** The playback driver ([useSpeechSynthesis]) *)

Module Playback.
Import JS Chunker.

(** The callbacks the caller passes in and the voices of the host are
    opaque objects, known by their identity only. *)
Definition callback := nat.
Definition SpeechSynthesisVoice := nat.

(** Rate, pitch and volume are only handed on to the backend. *)
Definition number := QArith_base.Q.

(** [Omit<SpeakOptions, "text">] as [speak] builds it. *)
Record BaseOptions := mkBase {
  lang : option jsstring;
  voice : option SpeechSynthesisVoice;
  rate : option number;
  pitch : option number;
  volume : option number;
  onBoundary : option callback;
  onEnd : option callback
}.

Record SpeakOptions := mkSpeak {
  so_text : jsstring;
  so_onStart : option callback;
  so_base : BaseOptions
}.

(** A [SpeechSynthesisUtterance] created by [playQueue], with what its
    handlers close over: the chunk [next], the options of the [startQueue]
    call, and the four local time stamps. *)
Record Utterance := mkUtterance {
  next : Chunk;
  baseOptions : BaseOptions;
  u_lang : jsstring;
  u_rate : number;
  u_pitch : number;
  u_volume : number;
  u_voice : option SpeechSynthesisVoice;
  startedAt : Z;
  pausedAt : Z;
  pausedDuration : Z;
  lastBoundaryAt : Z
}.

(** What the outside sees: the calls of the caller's callbacks and the
    requests to [window.speechSynthesis]. *)
Inductive Action :=
| CallOnStart (cb : callback)
| CallOnBoundary (cb : callback) (charIndex : Z)
| CallOnEnd (cb : callback)
| SynthSpeak (id : nat) (u : Utterance)
| SynthCancel
| SynthPause
| SynthResume.

(** The refs and the state of the hook.  [utterances] holds the utterance
    objects created so far, an utterance being known by its position;
    [progressTimerRef] names the utterance whose [onstart] created the
    interval timer that is running. *)
Record State := mkState {
  isSupported : bool;
  isSpeaking : bool;
  isPaused : bool;
  queueRef : list Chunk;
  activeUtteranceRef : option nat;
  sourceTextRef : jsstring;
  lastCharIndexRef : Z;
  lastSpeakOptionsRef : option BaseOptions;
  progressTimerRef : option nat;
  utterances : list Utterance
}.

Definition set_isSpeaking (b : bool) (s : State) : State :=
  mkState (isSupported s) b (isPaused s) (queueRef s) (activeUtteranceRef s)
          (sourceTextRef s) (lastCharIndexRef s) (lastSpeakOptionsRef s)
          (progressTimerRef s) (utterances s).
Definition set_isPaused (b : bool) (s : State) : State :=
  mkState (isSupported s) (isSpeaking s) b (queueRef s) (activeUtteranceRef s)
          (sourceTextRef s) (lastCharIndexRef s) (lastSpeakOptionsRef s)
          (progressTimerRef s) (utterances s).
Definition set_queueRef (q : list Chunk) (s : State) : State :=
  mkState (isSupported s) (isSpeaking s) (isPaused s) q (activeUtteranceRef s)
          (sourceTextRef s) (lastCharIndexRef s) (lastSpeakOptionsRef s)
          (progressTimerRef s) (utterances s).
Definition set_activeUtteranceRef (a : option nat) (s : State) : State :=
  mkState (isSupported s) (isSpeaking s) (isPaused s) (queueRef s) a
          (sourceTextRef s) (lastCharIndexRef s) (lastSpeakOptionsRef s)
          (progressTimerRef s) (utterances s).
Definition set_sourceTextRef (t : jsstring) (s : State) : State :=
  mkState (isSupported s) (isSpeaking s) (isPaused s) (queueRef s)
          (activeUtteranceRef s) t (lastCharIndexRef s) (lastSpeakOptionsRef s)
          (progressTimerRef s) (utterances s).
Definition set_lastCharIndexRef (i : Z) (s : State) : State :=
  mkState (isSupported s) (isSpeaking s) (isPaused s) (queueRef s)
          (activeUtteranceRef s) (sourceTextRef s) i (lastSpeakOptionsRef s)
          (progressTimerRef s) (utterances s).
Definition set_lastSpeakOptionsRef (o : option BaseOptions) (s : State) : State :=
  mkState (isSupported s) (isSpeaking s) (isPaused s) (queueRef s)
          (activeUtteranceRef s) (sourceTextRef s) (lastCharIndexRef s) o
          (progressTimerRef s) (utterances s).
Definition set_progressTimerRef (t : option nat) (s : State) : State :=
  mkState (isSupported s) (isSpeaking s) (isPaused s) (queueRef s)
          (activeUtteranceRef s) (sourceTextRef s) (lastCharIndexRef s)
          (lastSpeakOptionsRef s) t (utterances s).
Definition set_utterances (h : list Utterance) (s : State) : State :=
  mkState (isSupported s) (isSpeaking s) (isPaused s) (queueRef s)
          (activeUtteranceRef s) (sourceTextRef s) (lastCharIndexRef s)
          (lastSpeakOptionsRef s) (progressTimerRef s) h.

(** The hook as it is first rendered. *)
Definition initial (supported : bool) : State :=
  mkState supported false false [] None [] 0%Z None None [].

(** *** Computations on the state that record what they do outside *)

Definition M (A : Type) : Type := State -> A * State * list Action.

Definition ret {A} (a : A) : M A := fun s => (a, s, []).

Definition bind {A B} (c : M A) (k : A -> M B) : M B :=
  fun s =>
    let '(a, s1, o1) := c s in
    let '(b, s2, o2) := k a s1 in
    (b, s2, o1 ++ o2).

Definition get : M State := fun s => (s, s, []).
Definition modify (f : State -> State) : M unit := fun s => (tt, f s, []).
Definition emit (a : Action) : M unit := fun s => (tt, s, [a]).

Declare Scope m_scope.
Delimit Scope m_scope with m.
Notation "x <- c ;; k" := (bind c (fun x => k))
  (at level 61, c at next level, right associativity) : m_scope.
Notation "c ;; k" := (bind c (fun _ => k))
  (at level 61, right associativity) : m_scope.
Local Open Scope m_scope.

(** [cb?.(...)] *)
Definition call (cb : option callback) (a : callback -> Action) : M unit :=
  match cb with
  | Some f => emit (a f)
  | None => ret tt
  end.

(** [x ?? d] *)
Definition orDefault {A} (x : option A) (d : A) : A :=
  match x with Some v => v | None => d end.

Definition len (s : jsstring) : Z := Z.of_nat (length s).

Fixpoint set_nth {A} (i : nat) (x : A) (l : list A) : list A :=
  match l, i with
  | [], _ => []
  | _ :: r, O => x :: r
  | y :: r, S j => y :: set_nth j x r
  end.

(** An assignment to the local variables of the handlers of one utterance. *)
Definition update_utterance (id : nat) (f : Utterance -> Utterance) : M unit :=
  modify (fun s =>
    match nth_error (utterances s) id with
    | Some u => set_utterances (set_nth id (f u) (utterances s)) s
    | None => s
    end).

Definition set_startedAt (v : Z) (u : Utterance) : Utterance :=
  mkUtterance (next u) (baseOptions u) (u_lang u) (u_rate u) (u_pitch u)
              (u_volume u) (u_voice u) v (pausedAt u) (pausedDuration u)
              (lastBoundaryAt u).
Definition set_pausedAt (v : Z) (u : Utterance) : Utterance :=
  mkUtterance (next u) (baseOptions u) (u_lang u) (u_rate u) (u_pitch u)
              (u_volume u) (u_voice u) (startedAt u) v (pausedDuration u)
              (lastBoundaryAt u).
Definition set_pausedDuration (v : Z) (u : Utterance) : Utterance :=
  mkUtterance (next u) (baseOptions u) (u_lang u) (u_rate u) (u_pitch u)
              (u_volume u) (u_voice u) (startedAt u) (pausedAt u) v
              (lastBoundaryAt u).
Definition set_lastBoundaryAt (v : Z) (u : Utterance) : Utterance :=
  mkUtterance (next u) (baseOptions u) (u_lang u) (u_rate u) (u_pitch u)
              (u_volume u) (u_voice u) (startedAt u) (pausedAt u)
              (pausedDuration u) v.

Definition clearProgressTimer : M unit := modify (set_progressTimerRef None).

Definition stop : M unit :=
  s <- get ;;
  if negb (isSupported s) then ret tt
  else
    clearProgressTimer ;;
    modify (set_queueRef []) ;;
    modify (set_activeUtteranceRef None) ;;
    modify (set_sourceTextRef []) ;;
    modify (set_lastCharIndexRef 0%Z) ;;
    modify (set_lastSpeakOptionsRef None) ;;
    emit SynthCancel ;;
    modify (set_isSpeaking false) ;;
    modify (set_isPaused false).

(** [emitProgress] of the utterance that plays the chunk [nxt] for the
    options [base]. *)
Definition emitProgress (nxt : Chunk) (base : BaseOptions) (relativeIndex : Z) : M unit :=
  let clamped :=
    Z.max 0 (Z.min relativeIndex (Z.max 0 (len (text nxt) - 1))) in
  let absoluteIndex := (start nxt + clamped)%Z in
  s <- get ;;
  if (absoluteIndex <? lastCharIndexRef s)%Z then ret tt
  else
    modify (set_lastCharIndexRef absoluteIndex) ;;
    call (onBoundary base) (fun f => CallOnBoundary f absoluteIndex).

Definition nine_tenths : number := QArith_base.Qmake 9 10.
Definition one : number := QArith_base.Qmake 1 1.
Definition fr_FR : jsstring := lit "fr-FR".

(** [playQueue] of the [startQueue] call that got the options [base]. *)
Definition playQueue (base : BaseOptions) : M unit :=
  s <- get ;;
  match queueRef s with
  | [] =>
      modify (set_activeUtteranceRef None) ;;
      modify (set_isSpeaking false) ;;
      modify (set_isPaused false) ;;
      call (onEnd base) CallOnEnd
  | nxt :: rest =>
      modify (set_queueRef rest) ;;
      let utterance :=
        mkUtterance nxt base
                    (orDefault (lang base) fr_FR)
                    (orDefault (rate base) nine_tenths)
                    (orDefault (pitch base) one)
                    (orDefault (volume base) one)
                    (voice base)
                    0 0 0 0 in
      let id := length (utterances s) in
      modify (set_utterances (utterances s ++ [utterance])) ;;
      modify (set_activeUtteranceRef (Some id)) ;;
      emit (SynthSpeak id utterance)
  end.

Definition shift (startOffset : Z) (c : Chunk) : Chunk :=
  mkChunk (text c) (start c + startOffset)%Z.

Definition startQueue (txt : jsstring) (base : BaseOptions) (startOffset : Z) : M unit :=
  let textChunks := chunkText txt in
  match textChunks with
  | [] => ret tt
  | _ :: _ =>
      modify (set_queueRef (map (shift startOffset) textChunks)) ;;
      playQueue base
  end.

Definition speak (options : SpeakOptions) : M unit :=
  s <- get ;;
  if negb (isSupported s) then ret tt
  else if is_empty (trim (so_text options)) then ret tt
  else
    emit SynthCancel ;;
    modify (set_isPaused false) ;;
    call (so_onStart options) CallOnStart ;;
    let base := so_base options in
    modify (set_sourceTextRef (so_text options)) ;;
    modify (set_lastCharIndexRef 0%Z) ;;
    modify (set_lastSpeakOptionsRef (Some base)) ;;
    startQueue (so_text options) base 0%Z.

(** What [window.speechSynthesis] answers when asked. *)
Record Synth := mkSynth { speaking : bool; paused : bool }.

Definition pause (synth : Synth) : M unit :=
  s <- get ;;
  if negb (isSupported s) then ret tt
  else if negb (paused synth)
          && (speaking synth
              || (match activeUtteranceRef s with Some _ => true | None => false end)
              || (0 <? length (queueRef s))%nat)
  then emit SynthPause ;; modify (set_isPaused true) ;; modify (set_isSpeaking false)
  else ret tt.

Definition resume (synth : Synth) : M unit :=
  s <- get ;;
  if negb (isSupported s) then ret tt
  else if paused synth || isPaused s
  then emit SynthResume ;; modify (set_isPaused false) ;; modify (set_isSpeaking true)
  else
    let sourceText := sourceTextRef s in
    let startAt := lastCharIndexRef s in
    match lastSpeakOptionsRef s with
    | Some options =>
        if negb (speaking synth) && negb (is_empty sourceText)
           && (startAt <? len sourceText - 1)%Z
        then
          emit SynthCancel ;;
          modify (set_isPaused false) ;;
          startQueue (slice sourceText startAt (len sourceText)) options startAt
        else ret tt
    | None => ret tt
    end.

(** [syncState], run every 180 ms. *)
Definition syncState (synth : Synth) : M unit :=
  modify (set_isPaused (paused synth)) ;;
  modify (set_isSpeaking (speaking synth && negb (paused synth))).

(** The handlers [playQueue] attaches to the utterance [id]. *)
Definition with_utterance (id : nat) (k : Utterance -> M unit) : M unit :=
  s <- get ;;
  match nth_error (utterances s) id with
  | Some u => k u
  | None => ret tt
  end.

Definition onstart (id : nat) (now : Z) : M unit :=
  with_utterance id (fun u =>
    clearProgressTimer ;;
    modify (set_isSpeaking true) ;;
    modify (set_isPaused false) ;;
    update_utterance id (set_startedAt now) ;;
    update_utterance id (set_pausedDuration 0) ;;
    update_utterance id (set_lastBoundaryAt now) ;;
    emitProgress (next u) (baseOptions u) 0 ;;
    modify (set_progressTimerRef (Some id))).

(** The callback of the interval timer.  [estimatedRelativeIndex] is the
    value of [Math.floor((elapsedMs / 1000) * charsPerSecond)], which the
    language computes in binary floating point; it is taken as given here. *)
Definition ontimer (synth : Synth) (now : Z) (estimatedRelativeIndex : Z) : M unit :=
  s <- get ;;
  match progressTimerRef s with
  | None => ret tt
  | Some id =>
      with_utterance id (fun u =>
        if negb (speaking synth) || paused synth then ret tt
        else if (now - lastBoundaryAt u <? 500)%Z then ret tt
        else emitProgress (next u) (baseOptions u) estimatedRelativeIndex)
  end.

Definition onpause (id : nat) (now : Z) : M unit :=
  with_utterance id (fun _ =>
    update_utterance id (set_pausedAt now) ;;
    modify (set_isPaused true) ;;
    modify (set_isSpeaking false)).

Definition onresume (id : nat) (now : Z) : M unit :=
  with_utterance id (fun u =>
    (if (0 <? pausedAt u)%Z
     then update_utterance id (set_pausedDuration (pausedDuration u + (now - pausedAt u))) ;;
          update_utterance id (set_pausedAt 0)
     else ret tt) ;;
    modify (set_isPaused false) ;;
    modify (set_isSpeaking true)).

Definition onboundary (id : nat) (now : Z) (charIndex : Z) : M unit :=
  with_utterance id (fun u =>
    update_utterance id (set_lastBoundaryAt now) ;;
    emitProgress (next u) (baseOptions u) charIndex).

Definition onend (id : nat) : M unit :=
  with_utterance id (fun u =>
    emitProgress (next u) (baseOptions u) (len (text (next u)) - 1) ;;
    clearProgressTimer ;;
    playQueue (baseOptions u)).

Definition onerror (id : nat) : M unit :=
  with_utterance id (fun u =>
    clearProgressTimer ;;
    playQueue (baseOptions u)).

(** What can happen to the hook: the calls of its interface, the events of
    the backend on an utterance, the two timers. *)
Inductive Event :=
| Speak (options : SpeakOptions)
| Stop
| Pause (synth : Synth)
| Resume (synth : Synth)
| SyncState (synth : Synth)
| Timer (synth : Synth) (now : Z) (estimatedRelativeIndex : Z)
| UStart (id : nat) (now : Z)
| UPause (id : nat) (now : Z)
| UResume (id : nat) (now : Z)
| UBoundary (id : nat) (now : Z) (charIndex : Z)
| UEnd (id : nat)
| UError (id : nat).

Definition handle (e : Event) : M unit :=
  match e with
  | Speak o => speak o
  | Stop => stop
  | Pause y => pause y
  | Resume y => resume y
  | SyncState y => syncState y
  | Timer y now est => ontimer y now est
  | UStart id now => onstart id now
  | UPause id now => onpause id now
  | UResume id now => onresume id now
  | UBoundary id now i => onboundary id now i
  | UEnd id => onend id
  | UError id => onerror id
  end.

Fixpoint run (es : list Event) : M unit :=
  match es with
  | [] => ret tt
  | e :: r => handle e ;; run r
  end.

(** The state and the actions of a computation. *)
Definition state_of {A} (r : A * State * list Action) : State := snd (fst r).
Definition actions_of {A} (r : A * State * list Action) : list Action := snd r.

(** The indices handed to [onBoundary], in the order of the calls. *)
Fixpoint boundaries (l : list Action) : list Z :=
  match l with
  | [] => []
  | CallOnBoundary _ i :: r => i :: boundaries r
  | _ :: r => boundaries r
  end.

(** The chunks handed to the backend, in the order of the requests. *)
Fixpoint submitted (l : list Action) : list Chunk :=
  match l with
  | [] => []
  | SynthSpeak _ u :: r => next u :: submitted r
  | _ :: r => submitted r
  end.

End Playback.

(** ** The edit reconciler ([SuperDocReader]) *)

Module Reconciler.
Import JS.

Definition len (s : jsstring) : Z := Z.of_nat (length s).

(** [a === b] on strings. *)
Fixpoint str_eqb (a b : jsstring) : bool :=
  match a, b with
  | [], [] => true
  | x :: a', y :: b' => (x =? y)%N && str_eqb a' b'
  | _, _ => false
  end.

Definition is_empty (s : jsstring) : bool :=
  match s with [] => true | _ => false end.

Definition remapIndexAfterEdit (oldText newText : jsstring) (oldIndex : Z) : Z :=
  if is_empty oldText || is_empty newText then 0%Z
  else if str_eqb oldText newText
  then clamp oldIndex 0 (Z.max 0 (len newText - 1))
  else
    let anchorStart := clamp (oldIndex - 22) 0 (len oldText) in
    let anchorEnd := clamp (oldIndex + 22) 0 (len oldText) in
    let anchor := trim (slice oldText anchorStart anchorEnd) in
    let shifted :=
      let delta := (len newText - len oldText)%Z in
      clamp (oldIndex + delta) 0 (Z.max 0 (len newText - 1)) in
    if (8 <=? len anchor)%Z
    then
      let anchorPos := indexOf newText anchor in
      if (0 <=? anchorPos)%Z
      then
        let relative := (oldIndex - anchorStart)%Z in
        clamp (anchorPos + relative) 0 (Z.max 0 (len newText - 1))
      else shifted
    else shifted.

(** The words of the specification of the reconciler. *)

(** The window of the anchor in [oldText] and the anchor itself. *)
Definition anchorWindowStart (oldText : jsstring) (oldIndex : Z) : Z :=
  clamp (oldIndex - 22) 0 (len oldText).
Definition anchorWindowEnd (oldText : jsstring) (oldIndex : Z) : Z :=
  clamp (oldIndex + 22) 0 (len oldText).
Definition anchor_of (oldText : jsstring) (oldIndex : Z) : jsstring :=
  trim (slice oldText (anchorWindowStart oldText oldIndex)
              (anchorWindowEnd oldText oldIndex)).

(** The number of characters of [s] that are not whitespace. *)
Definition nonSpaceCount (s : jsstring) : nat :=
  length (filter (fun c => negb (is_space c)) s).

(** [pat] occurs in [s] at position [p]. *)
Definition occurs_at (pat s : jsstring) (p : nat) : Prop :=
  exists before after, s = before ++ pat ++ after /\ length before = p.

(** [p] is the first position at which [pat] occurs in [s]. *)
Definition first_occurrence (pat s : jsstring) (p : nat) : Prop :=
  occurs_at pat s p /\ forall q, occurs_at pat s q -> (p <= q)%nat.

Definition occurs_in (pat s : jsstring) : Prop := exists p, occurs_at pat s p.

End Reconciler.

(** ** The reading history ([lib/readingHistory.ts]) *)

Module History.
Import JS.

Inductive ReaderType := pdf | word.

Record ReadingHistoryEntry := mkEntry {
  id : jsstring;
  readerType : ReaderType;
  documentName : jsstring;
  text : jsstring;
  currentIndex : Z;
  updatedAt : jsstring
}.

Definition MAX_ENTRIES : nat := 12.
Definition MAX_TEXT_LENGTH : Z := 180000.

(** The conversions of the bit operators: [ToInt32] and [ToUint32]. *)
Definition ToInt32 (x : Z) : Z := ((x + 2 ^ 31) mod 2 ^ 32 - 2 ^ 31)%Z.
Definition ToUint32 (x : Z) : Z := (x mod 2 ^ 32)%Z.

(** [a << k] *)
Definition shl (a : Z) (k : Z) : Z := ToInt32 (Z.shiftl (ToInt32 a) k).

(** The body of the loop of [hashText] for the code unit [c].  The sum is
    a sum of numbers, not of 32-bit integers: it is cut back to 32 bits by
    the next [^=] or by the final [>>> 0]. *)
Definition hash_step (hash : Z) (c : char) : Z :=
  let hash := Z.lxor (ToInt32 hash) (ToInt32 (Z.of_N c)) in
  (hash + (shl hash 1 + shl hash 4 + shl hash 7 + shl hash 8 + shl hash 24))%Z.

Definition hex_digit (d : Z) : char :=
  if (d <? 10)%Z then Z.to_N (48 + d) else Z.to_N (97 + (d - 10)).

(** [n.toString(16)] for a number [0 <= n < 16 ^ fuel]. *)
Fixpoint toString16_from (fuel : nat) (n : Z) (acc : jsstring) : jsstring :=
  match fuel with
  | O => acc
  | S fuel' =>
      let acc' := hex_digit (n mod 16) :: acc in
      if (n / 16 =? 0)%Z then acc' else toString16_from fuel' (n / 16) acc'
  end.

Definition hashText (s : jsstring) : jsstring :=
  toString16_from 8 (ToUint32 (fold_left hash_step s 2166136261%Z)) [].

Definition readerType_string (r : ReaderType) : jsstring :=
  match r with pdf => lit "pdf" | word => lit "word" end.

Definition str_eqb := Reconciler.str_eqb.

(** [saveHistoryEntry] as a function of what [getAll()] returns, the list
    of entries read from the storage, to what [setAll] stores; [now] is
    [new Date().toISOString()]. *)
Definition saveHistoryEntry (readerType : ReaderType) (documentName text : jsstring)
    (currentIndex : Z) (now : jsstring) (stored : list ReadingHistoryEntry)
    : list ReadingHistoryEntry :=
  if Reconciler.is_empty (trim text) then stored
  else
    let clipped := slice text 0 MAX_TEXT_LENGTH in
    let id :=
      readerType_string readerType ++ lit "-" ++ documentName ++ lit "-"
        ++ hashText (slice clipped 0 2000) in
    let nextEntry :=
      mkEntry id readerType documentName clipped
              (Z.max 0 (Z.min currentIndex (Reconciler.len clipped - 1)))
              now in
    let existing := filter (fun entry => negb (str_eqb (History.id entry) id)) stored in
    let merged := firstn MAX_ENTRIES (nextEntry :: existing) in
    merged.

Definition deleteHistoryEntry (id : jsstring) (stored : list ReadingHistoryEntry)
    : list ReadingHistoryEntry :=
  filter (fun entry => negb (str_eqb (History.id entry) id)) stored.

(** The calls that write the storage. *)
Inductive Call :=
| Save (readerType : ReaderType) (documentName text : jsstring)
       (currentIndex : Z) (now : jsstring)
| Delete (id : jsstring).

Definition apply_call (stored : list ReadingHistoryEntry) (c : Call)
    : list ReadingHistoryEntry :=
  match c with
  | Save r d t i now => saveHistoryEntry r d t i now stored
  | Delete i => deleteHistoryEntry i stored
  end.

(** The histories the application can have stored: it starts with none,
    and only [saveHistoryEntry] and [deleteHistoryEntry] write. *)
Inductive stored_history : list ReadingHistoryEntry -> Prop :=
| history_empty : stored_history []
| history_call : forall h c, stored_history h -> stored_history (apply_call h c).

(** The ids of the entries are pairwise distinct. *)
Definition distinct_ids (h : list ReadingHistoryEntry) : Prop := NoDup (map id h).

End History.

(** ** The notions the properties are stated with *)

Module Properties.
Import JS Chunker.

(** [lo <= x1 < x2 < ... < xn < hi] for the list [x1 ... xn]. *)
Fixpoint ascending (lo : Z) (l : list Z) (hi : Z) : Prop :=
  match l with
  | [] => (lo <= hi)%Z
  | x :: r => (lo <= x)%Z /\ ascending (x + 1) r hi
  end.

Definition NoSpace (w : jsstring) : Prop := Forall (fun c => is_space c = false) w.

(** A chunk is within the bound, or it is one word without whitespace. *)
Definition bounded_or_word (c : Chunk) : Prop :=
  (length (text c) <= MAX_CHUNK_LENGTH)%nat \/ NoSpace (text c).

(** What the words of a sentence add to [cursor]. *)
Fixpoint cursor_sum (ws : list jsstring) : Z :=
  match ws with
  | [] => 0%Z
  | w :: r => ((if is_empty w then 0 else Z.of_nat (length w) + 1) + cursor_sum r)%Z
  end.

(** The invariant of the loop of [splitLongSentence]. *)
Definition split_inv (off : Z) (st : SplitState) : Prop :=
  (0 <= cursor st)%Z
  /\ ascending off (map start (push_current st)) (off + Z.max 0 (cursor st - 1))
  /\ Forall bounded_or_word (push_current st).

(** Every two neighbours of [p :: s] are related by [R]. *)
Fixpoint chain (R : char -> char -> bool) (p : char) (s : jsstring) : bool :=
  match s with
  | [] => true
  | c :: r => R p c && chain R c r
  end.

(** Whitespace is a single space that follows a character which is not
    whitespace. *)
Definition space_ok (a b : char) : bool :=
  negb (is_space b) || ((b =? SP)%N && negb (is_space a)).

(** A terminator does not follow whitespace, and what follows a terminator
    is a terminator or whitespace. *)
Definition punct_ok (a b : char) : bool :=
  (negb (is_term b) || negb (is_space a))
  && (negb (is_term a) || is_term b || is_space b).

(** In the normalized text [n] no terminator stands at the start or after a
    space, and every run of terminators ends at a space or at the end of
    the text: the sentences are written the usual way. *)
Definition well_punctuated (n : jsstring) : bool := chain punct_ok SP n.

(** After the character [p], the text [s] has single spaces as its only
    whitespace, and none at its end. *)
Definition clean (p : char) (s : jsstring) : Prop :=
  chain space_ok p s = true /\ is_space (last s p) = false.

Definition tidy (p : char) (s : jsstring) : Prop :=
  clean p s /\ chain punct_ok p s = true.

Definition nonempty (w : jsstring) : bool := negb (is_empty w).

(** Every chunk of [s] is within [MAX_CHUNK_LENGTH]. *)
Definition all_within_bound (s : jsstring) : Prop :=
  Forall (fun c => (length (text c) <= MAX_CHUNK_LENGTH)%nat) (chunkText s).

(** The texts of the chunks of [s], joined by single spaces, are the
    normalized text. *)
Definition rejoins (s : jsstring) : Prop :=
  join_sp (map text (chunkText s)) = normalize s.

(** The start offsets of the chunks of [s] increase strictly. *)
Definition starts_increase (s : jsstring) : Prop :=
  Sorted.StronglySorted Z.lt (map start (chunkText s)).

End Properties.

Module PlaybackProperties.
Import JS Chunker Playback.
Local Open Scope m_scope.

(** [lo <= x1 <= x2 <= ... <= xn <= hi] for the list [x1 ... xn]. *)
Fixpoint nondecreasing (lo : Z) (l : list Z) (hi : Z) : Prop :=
  match l with
  | [] => (lo <= hi)%Z
  | x :: r => (lo <= x)%Z /\ nondecreasing x r hi
  end.

(** A computation reports indices in order, from the last index reported
    before it on, and leaves the last one in [lastCharIndexRef]. *)
Definition keeps_order {A} (c : M A) : Prop :=
  forall s,
    nondecreasing (lastCharIndexRef s) (boundaries (actions_of (c s)))
                  (lastCharIndexRef (state_of (c s))).

(** The events inside a session: all but [speak()] and [stop()]. *)
Definition in_session (e : Event) : bool :=
  match e with
  | Speak _ | Stop => false
  | _ => true
  end.

Definition not_speak (e : Event) : bool :=
  match e with
  | Speak _ => false
  | _ => true
  end.

(** The calls that end the session in progress: [stop()], and [speak()]
    with a text that is not blank. *)
Definition ends_session (e : Event) : bool :=
  match e with
  | Stop => true
  | Speak o => negb (is_empty (trim (so_text o)))
  | _ => false
  end.

(** The utterance an event of the backend is about. *)
Definition utterance_of (e : Event) : option nat :=
  match e with
  | UStart id _ | UPause id _ | UResume id _ | UBoundary id _ _
  | UEnd id | UError id => Some id
  | _ => None
  end.

(** Suppression of stale events: once a call has ended a session, an event
    on an utterance of that session does nothing outside and leaves the
    queue alone. *)
Definition stale_events_suppressed : Prop :=
  forall (before : list Event) (cut e : Event) (id : nat),
    let old := state_of (run before (initial true)) in
    let s := state_of (handle cut old) in
    ends_session cut = true ->
    utterance_of e = Some id ->
    (id < length (utterances old))%nat ->
    actions_of (handle e s) = [] /\ queueRef (state_of (handle e s)) = queueRef s.

(** Nothing is queued and no options are kept, as [stop()] leaves it. *)
Definition idle (s : State) : Prop :=
  queueRef s = [] /\ lastSpeakOptionsRef s = None.

Definition quiet_at {A} (s : State) (c : M A) : Prop :=
  idle s -> idle (state_of (c s)) /\ submitted (actions_of (c s)) = [].

(** The backend reports an error on the utterance that is being played. *)
Definition fail_active : M unit :=
  s <- get ;;
  match activeUtteranceRef s with
  | Some id => onerror id
  | None => ret tt
  end.

Fixpoint fail_each (n : nat) : M unit :=
  match n with
  | O => ret tt
  | S k => fail_active ;; fail_each k
  end.

(** The utterance [playQueue] makes of a chunk. *)
Definition utterance_for (c : Chunk) (base : BaseOptions) : Utterance :=
  mkUtterance c base (orDefault (lang base) fr_FR) (orDefault (rate base) nine_tenths)
              (orDefault (pitch base) one) (orDefault (volume base) one) (voice base)
              0 0 0 0.

(** Two scenarios: a document of two sentences, and a second one. *)
Definition options_a : SpeakOptions :=
  mkSpeak (lit "Un. Deux.") None
          (mkBase None None None None None (Some 1%nat) (Some 2%nat)).
Definition options_b : SpeakOptions :=
  mkSpeak (lit "Trois. Quatre.") None
          (mkBase None None None None None (Some 3%nat) (Some 4%nat)).

End PlaybackProperties.

(** ** Further notions about the chunks *)

Module ChunkProperties.
Import JS Chunker.

(** The chunks [cs] lie one after the other between [lo] and [hi]: each
    has a text that is not empty, starts at or after the end of the one
    before, and the last one ends at or before [hi]. *)
Fixpoint spans (lo : Z) (cs : list Chunk) (hi : Z) : Prop :=
  match cs with
  | [] => (lo <= hi)%Z
  | c :: r =>
      (lo <= start c)%Z /\ (1 <= Z.of_nat (length (text c)))%Z
      /\ spans (start c + Z.of_nat (length (text c))) r hi
  end.

(** The invariant of the loop of [splitLongSentence] for the spans. *)
Definition split_spans (off : Z) (st : SplitState) : Prop :=
  (0 <= cursor st)%Z
  /\ spans off (push_current st) (off + Z.max 0 (cursor st - 1)).

(** The text of [c] stands in [j] at the offset [start c - off]. *)
Definition located_from (off : Z) (j : jsstring) (c : Chunk) : Prop :=
  exists before after,
    j = before ++ text c ++ after /\ (Z.of_nat (length before) = start c - off)%Z.

(** The text of [c] stands in [n] at the offset [start c]. *)
Definition located (n : jsstring) (c : Chunk) : Prop := located_from 0 n c.

(** The value of [cursor] after the words [ws]. *)
Definition cursor_after (ws : list jsstring) : Z :=
  match ws with
  | [] => 0%Z
  | _ :: _ => (Z.of_nat (length (join_sp ws)) + 1)%Z
  end.

(** The invariant of the loop of [splitLongSentence] for the offsets, the
    words [ws] being read. *)
Definition split_located (off : Z) (ws : list jsstring) (st : SplitState) : Prop :=
  cursor st = cursor_after ws
  /\ Forall (located_from off (join_sp ws)) (chunks st)
  /\ ((current st = [] /\ ws = [])
      \/ (current st <> [] /\ ws <> []
          /\ exists before,
               join_sp ws = before ++ current st
               /\ (Z.of_nat (length before) = currentStart st - off)%Z)).

End ChunkProperties.

(** ** Further notions about the playback driver *)

Module PlaybackSessions.
Import JS Chunker Playback PlaybackProperties ChunkProperties.
Local Open Scope m_scope.

(** The backend reports the end of the utterance that is being played, or
    an error on it. *)
Definition finish_active (failed : bool) : M unit :=
  s <- get ;;
  match activeUtteranceRef s with
  | Some id => if failed then onerror id else onend id
  | None => ret tt
  end.

Fixpoint finish_each (outcomes : list bool) : M unit :=
  match outcomes with
  | [] => ret tt
  | failed :: r => finish_active failed ;; finish_each r
  end.

(** The calls of [onEnd], in order. *)
Fixpoint ends (l : list Action) : list callback :=
  match l with
  | [] => []
  | CallOnEnd f :: r => f :: ends r
  | _ :: r => ends r
  end.

(** The calls of the interface of the hook. *)
Definition interface_call (e : Event) : bool :=
  match e with
  | Speak _ | Stop | Pause _ | Resume _ => true
  | _ => false
  end.

(** The chunk [c] lies inside the text [t]. *)
Definition within (t : jsstring) (c : Chunk) : Prop :=
  (0 <= start c)%Z /\ (1 <= len (text c))%Z /\ (start c + len (text c) <= len t)%Z.

(** The hook reads the text [t]: the chunks of its queue and of its
    utterances lie inside [t]. *)
Definition reading (t : jsstring) (s : State) : Prop :=
  sourceTextRef s = t
  /\ (0 <= lastCharIndexRef s)%Z
  /\ Forall (within t) (queueRef s)
  /\ Forall (fun u => within t (next u)) (utterances s).

Definition inside_at {A} (t : jsstring) (s : State) (c : M A) : Prop :=
  reading t s ->
  reading t (state_of (c s))
  /\ Forall (fun i => (0 <= i < len t)%Z) (boundaries (actions_of (c s))).

End PlaybackSessions.

(** ** The helpers of the readers ([SuperDocReader], [PdfReader]) *)

Module Readers.
Import JS.

Definition len (s : jsstring) : Z := Z.of_nat (length s).

(** [/\s/.test(text[i])]; outside of the text, [text[i]] is [undefined],
    which is tested as the string "undefined". *)
Definition space_at (text : jsstring) (i : nat) : bool :=
  match nth_error text i with
  | Some c => is_space c
  | None => false
  end.

(** [while (from > 0 && !/\s/.test(text[from - 1])) from -= 1] *)
Fixpoint scan_left (text : jsstring) (from : nat) : nat :=
  match from with
  | O => O
  | S k => if space_at text k then from else scan_left text k
  end.

(** [while (to < text.length && !/\s/.test(text[to])) to += 1]; [fuel]
    bounds the number of iterations. *)
Fixpoint scan_right (fuel : nat) (text : jsstring) (to : nat) : nat :=
  match fuel with
  | O => to
  | S fuel' =>
      if (to <? length text)%nat && negb (space_at text to)
      then scan_right fuel' text (S to)
      else to
  end.

Record SelectionRange := mkRange { from : Z; to : Z }.

Definition wordRangeAt (text : jsstring) (index : Z) : SelectionRange :=
  let safe := Z.to_nat (clamp index 0 (Z.max 0 (len text - 1))) in
  mkRange (Z.of_nat (scan_left text safe))
          (Z.of_nat (scan_right (length text) text safe)).

Definition DOT : char := 46%N.
Definition SLASH : char := 47%N.

(** The class [[^/.]]. *)
Definition ext_char (c : char) : bool := negb (c =? SLASH)%N && negb (c =? DOT)%N.

(** [filename.replace(/\.[^/.]+$/, "")]: the match starts at the first dot
    that is followed, up to the end, by one character or more of the
    class; it is removed. *)
Fixpoint strip_extension (s : jsstring) : jsstring :=
  match s with
  | [] => []
  | c :: r =>
      if (c =? DOT)%N && negb (Reconciler.is_empty r) && forallb ext_char r
      then []
      else c :: strip_extension r
  end.

Definition basenameNoExt (filename : jsstring) : jsstring :=
  match strip_extension filename with
  | [] => lit "document"
  | c :: r => c :: r
  end.

Record NormalizedText := mkNormalized { normalized : jsstring; indexMap : list Z }.

(** The loop of [normalizeWithMap] from the index [i] on: what it appends
    to [normalized] and to [indexMap]. *)
Fixpoint normalize_loop (previousWasSpace : bool) (i : Z) (input : jsstring)
    : jsstring * list Z :=
  match input with
  | [] => ([], [])
  | char :: r =>
      if is_space char
      then
        if previousWasSpace then normalize_loop true (i + 1) r
        else
          let '(n, m) := normalize_loop true (i + 1) r in
          (SP :: n, i :: m)
      else
        let '(n, m) := normalize_loop false (i + 1) r in
        (char :: n, i :: m)
  end.

(** [s.endsWith(" ")] *)
Definition ends_with_space (s : jsstring) : bool :=
  match rev s with
  | c :: _ => (c =? SP)%N
  | [] => false
  end.

Definition normalizeWithMap (input : jsstring) : NormalizedText :=
  let '(n, m) := normalize_loop true 0 input in
  if ends_with_space n then mkNormalized (removelast n) (removelast m)
  else mkNormalized n m.

(** [indexMap[Math.min(charIndex, indexMap.length - 1)] ?? 0], the index
    the [onBoundary] callback of [lancerLecture] adds to [startOffset]. *)
Definition mappedLocalIndex (indexMap : list Z) (charIndex : Z) : Z :=
  let k := Z.min charIndex (Z.of_nat (length indexMap) - 1) in
  if (k <? 0)%Z then 0%Z else nth (Z.to_nat k) indexMap 0%Z.

(** [s.substring(a, b)] *)
Definition substring (s : jsstring) (a b : Z) : jsstring :=
  let a' := clamp a 0 (len s) in
  let b' := clamp b 0 (len s) in
  firstn (Z.to_nat (Z.max a' b' - Z.min a' b')) (skipn (Z.to_nat (Z.min a' b')) s).

(** The loop of [obtenirTexteDepuisCurseur] that looks for the last [.],
    [!] or [?] below the index [i]. *)
Fixpoint indexDernierePonctuation (s : jsstring) (i : nat) : Z :=
  match i with
  | O => (-1)%Z
  | S k =>
      match nth_error s k with
      | Some c => if Chunker.is_term c then Z.of_nat k
                  else indexDernierePonctuation s k
      | None => indexDernierePonctuation s k
      end
  end.

Record ReadingSlice := mkSlice { rs_text : jsstring; startOffset : Z }.

(** [cursor] is [textareaRef.current.selectionStart], when there is a
    text area. *)
Definition obtenirTexteDepuisCurseur (texte : jsstring) (cursor : option Z)
    : ReadingSlice :=
  match cursor with
  | None => mkSlice texte 0
  | Some cursorPos =>
      let textAvantCurseur := substring texte 0 cursorPos in
      let i := indexDernierePonctuation textAvantCurseur (length textAvantCurseur) in
      let startOffset := if (i =? -1)%Z then 0%Z else (i + 1)%Z in
      mkSlice (substring texte startOffset (len texte)) startOffset
  end.

(** The character at the index [k] of [s] is [.], [!] or [?]. *)
Definition punct_at (s : jsstring) (k : nat) : bool :=
  match nth_error s k with
  | Some c => Chunker.is_term c
  | None => false
  end.

(** The character of [input] that stands behind the character [c] of the
    normalized text: [c] itself, or whitespace behind a space. *)
Definition stands_for (input : jsstring) (c : char) (j : Z) : Prop :=
  (0 <= j)%Z
  /\ exists x, nth_error input (Z.to_nat j) = Some x
               /\ c = if is_space x then SP else x.

(** The index of the document that the [onBoundary] callback of
    [lancerLecture(textToRead, startOffset)] stores when the driver reports
    the index [charIndex] of the text it reads. *)
Definition lancerLecture_onBoundary (r : ReadingSlice) (charIndex : Z) : Z :=
  (startOffset r
   + mappedLocalIndex (indexMap (normalizeWithMap (rs_text r))) charIndex)%Z.

(** [jumpAndRead(delta)]: the text and the offset it hands to
    [lancerLecture]; nothing when the text is blank. *)
Definition jumpAndRead (texte : jsstring) (activeDocCharIndex delta : Z)
    : option ReadingSlice :=
  if Reconciler.is_empty (trim texte) then None
  else
    let maxIndex := Z.max 0 (len texte - 1) in
    let baseIndex := Z.max 0 (Z.min activeDocCharIndex maxIndex) in
    let targetIndex := Z.max 0 (Z.min (baseIndex + delta) maxIndex) in
    let textFromTarget := slice texte targetIndex (len texte) in
    Some (mkSlice textFromTarget targetIndex).

(** The stored index of the document points at the character the driver
    is at: the character at [charIndex] of the text that is read is the
    character of the document at the stored index, or the space that
    stands for it. *)
Definition follows (texte : jsstring) (r : ReadingSlice) (charIndex : Z) : Prop :=
  exists x,
    nth_error texte (Z.to_nat (lancerLecture_onBoundary r charIndex)) = Some x
    /\ nth_error (normalized (normalizeWithMap (rs_text r))) (Z.to_nat charIndex)
       = Some (if is_space x then SP else x).

End Readers.

(** ** Further notions about the history *)

Module HistoryQueries.
Import JS History.

(** [list.sort(cmp)]: the sort is stable, so an element goes before the
    first element of the sorted rest that it need not follow. *)
Fixpoint insert_by {A : Type} (cmp : A -> A -> Z) (x : A) (l : list A) : list A :=
  match l with
  | [] => [x]
  | y :: r => if (cmp x y <=? 0)%Z then x :: l else y :: insert_by cmp x r
  end.

Fixpoint sort_by {A : Type} (cmp : A -> A -> Z) (l : list A) : list A :=
  match l with
  | [] => []
  | x :: r => insert_by cmp x (sort_by cmp r)
  end.

Definition readerType_eqb (a b : ReaderType) : bool :=
  match a, b with
  | pdf, pdf | word, word => true
  | _, _ => false
  end.

(** [loadHistoryByType]; [time] is [s => +new Date(s)], the time a date
    string stands for, in milliseconds. *)
Definition loadHistoryByType (time : jsstring -> Z) (readerType : ReaderType)
    (stored : list ReadingHistoryEntry) : list ReadingHistoryEntry :=
  sort_by (fun a b => (time (updatedAt b) - time (updatedAt a))%Z)
          (filter (fun entry => readerType_eqb (History.readerType entry) readerType)
                  stored).

(** The id [saveHistoryEntry] gives to the entry of a document. *)
Definition entry_id (readerType : ReaderType) (documentName text : jsstring) : jsstring :=
  readerType_string readerType ++ lit "-" ++ documentName ++ lit "-"
    ++ hashText (slice (slice text 0 MAX_TEXT_LENGTH) 0 2000).

(** [a] is at least as recent as [b]. *)
Definition newer_or_same (time : jsstring -> Z) (a b : ReadingHistoryEntry) : Prop :=
  (time (updatedAt b) <= time (updatedAt a))%Z.

(** The FNV-1a hash of 32 bits over the code units. *)
Definition fnv1a_step (h : Z) (c : char) : Z :=
  ((Z.lxor h (Z.of_N c)) * 16777619 mod 2 ^ 32)%Z.

Definition fnv1a (s : jsstring) : Z := fold_left fnv1a_step s 2166136261%Z.

(** The number a string of lower case hexadecimal digits writes. *)
Definition hex_value (c : char) : Z :=
  if (c <? 58)%N then (Z.of_N c - 48)%Z else (Z.of_N c - 87)%Z.

Definition is_hex_digit (c : char) : bool :=
  ((48 <=? c) && (c <=? 57) || (97 <=? c) && (c <=? 102))%N.

Definition from_hex (s : jsstring) : Z :=
  fold_left (fun v c => (16 * v + hex_value c)%Z) s 0%Z.

End HistoryQueries.

(** ** The analysis of the document: positions and issues *)

Module Analysis.
Import JS.

Definition len (s : jsstring) : Z := Z.of_nat (length s).

Definition NL : char := 10%N.

(** [s.split("\n")] *)
Fixpoint split_lines (s : jsstring) : list jsstring :=
  match s with
  | [] => [[]]
  | c :: r =>
      if (c =? NL)%N then [] :: split_lines r
      else
        match split_lines r with
        | l :: ls => (c :: l) :: ls
        | [] => [[c]]
        end
  end.

Record LineColumn := mkLineColumn { line : Z; column : Z }.

(** [lines.at(-1)?.length ?? 0] *)
Definition last_length (lines : list jsstring) : Z :=
  match rev lines with
  | l :: _ => len l
  | [] => 0%Z
  end.

Definition toLineColumn (text : jsstring) (index : Z) : LineColumn :=
  let safe := Z.max 0 (Z.min index (len text)) in
  let before := slice text 0 safe in
  let lines := split_lines before in
  mkLineColumn (Z.of_nat (length lines)) (last_length lines + 1).

(** The number of line ends in a text. *)
Definition newlines (s : jsstring) : nat := length (filter (fun c => (c =? NL)%N) s).

Inductive IssueType := logic | grammar | vocabulary.

Record AnalysisIssue := mkIssue {
  id : jsstring;
  type : IssueType;
  message : jsstring;
  excerpt : jsstring;
  index : Z;
  issue_line : Z;
  issue_column : Z
}.

(** The [Map] of [dedupeIssues], its entries in the order of insertion. *)
Definition IssueMap := list (jsstring * AnalysisIssue).

Definition has (map : IssueMap) (key : jsstring) : bool :=
  existsb (fun kv => Reconciler.str_eqb (fst kv) key) map.

(** [if (!map.has(issue.id)) map.set(issue.id, issue)] *)
Definition dedupe_step (map : IssueMap) (issue : AnalysisIssue) : IssueMap :=
  if has map (id issue) then map else map ++ [(id issue, issue)].

Definition dedupeIssues (issues : list AnalysisIssue) : list AnalysisIssue :=
  let map := fold_left dedupe_step issues [] in
  HistoryQueries.sort_by (fun a b => (index a - index b)%Z) (List.map snd map).

(** [x] is the first issue of [issues] that has its id. *)
Definition first_of_its_id (issues : list AnalysisIssue) (x : AnalysisIssue) : Prop :=
  exists pre post, issues = pre ++ x :: post /\ ~ In (id x) (List.map id pre).

End Analysis.

(** ** The window of text around the reading position ([ReadingProgress]) *)

Module Progress.
Import JS.

Definition len (s : jsstring) : Z := Z.of_nat (length s).

Definition WINDOW_SIZE : Z := 240.

(** [text[i] !== " "]; outside of the text, [text[i]] is [undefined]. *)
Definition not_blank_at (text : jsstring) (i : nat) : bool :=
  match nth_error text i with
  | Some c => negb (c =? SP)%N
  | None => true
  end.

(** [while (wordStart > startWindow && text[wordStart - 1] !== " ") wordStart -= 1] *)
Fixpoint scan_wordStart (text : jsstring) (startWindow wordStart : nat) : nat :=
  match wordStart with
  | O => O
  | S k =>
      if (startWindow <? wordStart)%nat && not_blank_at text k
      then scan_wordStart text startWindow k
      else wordStart
  end.

(** [while (wordEnd < endWindow && text[wordEnd] !== " ") wordEnd += 1];
    [fuel] bounds the number of iterations. *)
Fixpoint scan_wordEnd (fuel : nat) (text : jsstring) (endWindow wordEnd : nat) : nat :=
  match fuel with
  | O => wordEnd
  | S fuel' =>
      if (wordEnd <? endWindow)%nat && not_blank_at text wordEnd
      then scan_wordEnd fuel' text endWindow (S wordEnd)
      else wordEnd
  end.

(** [current] is [None] when it is [undefined]. *)
Record Content := mkContent {
  before : jsstring;
  current : option jsstring;
  after : jsstring
}.

Definition safeIndex (text : jsstring) (currentCharIndex : Z) : Z :=
  Z.max 0 (Z.min currentCharIndex (len text - 1)).

Definition startWindow (text : jsstring) (currentCharIndex : Z) : Z :=
  Z.max 0 (safeIndex text currentCharIndex - WINDOW_SIZE / 2).

Definition endWindow (text : jsstring) (currentCharIndex : Z) : Z :=
  Z.min (len text) (safeIndex text currentCharIndex + WINDOW_SIZE / 2).

Definition content (text : jsstring) (currentCharIndex : Z) : Content :=
  if Reconciler.is_empty (trim text) then mkContent [] (Some []) []
  else
    let safeIndex := safeIndex text currentCharIndex in
    let startWindow := startWindow text currentCharIndex in
    let endWindow := endWindow text currentCharIndex in
    let wordStart :=
      Z.of_nat (scan_wordStart text (Z.to_nat startWindow) (Z.to_nat safeIndex)) in
    let wordEnd :=
      Z.of_nat (scan_wordEnd (length text) text (Z.to_nat endWindow)
                             (Z.to_nat safeIndex)) in
    let before := slice text startWindow wordStart in
    let current := trim (slice text wordStart (Z.max (wordStart + 1) wordEnd)) in
    let after := slice text (Z.max (wordStart + 1) wordEnd) endWindow in
    mkContent
      (if (0 <? startWindow)%Z then lit "..." ++ before else before)
      (if Reconciler.is_empty current
       then option_map (fun c => [c]) (nth_error text (Z.to_nat safeIndex))
       else Some current)
      (if (endWindow <? len text)%Z then after ++ lit "..." else after).

End Progress.

(** ** Facts about the string primitives *)

Module JSFacts.
Import JS Chunker Properties.

Lemma takeWhile_dropWhile p s : takeWhile p s ++ dropWhile p s = s.
Proof.
  induction s as [|c r IH]; simpl; [reflexivity|].
  destruct (p c); simpl; [now rewrite IH | reflexivity].
Qed.

Lemma dropWhile_head p s c r : dropWhile p s = c :: r -> p c = false.
Proof.
  induction s as [|d t IH]; simpl; [discriminate|].
  destruct (p d) eqn:E; [exact IH|].
  intros H; injection H as -> _; exact E.
Qed.

Lemma takeWhile_all p s : Forall (fun c => p c = true) (takeWhile p s).
Proof.
  induction s as [|c r IH]; simpl; [constructor|].
  destruct (p c) eqn:E; constructor; assumption.
Qed.

Lemma dropWhile_length p s : (length (dropWhile p s) <= length s)%nat.
Proof.
  induction s as [|c r IH]; simpl; [lia|].
  destruct (p c); simpl; lia.
Qed.

Lemma trim_length s : (length (trim s) <= length s)%nat.
Proof.
  unfold trim, trimEnd, trimStart.
  rewrite length_rev.
  etransitivity; [apply dropWhile_length|].
  rewrite length_rev. apply dropWhile_length.
Qed.

Lemma split_ws_from_NoSpace s : forall cur b,
  NoSpace cur -> Forall NoSpace (split_ws_from cur b s).
Proof.
  induction s as [|c r IH]; intros cur b Hc; simpl.
  - constructor; [|constructor]. apply Forall_rev, Hc.
  - destruct (is_space c) eqn:E.
    + destruct b.
      * apply IH. constructor.
      * constructor; [apply Forall_rev, Hc|]. apply IH. constructor.
    + apply IH. constructor; assumption.
Qed.

Lemma split_ws_NoSpace s : Forall NoSpace (split_ws s).
Proof. apply split_ws_from_NoSpace. constructor. Qed.

Lemma cursor_sum_one w :
  (0 <= (if is_empty w then 0 else Z.of_nat (length w) + 1) <= Z.of_nat (length w) + 1)%Z.
Proof. destruct w; simpl is_empty; cbv iota; lia. Qed.

Lemma split_ws_from_cursor_sum s : forall cur b,
  (cursor_sum (split_ws_from cur b s) <= Z.of_nat (length cur) + Z.of_nat (length s) + 1)%Z.
Proof.
  induction s as [|c r IH]; intros cur b; simpl split_ws_from.
  - simpl cursor_sum. pose proof (cursor_sum_one (rev cur)) as H.
    rewrite ?length_rev in *.
    destruct (is_empty (rev cur)); simpl length; lia.
  - destruct (is_space c).
    + destruct b.
      * specialize (IH [] true). simpl length in *. lia.
      * simpl cursor_sum. pose proof (cursor_sum_one (rev cur)) as H.
        rewrite ?length_rev in *.
        specialize (IH [] true).
        destruct (is_empty (rev cur)); simpl length in *; lia.
    + specialize (IH (c :: cur) false). simpl length in *. lia.
Qed.

Lemma split_ws_cursor_sum s :
  (cursor_sum (split_ws s) <= Z.of_nat (length s) + 1)%Z.
Proof.
  pose proof (split_ws_from_cursor_sum s [] false) as H. simpl length in H.
  exact H.
Qed.

Lemma cursor_sum_nonneg ws : (0 <= cursor_sum ws)%Z.
Proof.
  induction ws as [|w r IH]; simpl; [lia|].
  pose proof (cursor_sum_one w). destruct (is_empty w); lia.
Qed.

End JSFacts.

(** ** The chunker: bounds and order *)

Module ChunkerBounds.
Import JS Chunker Properties JSFacts.

Lemma ascending_le lo l hi : ascending lo l hi -> (lo <= hi)%Z.
Proof.
  revert lo; induction l as [|x r IH]; simpl; intros lo H; [exact H|].
  destruct H as [H1 H2]. apply IH in H2. lia.
Qed.

Lemma ascending_weaken lo lo' l hi hi' :
  ascending lo l hi -> (lo' <= lo)%Z -> (hi <= hi')%Z -> ascending lo' l hi'.
Proof.
  revert lo lo'; induction l as [|x r IH]; simpl; intros lo lo' H L1 L2; [lia|].
  destruct H as [H1 H2]. split; [lia|]. apply (IH (x + 1)%Z); [assumption|lia|lia].
Qed.

Lemma ascending_app lo l1 mid l2 hi :
  ascending lo l1 mid -> ascending mid l2 hi -> ascending lo (l1 ++ l2) hi.
Proof.
  revert lo; induction l1 as [|x r IH]; simpl; intros lo H1 H2.
  - apply (ascending_weaken mid lo l2 hi hi); [assumption|lia|lia].
  - destruct H1 as [H1 H1']. split; [exact H1|]. apply IH; assumption.
Qed.

Lemma ascending_snoc lo l mid x hi :
  ascending lo l mid -> (mid <= x)%Z -> (x + 1 <= hi)%Z -> ascending lo (l ++ [x]) hi.
Proof.
  intros H1 H2 H3. apply (ascending_app lo l mid); [exact H1|]. simpl. lia.
Qed.

Lemma ascending_lower lo l hi : ascending lo l hi -> Forall (fun x => (lo <= x)%Z) l.
Proof.
  revert lo; induction l as [|x r IH]; simpl; intros lo H; [constructor|].
  destruct H as [H1 H2]. constructor; [exact H1|].
  apply IH in H2. eapply Forall_impl; [|exact H2]. simpl. intros; lia.
Qed.

Lemma ascending_sorted lo l hi : ascending lo l hi -> Sorted.StronglySorted Z.lt l.
Proof.
  revert lo; induction l as [|x r IH]; simpl; intros lo H; [constructor|].
  destruct H as [H1 H2]. constructor; [apply (IH _ H2)|].
  apply ascending_lower in H2. eapply Forall_impl; [|exact H2]. simpl. intros; lia.
Qed.

Lemma split_step_inv off st w :
  NoSpace w -> split_inv off st ->
  split_inv off (split_step off st w)
  /\ cursor (split_step off st w)
     = (cursor st + (if is_empty w then 0 else Z.of_nat (length w) + 1))%Z.
Proof.
  intros Hw (Hc & Ha & Hg). unfold split_step.
  destruct w as [|c w']; simpl is_empty; cbv iota.
  { split; [repeat split; assumption | lia]. }
  set (word := c :: w') in *.
  assert (Hlen : (1 <= Z.of_nat (length word))%Z) by (subst word; simpl length; lia).
  destruct (current st) as [|d cur'] eqn:Ecur; simpl is_empty; cbv iota.
  - (* the first word *)
    assert (Hp : push_current st = chunks st)
      by (unfold push_current; rewrite Ecur; reflexivity).
    rewrite Hp in Ha, Hg.
    destruct (length word <=? MAX_CHUNK_LENGTH)%nat eqn:E.
    + split; [|simpl; lia]. unfold split_inv, push_current; simpl.
      split; [lia|]. split.
      * rewrite map_app. simpl.
        eapply ascending_snoc; [exact Ha|lia|lia].
      * apply Forall_app. split; [exact Hg|]. constructor; [|constructor].
        left. simpl. apply Nat.leb_le, E.
    + split; [|simpl; lia]. unfold split_inv. unfold push_current at 1 2. simpl.
      rewrite Hp. split; [lia|]. split.
      * rewrite map_app. simpl.
        eapply ascending_snoc; [exact Ha|lia|lia].
      * apply Forall_app. split; [exact Hg|]. constructor; [|constructor].
        right. exact Hw.
  - set (cur := d :: cur') in *.
    destruct (length (cur ++ [SP] ++ word) <=? MAX_CHUNK_LENGTH)%nat eqn:E.
    + split; [|simpl; lia]. unfold split_inv.
      unfold push_current in *. rewrite Ecur in Ha, Hg. simpl in *.
      fold cur in Ha, Hg.
      rewrite map_app in *. simpl in *.
      split; [lia|]. split.
      * eapply ascending_weaken; [exact Ha|lia|lia].
      * apply Forall_app in Hg. destruct Hg as [Hg1 Hg2].
        apply Forall_app. split; [exact Hg1|]. constructor; [|constructor].
        left. simpl. apply Nat.leb_le, E.
    + split; [|simpl; lia]. unfold split_inv. unfold push_current at 1 2. simpl.
      split; [lia|]. split.
      * rewrite map_app. simpl.
        eapply ascending_snoc; [exact Ha|lia|lia].
      * apply Forall_app. split; [exact Hg|]. constructor; [|constructor].
        right. exact Hw.
Qed.

Lemma split_fold_inv off ws : forall st,
  Forall NoSpace ws -> split_inv off st ->
  split_inv off (fold_left (split_step off) ws st)
  /\ cursor (fold_left (split_step off) ws st) = (cursor st + cursor_sum ws)%Z.
Proof.
  induction ws as [|w r IH]; intros st Hws Hinv; simpl.
  - split; [exact Hinv | lia].
  - inversion Hws as [|? ? Hw Hr]; subst.
    destruct (split_step_inv off st w Hw Hinv) as [H1 H2].
    destruct (IH _ Hr H1) as [H3 H4]. split; [exact H3|]. rewrite H4, H2. lia.
Qed.

Lemma splitLongSentence_bounds sentence off :
  ascending off (map start (splitLongSentence sentence off))
            (off + Z.of_nat (length sentence))
  /\ Forall bounded_or_word (splitLongSentence sentence off).
Proof.
  unfold splitLongSentence.
  destruct (split_fold_inv off (split_ws sentence) (mkSplit [] [] off 0))
    as [(Hc & Ha & Hg) Hcur].
  - apply split_ws_NoSpace.
  - unfold split_inv, push_current; simpl. repeat split; try lia. constructor.
  - split; [|exact Hg].
    eapply ascending_weaken; [exact Ha|lia|].
    rewrite Hcur. simpl cursor.
    pose proof (split_ws_cursor_sum sentence). lia.
Qed.

(** What a match of [sentenceRegex] is made of. *)
Lemma exec_inv s i idx m :
  sentenceRegex_exec s i = Some (idx, m) ->
  exists skipped body terms spaces rest,
    skipn i s = skipped ++ body ++ terms ++ spaces ++ rest
    /\ idx = (i + length skipped)%nat
    /\ m = body ++ terms ++ spaces
    /\ body = takeWhile not_term (dropWhile is_term (skipn i s))
    /\ terms = takeWhile is_term (dropWhile not_term (dropWhile is_term (skipn i s)))
    /\ spaces = takeWhile is_space
                  (dropWhile is_term (dropWhile not_term (dropWhile is_term (skipn i s))))
    /\ rest = dropWhile is_space
                (dropWhile is_term (dropWhile not_term (dropWhile is_term (skipn i s))))
    /\ body <> [].
Proof.
  unfold sentenceRegex_exec.
  set (r := skipn i s).
  destruct (dropWhile is_term r) as [|c from] eqn:E; [discriminate|].
  intros H. injection H as <- <-.
  exists (takeWhile is_term r), (takeWhile not_term (c :: from)),
    (takeWhile is_term (dropWhile not_term (c :: from))),
    (takeWhile is_space (dropWhile is_term (dropWhile not_term (c :: from)))),
    (dropWhile is_space (dropWhile is_term (dropWhile not_term (c :: from)))).
  repeat split; try reflexivity.
  - rewrite !takeWhile_dropWhile. rewrite <- E. now rewrite takeWhile_dropWhile.
  - apply dropWhile_head in E. simpl. unfold not_term at 1. rewrite E. simpl. discriminate.
Qed.

Lemma exec_progress s i idx m :
  sentenceRegex_exec s i = Some (idx, m) ->
  (i <= idx)%nat /\ (1 <= length m)%nat /\ (idx + length m <= length s)%nat.
Proof.
  intros H. destruct (exec_inv _ _ _ _ H)
    as (sk & body & terms & spaces & rest & Hs & -> & -> & _ & _ & _ & _ & Hb).
  assert (L : length (skipn i s) = length (sk ++ body ++ terms ++ spaces ++ rest))
    by now rewrite Hs.
  rewrite length_skipn, !length_app in L. rewrite !length_app.
  destruct body; [congruence|]. simpl length in *. lia.
Qed.

(** The loop stops because no further match is found, not because the
    fuel runs out: more fuel does not change its result. *)
Lemma chunk_loop_fuel f1 : forall f2 n i acc,
  (length n - i < f1)%nat -> (length n - i < f2)%nat ->
  chunk_loop f1 n i acc = chunk_loop f2 n i acc.
Proof.
  induction f1 as [|f1 IH]; intros f2 n i acc H1 H2; [lia|].
  destruct f2 as [|f2]; [lia|]. simpl.
  destruct (sentenceRegex_exec n i) as [[idx m]|] eqn:E; [|reflexivity].
  destruct (exec_progress _ _ _ _ E) as (P1 & P2 & P3).
  destruct (is_empty (trim m)); [apply IH; lia|].
  destruct (length (trim m) <=? MAX_CHUNK_LENGTH)%nat; apply IH; lia.
Qed.

Lemma chunkText_fuel (n : jsstring) (more : nat) :
  chunk_loop (S (length n) + more) n 0 [] = chunk_loop (S (length n)) n 0 [].
Proof. apply chunk_loop_fuel; lia. Qed.

Lemma chunk_loop_bounds fuel : forall n i acc,
  ascending 0 (map start acc) (Z.of_nat i) -> Forall bounded_or_word acc ->
  (exists hi, ascending 0 (map start (chunk_loop fuel n i acc)) hi)
  /\ Forall bounded_or_word (chunk_loop fuel n i acc).
Proof.
  induction fuel as [|fuel IH]; intros n i acc Ha Hg; simpl.
  { split; [eexists; exact Ha | exact Hg]. }
  destruct (sentenceRegex_exec n i) as [[idx m]|] eqn:E;
    [|split; [eexists; exact Ha | exact Hg]].
  destruct (exec_progress _ _ _ _ E) as (P1 & P2 & P3).
  pose proof (trim_length m) as Ht.
  destruct (is_empty (trim m)).
  { apply IH; [|exact Hg]. eapply ascending_weaken; [exact Ha|lia|lia]. }
  destruct (length (trim m) <=? MAX_CHUNK_LENGTH)%nat eqn:El.
  - apply IH.
    + rewrite map_app. simpl. eapply ascending_snoc; [exact Ha|lia|lia].
    + apply Forall_app. split; [exact Hg|]. constructor; [|constructor].
      left. simpl. apply Nat.leb_le, El.
  - destruct (splitLongSentence_bounds (trim m) (Z.of_nat idx)) as [Hs1 Hs2].
    apply IH.
    + rewrite map_app. eapply ascending_app.
      * eapply ascending_weaken; [exact Ha|lia|]. apply Z.le_refl.
      * eapply ascending_weaken; [exact Hs1|lia|lia].
    + apply Forall_app. split; assumption.
Qed.

Lemma chunkText_bounds s :
  (exists hi, ascending 0 (map start (chunkText s)) hi)
  /\ Forall bounded_or_word (chunkText s).
Proof.
  unfold chunkText. destruct (is_empty (normalize s)).
  { split; [exists 0%Z; simpl; lia | constructor]. }
  destruct (chunk_loop_bounds (S (length (normalize s))) (normalize s) 0 [])
    as [[hi Ha] Hg]; [simpl; lia | constructor |].
  destruct (chunk_loop _ _ _ _) as [|c r].
  - destruct (splitLongSentence_bounds (normalize s) 0) as [H1 H2].
    split; [eexists; exact H1 | exact H2].
  - split; [eexists; exact Ha | exact Hg].
Qed.

(** C2, as amended.  Every chunk [chunkText] returns is at most
    [MAX_CHUNK_LENGTH] (220) characters long or is a single word without
    whitespace, which the chunker does not split, and the start offsets of
    the chunks increase strictly along the sequence. *)
Theorem chunkText_bounded_or_word_and_increasing (s : jsstring) :
  Forall bounded_or_word (chunkText s) /\ starts_increase s.
Proof.
  destruct (chunkText_bounds s) as [[hi Ha] Hg].
  split; [exact Hg|]. exact (ascending_sorted _ _ _ Ha).
Qed.

(** C2 fails as stated: a word of 221 letters is one chunk of 221
    characters. *)
Lemma chunkText_overlong_word :
  ~ (all_within_bound (repeat 97%N 221) /\ starts_increase (repeat 97%N 221)).
Proof.
  intros [H _]. unfold all_within_bound in H.
  assert (E : map (fun c => length (text c)) (chunkText (repeat 97%N 221)) = [221%nat])
    by (vm_compute; reflexivity).
  destruct (chunkText (repeat 97%N 221)) as [|c r]; [discriminate|].
  inversion H as [|? ? Hc _]; subst. simpl in E. injection E as E _.
  rewrite E in Hc. unfold MAX_CHUNK_LENGTH in Hc. lia.
Qed.

(** C7, as amended.  The example text is cut into three chunks that start
    at the offsets 0, 9 and 37. *)
Theorem chunkText_bonjour_starts :
  map start (chunkText
    (lit "Bonjour. Comment vas tu aujourd'hui? Tres bien merci."))
  = [0; 9; 37]%Z.
Proof. vm_compute. reflexivity. Qed.

(** C7 fails as stated: the third chunk does not start at 38. *)
Lemma chunkText_bonjour_not_38 :
  ~ (length (chunkText
       (lit "Bonjour. Comment vas tu aujourd'hui? Tres bien merci.")) = 3%nat
     /\ map start (chunkText
          (lit "Bonjour. Comment vas tu aujourd'hui? Tres bien merci."))
        = [0; 9; 38]%Z).
Proof. intros [_ H]. vm_compute in H. discriminate. Qed.

End ChunkerBounds.

(** ** The chunker: the chunks put together again *)

Module ChunkerRejoin.
Import JS Chunker Properties JSFacts ChunkerBounds.

Lemma is_term_not_space c : is_term c = true -> is_space c = false.
Proof.
  unfold is_term. intros H.
  apply orb_true_iff in H. destruct H as [H|H];
    [apply orb_true_iff in H; destruct H as [H|H]|];
    apply N.eqb_eq in H; subst; reflexivity.
Qed.

Lemma space_ok_space p c :
  space_ok p c = true -> is_space c = true -> c = SP /\ is_space p = false.
Proof.
  unfold space_ok. intros H E. rewrite E in H. simpl in H.
  apply andb_true_iff in H. destruct H as [H1 H2].
  apply N.eqb_eq in H1. apply negb_true_iff in H2. now split.
Qed.

Lemma space_ok_nonspace p c : is_space c = false -> space_ok p c = true.
Proof. unfold space_ok. now intros ->. Qed.

Lemma last_indep (b : jsstring) p q : b <> [] -> last b p = last b q.
Proof.
  induction b as [|x b IH]; [congruence|]. intros _.
  destruct b as [|y b]; [reflexivity|]. simpl in *. apply IH. discriminate.
Qed.

Lemma chain_app R p a b :
  chain R p (a ++ b) = chain R p a && chain R (last a p) b.
Proof.
  revert p; induction a as [|x a IH]; intros p; simpl app; simpl chain.
  - reflexivity.
  - rewrite IH, andb_assoc. f_equal. f_equal.
    destruct a as [|y a]; [reflexivity|].
    change (last (x :: y :: a) p) with (last (y :: a) p).
    apply last_indep. discriminate.
Qed.

Lemma last_app (a b : jsstring) p : last (a ++ b) p = last b (last a p).
Proof.
  revert p; induction a as [|x a IH]; intros p; [reflexivity|].
  destruct a as [|y a].
  - simpl app. destruct b as [|z b]; [reflexivity|].
    change (last (x :: z :: b) p) with (last (z :: b) p).
    apply last_indep. discriminate.
  - change (last ((x :: y :: a) ++ b) p) with (last ((y :: a) ++ b) p).
    rewrite IH. reflexivity.
Qed.

Lemma last_Forall (P : char -> Prop) (l : jsstring) p :
  l <> [] -> Forall P l -> P (last l p).
Proof.
  intros Hne H. destruct (exists_last Hne) as (l' & x & ->).
  rewrite last_last. apply Forall_app in H. destruct H as [_ H].
  now inversion H.
Qed.

Lemma dropWhile_app_all p w l :
  Forall (fun c => p c = true) w -> dropWhile p (w ++ l) = dropWhile p l.
Proof.
  induction 1 as [|c w Hc _ IH]; simpl; [reflexivity|]. now rewrite Hc.
Qed.

Lemma trimEnd_spaces a w :
  Forall (fun c => is_space c = true) w -> trimEnd (a ++ w) = trimEnd a.
Proof.
  intros H. unfold trimEnd. rewrite rev_app_distr.
  rewrite dropWhile_app_all; [reflexivity|]. apply Forall_rev, H.
Qed.

Lemma trimEnd_fixed a p :
  a <> [] -> is_space (last a p) = false -> trimEnd a = a.
Proof.
  intros Hne H. destruct (exists_last Hne) as (a' & x & ->).
  rewrite last_last in H. unfold trimEnd.
  rewrite rev_unit. simpl. rewrite H. simpl. now rewrite rev_involutive.
Qed.

Lemma trimEnd_prefix s :
  exists w, s = trimEnd s ++ w /\ Forall (fun c => is_space c = true) w.
Proof.
  exists (rev (takeWhile is_space (rev s))). split.
  - unfold trimEnd. rewrite <- rev_app_distr, takeWhile_dropWhile.
    now rewrite rev_involutive.
  - apply Forall_rev, takeWhile_all.
Qed.

Lemma trimEnd_last s p : trimEnd s <> [] -> is_space (last (trimEnd s) p) = false.
Proof.
  unfold trimEnd. destruct (dropWhile is_space (rev s)) as [|x l] eqn:E.
  - simpl. congruence.
  - intros _. simpl. rewrite last_last. eapply dropWhile_head, E.
Qed.

(** A text that is clean after a space is left alone by [trim], also when
    whitespace follows it. *)
Lemma trim_clean a w :
  a <> [] -> clean SP a -> Forall (fun c => is_space c = true) w ->
  trim (a ++ w) = a.
Proof.
  intros Hne [Hc Hl] Hw. destruct a as [|c a]; [congruence|].
  simpl in Hc. apply andb_true_iff in Hc. destruct Hc as [Hc _].
  assert (Hs : is_space c = false).
  { destruct (is_space c) eqn:E; [|reflexivity].
    destruct (space_ok_space _ _ Hc E) as [_ F]. discriminate F. }
  unfold trim, trimStart. simpl app. simpl dropWhile. rewrite Hs.
  change (c :: a ++ w) with ((c :: a) ++ w).
  rewrite trimEnd_spaces by assumption.
  eapply trimEnd_fixed; [discriminate | exact Hl].
Qed.

Lemma replace_ws_chain s : forall b p,
  is_space p = b -> chain space_ok p (replace_ws_from b s) = true.
Proof.
  induction s as [|c r IH]; intros b p Hp; simpl; [reflexivity|].
  destruct (is_space c) eqn:E.
  - destruct b.
    + now apply IH.
    + simpl. rewrite (IH true SP eq_refl), andb_true_r.
      unfold space_ok. rewrite Hp. reflexivity.
  - simpl. rewrite (space_ok_nonspace _ _ E). simpl. now apply IH.
Qed.

Lemma chain_head_nonspace p q c r :
  is_space c = false -> chain space_ok p (c :: r) = chain space_ok q (c :: r).
Proof. intros E. simpl. now rewrite !(space_ok_nonspace _ _ E). Qed.

(** The normalized text is empty or clean. *)
Lemma normalize_clean s : normalize s = [] \/ clean SP (normalize s).
Proof.
  unfold normalize, trim.
  set (t := trimStart (replace_ws s)).
  destruct (trimEnd t) as [|c n] eqn:En; [now left|]. right.
  destruct (trimEnd_prefix t) as (w & Ht & _). rewrite En in Ht.
  assert (Hc : is_space c = false).
  { unfold t, trimStart in Ht.
    destruct (dropWhile is_space (replace_ws s)) as [|d l] eqn:E; [discriminate|].
    apply dropWhile_head in E. simpl in Ht. now injection Ht as <- _. }
  split.
  - assert (H0 : chain space_ok 0%N (replace_ws s) = true)
      by (apply replace_ws_chain; reflexivity).
    rewrite <- (takeWhile_dropWhile is_space (replace_ws s)) in H0.
    rewrite chain_app in H0. apply andb_true_iff in H0. destruct H0 as [_ H0].
    fold (trimStart (replace_ws s)) in H0. fold t in H0.
    rewrite Ht, chain_app in H0. apply andb_true_iff in H0. destruct H0 as [H0 _].
    rewrite (chain_head_nonspace _ SP) in H0; assumption.
  - rewrite <- En. apply trimEnd_last. rewrite En. discriminate.
Qed.

Lemma join_sp_cons w l : l <> [] -> join_sp (w :: l) = w ++ SP :: join_sp l.
Proof. destruct l; [congruence|reflexivity]. Qed.

Lemma join_sp_app a b :
  a <> [] -> b <> [] -> join_sp (a ++ b) = join_sp a ++ SP :: join_sp b.
Proof.
  induction a as [|x a IH]; [congruence|]. intros _ Hb.
  destruct a as [|y a].
  - simpl app. now rewrite join_sp_cons.
  - change ((x :: y :: a) ++ b) with (x :: (y :: a) ++ b).
    rewrite join_sp_cons by discriminate.
    rewrite IH by (discriminate || assumption).
    rewrite (join_sp_cons x (y :: a)) by discriminate.
    now rewrite <- app_assoc.
Qed.

(** Joining two neighbours by a space beforehand does not change the
    result. *)
Lemma join_sp_merge c a b r :
  join_sp (c ++ (a ++ [SP] ++ b) :: r) = join_sp (c ++ a :: b :: r).
Proof.
  assert (B : join_sp ((a ++ [SP] ++ b) :: r) = join_sp (a :: b :: r)).
  { destruct r as [|z r].
    - reflexivity.
    - rewrite !join_sp_cons by discriminate. now rewrite <- !app_assoc. }
  destruct c as [|x c]; [exact B|].
  rewrite !(join_sp_app (x :: c)) by discriminate. now rewrite B.
Qed.

Lemma last_cons (c : char) r p : last (c :: r) p = last r c.
Proof.
  destruct r as [|y r]; [reflexivity|].
  change (last (c :: y :: r) p) with (last (y :: r) p).
  apply last_indep. discriminate.
Qed.

Lemma clean_cons p c r :
  clean p (c :: r) -> space_ok p c = true /\ clean c r.
Proof.
  intros [H1 H2]. simpl in H1. apply andb_true_iff in H1. destruct H1 as [H1 H3].
  rewrite last_cons in H2. repeat split; assumption.
Qed.

Lemma clean_SP_nonempty s : clean SP s -> s <> [].
Proof. intros [_ H] ->. simpl in H. discriminate. Qed.

Lemma clean_SP_head c r : clean SP (c :: r) -> is_space c = false.
Proof.
  intros H. apply clean_cons in H. destruct H as [H _].
  destruct (is_space c) eqn:E; [|reflexivity].
  destruct (space_ok_space _ _ H E) as [_ F]. discriminate F.
Qed.

Lemma rev_nonempty (l : jsstring) : l <> [] -> nonempty (rev l) = true.
Proof.
  destruct l as [|x l]; [congruence|]. intros _. simpl.
  destruct (rev l); reflexivity.
Qed.

(** The words of a clean text, joined by single spaces, are the text. *)
Lemma clean_split_join s :
  (forall cur p, cur <> [] -> is_space p = false -> clean p s ->
     join_sp (filter nonempty (split_ws_from cur false s)) = rev cur ++ s)
  /\ (forall b, clean SP s ->
        join_sp (filter nonempty (split_ws_from [] b s)) = s).
Proof.
  induction s as [|c r [IH1 IH2]]; split.
  - intros cur p Hne _ _. simpl. rewrite (rev_nonempty _ Hne). simpl.
    now rewrite app_nil_r.
  - intros b H. now apply clean_SP_nonempty in H.
  - intros cur p Hne Hp H. apply clean_cons in H. destruct H as [Hc Hr].
    simpl split_ws_from. destruct (is_space c) eqn:E.
    + destruct (space_ok_space _ _ Hc E) as [-> _].
      simpl filter. rewrite (rev_nonempty _ Hne).
      pose proof (IH2 true Hr) as J.
      rewrite join_sp_cons; [now rewrite J|].
      intros F. rewrite F in J. simpl in J. subst r.
      now apply clean_SP_nonempty in Hr.
    + rewrite (IH1 (c :: cur) c); [|discriminate|exact E|exact Hr].
      simpl rev. now rewrite <- app_assoc.
  - intros b H. pose proof (clean_SP_head _ _ H) as E.
    apply clean_cons in H. destruct H as [_ Hr].
    simpl split_ws_from. rewrite E.
    rewrite (IH1 [c] c); [reflexivity|discriminate|exact E|exact Hr].
Qed.

Lemma split_ws_join s :
  clean SP s -> join_sp (filter nonempty (split_ws s)) = s.
Proof. intros H. now apply (proj2 (clean_split_join s) false). Qed.

Lemma split_step_join off st w r :
  join_sp (map text (push_current (split_step off st w)) ++ filter nonempty r)
  = join_sp (map text (push_current st) ++ filter nonempty (w :: r)).
Proof.
  unfold split_step. destruct w as [|c w']; [reflexivity|].
  simpl is_empty; cbv iota. simpl filter. set (word := c :: w').
  destruct (current st) as [|d cur'] eqn:Ecur; simpl is_empty; cbv iota.
  - assert (Hp : push_current st = chunks st)
      by (unfold push_current; rewrite Ecur; reflexivity).
    rewrite Hp.
    destruct (length word <=? MAX_CHUNK_LENGTH)%nat;
      unfold push_current; simpl; rewrite ?Ecur; simpl;
      rewrite map_app, <- app_assoc; reflexivity.
  - set (cur := d :: cur').
    destruct (length (cur ++ [SP] ++ word) <=? MAX_CHUNK_LENGTH)%nat.
    + unfold push_current. rewrite Ecur. simpl is_empty. cbv iota.
      simpl current. simpl chunks. simpl currentStart. simpl is_empty. cbv iota.
      rewrite !map_app, <- !app_assoc. simpl map. simpl app.
      fold cur. apply (join_sp_merge (map text (chunks st)) cur word).
    + unfold push_current at 1. simpl.
      rewrite map_app, <- app_assoc. reflexivity.
Qed.

Lemma split_fold_join off ws : forall st,
  join_sp (map text (push_current (fold_left (split_step off) ws st)))
  = join_sp (map text (push_current st) ++ filter nonempty ws).
Proof.
  induction ws as [|w r IH]; intros st.
  - simpl. now rewrite app_nil_r.
  - simpl fold_left.
    rewrite IH. apply split_step_join.
Qed.

Lemma splitLongSentence_join sentence off :
  join_sp (map text (splitLongSentence sentence off))
  = join_sp (filter nonempty (split_ws sentence)).
Proof. unfold splitLongSentence. now rewrite split_fold_join. Qed.

Lemma tidy_head c r : tidy SP (c :: r) -> is_space c = false /\ is_term c = false.
Proof.
  intros [Hc Hp]. split; [eapply clean_SP_head, Hc|].
  simpl in Hp. apply andb_true_iff in Hp. destruct Hp as [Hp _].
  unfold punct_ok in Hp. destruct (is_term c); [discriminate Hp | reflexivity].
Qed.

(** The shape of the first match in a tidy text: a sentence that [trim]
    leaves alone, then nothing, or one space and a tidy text. *)
Lemma sentence_shape r :
  tidy SP r ->
  exists body terms spaces rest,
    body = takeWhile not_term r
    /\ terms = takeWhile is_term (dropWhile not_term r)
    /\ spaces = takeWhile is_space (dropWhile is_term (dropWhile not_term r))
    /\ rest = dropWhile is_space (dropWhile is_term (dropWhile not_term r))
    /\ r = (body ++ terms) ++ spaces ++ rest
    /\ body ++ terms <> []
    /\ clean SP (body ++ terms)
    /\ trim (body ++ terms ++ spaces) = body ++ terms
    /\ ((spaces = [] /\ rest = []) \/ (spaces = [SP] /\ tidy SP rest)).
Proof.
  intros T. do 4 eexists.
  split; [reflexivity|]. split; [reflexivity|]. split; [reflexivity|].
  split; [reflexivity|].
  set (body := takeWhile not_term r).
  set (ab := dropWhile not_term r).
  set (terms := takeWhile is_term ab).
  set (at_ := dropWhile is_term ab).
  set (spaces := takeWhile is_space at_).
  set (rest := dropWhile is_space at_).
  assert (Er : r = (body ++ terms) ++ spaces ++ rest).
  { unfold spaces, rest. rewrite takeWhile_dropWhile.
    unfold terms, at_. rewrite <- app_assoc, takeWhile_dropWhile.
    unfold body, ab. now rewrite takeWhile_dropWhile. }
  split; [exact Er|].
  assert (Hb : body <> []).
  { unfold body. destruct r as [|c r0]; [destruct T as [Hc _]; now apply clean_SP_nonempty in Hc|].
    destruct (tidy_head _ _ T) as [_ Ht]. simpl. unfold not_term at 1.
    rewrite Ht. discriminate. }
  split; [destruct body; [congruence | discriminate]|].
  destruct T as [[Hchain Hlast] Hp].
  destruct ab as [|t ab'] eqn:Eab.
  - (* the sentence runs to the end of the text *)
    subst terms at_ spaces rest. simpl in *. rewrite !app_nil_r in *.
    rewrite <- Er.
    assert (C : clean SP r) by (split; assumption).
    split; [exact C|]. split; [|left; now split].
    rewrite <- (app_nil_r r) at 1. apply trim_clean; [congruence|exact C|constructor].
  - assert (Ht : is_term t = true).
    { apply dropWhile_head in Eab. unfold not_term in Eab.
      now apply negb_false_iff in Eab. }
    assert (Hterms : terms <> []) by (unfold terms; simpl; rewrite Ht; discriminate).
    set (q := last (body ++ terms) SP).
    assert (Hq : is_term q = true).
    { unfold q. rewrite last_app.
      apply (last_Forall (fun c => is_term c = true)); [exact Hterms|].
      apply takeWhile_all. }
    rewrite Er in Hchain, Hp, Hlast.
    rewrite chain_app in Hchain, Hp. fold q in Hchain, Hp.
    apply andb_true_iff in Hchain. destruct Hchain as [Hc1 Hc2].
    apply andb_true_iff in Hp. destruct Hp as [Hp1 Hp2].
    assert (C : clean SP (body ++ terms)).
    { split; [exact Hc1|]. fold q. now apply is_term_not_space. }
    split; [exact C|]. split.
    { rewrite app_assoc. apply trim_clean; [|exact C|apply takeWhile_all].
      destruct body; [congruence | discriminate]. }
    rewrite last_app in Hlast. fold q in Hlast.
    unfold spaces, rest in *. rewrite takeWhile_dropWhile in Hc2, Hp2, Hlast.
    destruct at_ as [|d at'] eqn:Eat; [left; now split|]. right.
    assert (Hd : is_term d = false) by (eapply dropWhile_head, Eat).
    assert (Hds : is_space d = true).
    { simpl in Hp2. apply andb_true_iff in Hp2. destruct Hp2 as [Hp2 _].
      unfold punct_ok in Hp2. rewrite Hq, Hd in Hp2. simpl in Hp2.
      exact Hp2. }
    simpl in Hc2. apply andb_true_iff in Hc2. destruct Hc2 as [Hc2 Hc3].
    destruct (space_ok_space _ _ Hc2 Hds) as [-> _].
    simpl in Hp2. apply andb_true_iff in Hp2. destruct Hp2 as [_ Hp3].
    rewrite last_cons in Hlast.
    assert (C' : clean SP at') by (split; assumption).
    destruct at' as [|e at'']; [now apply clean_SP_nonempty in C'|].
    pose proof (clean_SP_head _ _ C') as He.
    simpl. rewrite He. split; [reflexivity|]. split; assumption.
Qed.

Lemma exec_tidy n i r :
  skipn i n = r -> tidy SP r ->
  sentenceRegex_exec n i
  = Some (i, takeWhile not_term r
              ++ takeWhile is_term (dropWhile not_term r)
              ++ takeWhile is_space (dropWhile is_term (dropWhile not_term r))).
Proof.
  intros H T. unfold sentenceRegex_exec. rewrite H.
  destruct r as [|c r0]; [destruct T as [Hc _]; now apply clean_SP_nonempty in Hc|].
  destruct (tidy_head _ _ T) as [_ Ht].
  assert (E1 : dropWhile is_term (c :: r0) = c :: r0) by (simpl; now rewrite Ht).
  assert (E2 : takeWhile is_term (c :: r0) = []) by (simpl; now rewrite Ht).
  cbv zeta. rewrite E1, E2. simpl length. now rewrite Nat.add_0_r.
Qed.

Lemma chunk_loop_end fuel n i acc :
  skipn i n = [] -> chunk_loop fuel n i acc = acc.
Proof.
  intros H. destruct fuel; [reflexivity|]. simpl.
  unfold sentenceRegex_exec. now rewrite H.
Qed.

Lemma chunk_loop_acc fuel : forall n i acc,
  chunk_loop fuel n i acc = acc ++ chunk_loop fuel n i [].
Proof.
  induction fuel as [|fuel IH]; intros n i acc; simpl; [now rewrite app_nil_r|].
  destruct (sentenceRegex_exec n i) as [[idx m]|]; [|now rewrite app_nil_r].
  destruct (is_empty (trim m)); [apply IH|].
  destruct (length (trim m) <=? MAX_CHUNK_LENGTH)%nat.
  - rewrite IH. simpl app. rewrite (IH n _ [_]). now rewrite <- app_assoc.
  - rewrite IH. simpl app. rewrite (IH n _ (splitLongSentence _ _)).
    now rewrite <- app_assoc.
Qed.

Lemma skipn_past (m rest : jsstring) n i :
  skipn i n = m ++ rest -> skipn (i + length m) n = rest.
Proof.
  intros H. rewrite Nat.add_comm, <- skipn_skipn, H.
  rewrite skipn_app, skipn_all, Nat.sub_diag. reflexivity.
Qed.





(** A sentence of 50 words and 504 characters goes through
    [splitLongSentence]: three chunks, which join to the text again. *)
Example chunkText_long_sentence :
  map (fun c => (start c, length (text c)))
      (chunkText (concat (repeat (lit "abcdefghi ") 50) ++ lit "fin."))
  = [(0%Z, 219%nat); (220%Z, 219%nat); (440%Z, 64%nat)]
  /\ rejoins (concat (repeat (lit "abcdefghi ") 50) ++ lit "fin.").
Proof. split; vm_compute; reflexivity. Qed.


End ChunkerRejoin.

(** ** The edit reconciler *)

Module ReconcilerProofs.
Import JS Reconciler.

Lemma str_eqb_eq a : forall b, str_eqb a b = true <-> a = b.
Proof.
  induction a as [|x a IH]; intros [|y b]; simpl; split; try easy.
  - intros H. apply andb_true_iff in H. destruct H as [H1 H2].
    apply N.eqb_eq in H1. apply IH in H2. now subst.
  - intros H. injection H as -> ->. rewrite N.eqb_refl. simpl. now apply IH.
Qed.

Lemma str_eqb_neq a b : a <> b -> str_eqb a b = false.
Proof.
  intros H. destruct (str_eqb a b) eqn:E; [|reflexivity].
  now apply str_eqb_eq in E.
Qed.

Lemma starts_with_spec pat : forall s,
  starts_with pat s = true <-> exists after, s = pat ++ after.
Proof.
  induction pat as [|p pat IH]; intros s; simpl.
  - split; [intros _; now exists s | reflexivity].
  - destruct s as [|c s].
    + split; [discriminate | intros [after H]; discriminate H].
    + rewrite andb_true_iff, N.eqb_eq, IH. split.
      * intros [-> [after ->]]. now exists after.
      * intros [after H]. injection H as -> ->. split; [reflexivity | now exists after].
Qed.

Lemma occurs_at_0 pat s : occurs_at pat s 0 <-> starts_with pat s = true.
Proof.
  rewrite starts_with_spec. split.
  - intros (before & after & -> & L). destruct before; [|discriminate L].
    now exists after.
  - intros [after ->]. now exists [], after.
Qed.

Lemma occurs_at_S pat c s q : occurs_at pat (c :: s) (S q) <-> occurs_at pat s q.
Proof.
  split.
  - intros (before & after & E & L). destruct before as [|b before]; [discriminate L|].
    injection E as -> ->. injection L as L. now exists before, after.
  - intros (before & after & -> & L). exists (c :: before), after.
    split; [reflexivity | simpl; now rewrite L].
Qed.

(** [indexOf] finds the first occurrence. *)
Lemma indexOf_from_first pat p : forall s i,
  first_occurrence pat s p -> indexOf_from pat s i = (i + Z.of_nat p)%Z.
Proof.
  induction p as [|p IH]; intros s i [Ho Hmin].
  - apply occurs_at_0 in Ho. destruct s; simpl in *; rewrite Ho; lia.
  - assert (Hs : starts_with pat s = false).
    { destruct (starts_with pat s) eqn:E; [|reflexivity].
      apply occurs_at_0, Hmin in E. lia. }
    destruct s as [|c s].
    + destruct Ho as (before & after & E & L). destruct before; discriminate.
    + simpl indexOf_from. rewrite Hs. rewrite IH; [lia|]. split.
      * now apply occurs_at_S in Ho.
      * intros q Hq. apply (occurs_at_S pat c) in Hq. apply Hmin in Hq. lia.
Qed.

Lemma indexOf_from_none pat : forall s i,
  ~ occurs_in pat s -> indexOf_from pat s i = (-1)%Z.
Proof.
  induction s as [|c s IH]; intros i H.
  - simpl. destruct (starts_with pat []) eqn:E; [|reflexivity].
    exfalso. apply H. exists 0%nat. now apply occurs_at_0.
  - simpl indexOf_from. destruct (starts_with pat (c :: s)) eqn:E.
    + exfalso. apply H. exists 0%nat. now apply occurs_at_0.
    + apply IH. intros [q Hq]. apply H. exists (S q). now apply occurs_at_S.
Qed.

Lemma occurs_at_length pat s p :
  occurs_at pat s p -> (p + length pat <= length s)%nat.
Proof.
  intros (before & after & -> & <-). rewrite !length_app. lia.
Qed.

Lemma nonSpaceCount_le s : (nonSpaceCount s <= length s)%nat.
Proof. unfold nonSpaceCount. apply filter_length_le. Qed.

Lemma remap_empty oldText newText oldIndex :
  oldText = [] \/ newText = [] -> remapIndexAfterEdit oldText newText oldIndex = 0%Z.
Proof.
  unfold remapIndexAfterEdit. intros [-> | ->]; [reflexivity|].
  destruct oldText; reflexivity.
Qed.

(** C9.  On an unchanged text the index is returned, clamped to the
    indices of the text (to 0 when the text is empty). *)
Theorem remap_unchanged (txt : jsstring) (i : Z) :
  remapIndexAfterEdit txt txt i = clamp i 0 (Z.max 0 (len txt - 1)).
Proof.
  unfold remapIndexAfterEdit. destruct txt as [|c t].
  - simpl. unfold clamp, len. simpl. lia.
  - simpl is_empty. simpl orb. cbv iota.
    now rewrite (proj2 (str_eqb_eq (c :: t) (c :: t)) eq_refl).
Qed.

(** C5.  When the text has changed, and the anchor has at least 8
    characters that are not whitespace and occurs in the new text, the
    result is the first position of the anchor in the new text plus the
    distance of the index from the start of the window, clamped to the
    indices of the new text. *)
Theorem remap_anchor_found (oldText newText : jsstring) (oldIndex : Z) (p : nat) :
  oldText <> newText ->
  (8 <= nonSpaceCount (anchor_of oldText oldIndex))%nat ->
  first_occurrence (anchor_of oldText oldIndex) newText p ->
  remapIndexAfterEdit oldText newText oldIndex
  = clamp (Z.of_nat p + (oldIndex - anchorWindowStart oldText oldIndex))
          0 (len newText - 1).
Proof.
  intros Hneq Hcount Hfirst.
  pose proof (nonSpaceCount_le (anchor_of oldText oldIndex)) as Hlen.
  pose proof (occurs_at_length _ _ _ (proj1 Hfirst)) as Hocc.
  assert (Hnew : newText <> []) by (intros ->; simpl in Hocc; lia).
  assert (Hold : oldText <> []).
  { intros ->. unfold anchor_of, slice in Hcount.
    rewrite skipn_nil, firstn_nil in Hcount. vm_compute in Hcount. lia. }
  unfold remapIndexAfterEdit.
  destruct oldText as [|a o]; [congruence|]. destruct newText as [|b n]; [congruence|].
  simpl is_empty. simpl orb. cbv iota.
  rewrite (str_eqb_neq _ _ Hneq). cbv zeta.
  fold (anchorWindowStart (a :: o) oldIndex) (anchorWindowEnd (a :: o) oldIndex).
  fold (anchor_of (a :: o) oldIndex).
  assert (E8 : (8 <=? len (anchor_of (a :: o) oldIndex))%Z = true)
    by (apply Z.leb_le; unfold len; lia).
  rewrite E8. unfold indexOf. rewrite (indexOf_from_first _ _ _ _ Hfirst).
  assert (E0 : (0 <=? 0 + Z.of_nat p)%Z = true) by (apply Z.leb_le; lia).
  rewrite E0. f_equal; unfold len; simpl length; lia.
Qed.

Lemma remap_anchor_found_witness :
  lit "The quick brown fox jumps" <> lit "Well, The quick brown fox jumps"
  /\ remapIndexAfterEdit (lit "The quick brown fox jumps")
       (lit "Well, The quick brown fox jumps") 10
     = 16%Z.
Proof.
  split; [discriminate|].
  rewrite (remap_anchor_found _ _ 10 6).
  - vm_compute. reflexivity.
  - discriminate.
  - vm_compute. lia.
  - split.
    + exists (lit "Well, "), []. split; vm_compute; reflexivity.
    + intros q (before & after & E & L).
      assert (Hq : (q < 6)%nat -> False).
      { intros Hlt. subst q.
        do 6 (destruct before as [|? before]; [vm_compute in E; discriminate E|]).
        simpl in Hlt. lia. }
      lia.
Defined.

(** C6, as amended.  When both texts are not empty and differ, and the
    anchor is shorter than 8 characters, the whitespace inside it counted,
    or does not occur in the new text, the result is the index shifted by
    the difference of the lengths, clamped to the indices of the new
    text. *)
Theorem remap_shifted (oldText newText : jsstring) (oldIndex : Z) :
  oldText <> [] -> newText <> [] -> oldText <> newText ->
  (length (anchor_of oldText oldIndex) < 8)%nat
  \/ ~ occurs_in (anchor_of oldText oldIndex) newText ->
  remapIndexAfterEdit oldText newText oldIndex
  = clamp (oldIndex + (len newText - len oldText)) 0 (len newText - 1).
Proof.
  intros Hold Hnew Hneq H. unfold remapIndexAfterEdit.
  destruct oldText as [|a o]; [congruence|]. destruct newText as [|b n]; [congruence|].
  simpl is_empty. simpl orb. cbv iota.
  rewrite (str_eqb_neq _ _ Hneq). cbv zeta.
  fold (anchorWindowStart (a :: o) oldIndex) (anchorWindowEnd (a :: o) oldIndex).
  fold (anchor_of (a :: o) oldIndex).
  assert (M : Z.max 0 (len (b :: n) - 1) = (len (b :: n) - 1)%Z)
    by (unfold len; simpl length; lia).
  rewrite M.
  destruct (8 <=? len (anchor_of (a :: o) oldIndex))%Z eqn:E8; [|reflexivity].
  destruct H as [H|H]; [apply Z.leb_le in E8; unfold len in E8; lia|].
  unfold indexOf. rewrite (indexOf_from_none _ _ _ H). reflexivity.
Qed.

Lemma remap_shifted_witness :
  remapIndexAfterEdit (lit "abc def") (lit "xy abc def") 4 = 7%Z.
Proof.
  rewrite remap_shifted.
  - vm_compute. reflexivity.
  - discriminate.
  - discriminate.
  - discriminate.
  - left. vm_compute. lia.
Defined.

(** C6 fails as stated: the anchor "ab cd ef g" has 7 characters that are
    not whitespace, but it is 10 characters long and is found. *)
Lemma remap_shifted_fails :
  lit "ab cd ef g" <> lit "ab cd ef g yyyyyy"
  /\ (nonSpaceCount (anchor_of (lit "ab cd ef g") 0) < 8)%nat
  /\ remapIndexAfterEdit (lit "ab cd ef g") (lit "ab cd ef g yyyyyy") 0
     <> clamp (0 + (len (lit "ab cd ef g yyyyyy") - len (lit "ab cd ef g")))
              0 (len (lit "ab cd ef g yyyyyy") - 1).
Proof.
  split; [discriminate|]. split; [vm_compute; lia | vm_compute; discriminate].
Qed.

End ReconcilerProofs.

(** ** The reading history *)

Module HistoryProofs.
Import JS History.

Lemma trim_nil_inv t : trim t <> [] -> t <> [].
Proof. intros H ->. now apply H. Qed.

(** [text.slice(0, n)] keeps the first [n] characters. *)
Lemma slice_0 (t : jsstring) (n : Z) :
  (0 <= n)%Z -> slice t 0 n = firstn (Z.to_nat n) t.
Proof.
  intros Hn. unfold slice, slice_index.
  assert (E : (n <? 0)%Z = false) by (apply Z.ltb_ge; lia).
  rewrite E. change (0 <? 0)%Z with false. cbv iota.
  assert (E0 : Z.min 0 (Z.of_nat (length t)) = 0%Z) by lia.
  rewrite E0, Z.sub_0_r. change (Z.to_nat 0) with 0%nat. simpl skipn.
  destruct (Z.le_ge_cases n (Z.of_nat (length t))) as [L|L].
  - now rewrite Z.min_l by lia.
  - rewrite Z.min_r by lia. rewrite Nat2Z.id, firstn_all.
    symmetry. apply firstn_all2. lia.
Qed.

Lemma clipped_length (t : jsstring) :
  t <> [] ->
  (1 <= Reconciler.len (slice t 0 MAX_TEXT_LENGTH) <= MAX_TEXT_LENGTH)%Z.
Proof.
  intros Hne. unfold MAX_TEXT_LENGTH. rewrite slice_0 by lia.
  unfold Reconciler.len. rewrite length_firstn.
  destruct t; [congruence|]. simpl length. lia.
Qed.

Lemma in_map_filter (f : ReadingHistoryEntry -> bool) h x :
  In x (map id (filter f h)) -> In x (map id h).
Proof.
  intros H. apply in_map_iff in H. destruct H as (e & <- & He).
  apply filter_In in He. apply in_map. tauto.
Qed.

Lemma distinct_filter (f : ReadingHistoryEntry -> bool) h :
  distinct_ids h -> distinct_ids (filter f h).
Proof.
  unfold distinct_ids. induction h as [|e h IH]; simpl; intros H; [constructor|].
  inversion H as [|? ? Hn Hd]; subst. destruct (f e); simpl.
  - constructor; [|now apply IH]. intros F. apply Hn. eapply in_map_filter, F.
  - now apply IH.
Qed.

Lemma distinct_firstn n : forall h, distinct_ids h -> distinct_ids (firstn n h).
Proof.
  unfold distinct_ids. induction n as [|n IH]; intros h H; simpl; [constructor|].
  destruct h as [|e h]; simpl; [constructor|].
  inversion H as [|? ? Hn Hd]; subst. constructor; [|now apply IH].
  intros F. apply Hn. rewrite <- (firstn_skipn n h), map_app.
  apply in_or_app. now left.
Qed.

Lemma not_in_others (i : jsstring) h :
  ~ In i (map id (filter (fun entry => negb (str_eqb (id entry) i)) h)).
Proof.
  intros F. apply in_map_iff in F. destruct F as (e & E & He).
  apply filter_In in He. destruct He as [_ He].
  apply negb_true_iff in He. unfold str_eqb in He.
  rewrite (proj2 (ReconcilerProofs.str_eqb_eq _ _) E) in He. discriminate.
Qed.

Lemma save_preserves r d t i now h :
  distinct_ids h -> distinct_ids (saveHistoryEntry r d t i now h).
Proof.
  intros H. unfold saveHistoryEntry.
  destruct (Reconciler.is_empty (trim t)); [exact H|].
  apply distinct_firstn. unfold distinct_ids. simpl map. constructor.
  - apply not_in_others.
  - apply distinct_filter, H.
Qed.

Lemma stored_history_distinct h : stored_history h -> distinct_ids h.
Proof.
  induction 1 as [|h c _ IH]; [constructor|].
  destruct c; simpl; [now apply save_preserves | now apply distinct_filter].
Qed.

(** C10.  After [saveHistoryEntry] is called with a text that is not
    blank, the history holds at most [MAX_ENTRIES] (12) entries, their ids
    are pairwise distinct, and the entry saved comes first: no other entry
    has its id, its text is the text cut to at most 180000 characters, and
    its index is an index of that text. *)
Theorem save_history_invariant (h : list ReadingHistoryEntry)
    (r : ReaderType) (d t : jsstring) (i : Z) (now : jsstring) :
  stored_history h -> trim t <> [] ->
  (length (saveHistoryEntry r d t i now h) <= MAX_ENTRIES)%nat
  /\ NoDup (map id (saveHistoryEntry r d t i now h))
  /\ exists e others,
       saveHistoryEntry r d t i now h = e :: others
       /\ ~ In (id e) (map id others)
       /\ text e = slice t 0 MAX_TEXT_LENGTH
       /\ (Reconciler.len (text e) <= MAX_TEXT_LENGTH)%Z
       /\ (0 <= currentIndex e <= Reconciler.len (text e) - 1)%Z.
Proof.
  intros Hh Ht.
  pose proof (save_preserves r d t i now h (stored_history_distinct h Hh)) as Hd.
  split; [|split; [exact Hd|]].
  - unfold saveHistoryEntry. destruct (Reconciler.is_empty (trim t)) eqn:E.
    + destruct (trim t); [congruence | discriminate E].
    + apply firstn_le_length.
  - unfold saveHistoryEntry in *.
    destruct (Reconciler.is_empty (trim t)) eqn:E;
      [destruct (trim t); [congruence | discriminate E]|].
    pose proof (clipped_length t (trim_nil_inv t Ht)) as Hc.
    unfold MAX_ENTRIES in *. simpl firstn in *.
    eexists. eexists. split; [reflexivity|].
    inversion Hd as [|? ? Hn _]; subst.
    split; [exact Hn|]. simpl. split; [reflexivity|]. split; lia.
Qed.

Lemma save_history_invariant_witness :
  (length (saveHistoryEntry pdf (lit "notes.pdf") (lit "Bonjour. Encore.") 40
             (lit "t1")
             (saveHistoryEntry pdf (lit "notes.pdf") (lit "Bonjour.") 3 (lit "t0") []))
   <= MAX_ENTRIES)%nat.
Proof.
  refine (proj1 (save_history_invariant
                   (saveHistoryEntry pdf (lit "notes.pdf") (lit "Bonjour.") 3 (lit "t0") [])
                   pdf (lit "notes.pdf")
                   (lit "Bonjour. Encore.") 40 (lit "t1") _ _)).
  - exact (history_call [] (Save pdf (lit "notes.pdf") (lit "Bonjour.") 3 (lit "t0"))
             history_empty).
  - vm_compute. discriminate.
Defined.

End HistoryProofs.

(** ** The playback driver: the order of the reported indices *)

Module PlaybackProgress.
Import JS Chunker Playback PlaybackProperties.
Local Open Scope m_scope.

Lemma bind_state {A B} (c : M A) (k : A -> M B) s :
  state_of (bind c k s) = state_of (k (fst (fst (c s))) (state_of (c s))).
Proof.
  unfold bind, state_of. destruct (c s) as [[a s1] o1]. simpl.
  now destruct (k a s1) as [[b s2] o2].
Qed.

Lemma bind_actions {A B} (c : M A) (k : A -> M B) s :
  actions_of (bind c k s)
  = actions_of (c s) ++ actions_of (k (fst (fst (c s))) (state_of (c s))).
Proof.
  unfold bind, actions_of, state_of. destruct (c s) as [[a s1] o1]. simpl.
  now destruct (k a s1) as [[b s2] o2].
Qed.

Lemma boundaries_app l1 l2 : boundaries (l1 ++ l2) = boundaries l1 ++ boundaries l2.
Proof.
  induction l1 as [|a l1 IH]; [reflexivity|].
  destruct a; simpl; now rewrite ?IH.
Qed.

Lemma nondecreasing_app lo l1 mid l2 hi :
  nondecreasing lo l1 mid -> nondecreasing mid l2 hi -> nondecreasing lo (l1 ++ l2) hi.
Proof.
  revert lo; induction l1 as [|x l1 IH]; simpl; intros lo H1 H2.
  - destruct l2; simpl in *; [lia | split; [lia | tauto]].
  - split; [tauto|]. apply IH; tauto.
Qed.

Lemma nondecreasing_lower lo l hi :
  nondecreasing lo l hi -> Forall (fun x => (lo <= x)%Z) l.
Proof.
  revert lo; induction l as [|x l IH]; simpl; intros lo H; [constructor|].
  destruct H as [H1 H2]. constructor; [exact H1|].
  apply IH in H2. eapply Forall_impl; [|exact H2]. simpl. intros; lia.
Qed.

Lemma nondecreasing_sorted lo l hi :
  nondecreasing lo l hi -> Sorted.StronglySorted Z.le l.
Proof.
  revert lo; induction l as [|x l IH]; simpl; intros lo H; [constructor|].
  destruct H as [H1 H2]. constructor; [apply (IH _ H2)|].
  now apply nondecreasing_lower in H2.
Qed.

Lemma keeps_ret {A} (a : A) : keeps_order (ret a).
Proof. intros s. unfold ret, actions_of, state_of. simpl. lia. Qed.

Lemma keeps_get : keeps_order get.
Proof. intros s. unfold get, actions_of, state_of. simpl. lia. Qed.

Lemma keeps_modify f :
  (forall s, lastCharIndexRef (f s) = lastCharIndexRef s) -> keeps_order (modify f).
Proof. intros H s. unfold modify, actions_of, state_of. simpl. rewrite H. lia. Qed.

Lemma keeps_emit a : boundaries [a] = [] -> keeps_order (emit a).
Proof.
  intros H s. unfold emit, actions_of, state_of. simpl snd. rewrite H. simpl. lia.
Qed.

Lemma keeps_call cb a : (forall f, boundaries [a f] = []) -> keeps_order (call cb a).
Proof. intros H. destruct cb; simpl; [apply keeps_emit, H | apply keeps_ret]. Qed.

Lemma keeps_bind {A B} (c : M A) (k : A -> M B) :
  keeps_order c -> (forall a, keeps_order (k a)) -> keeps_order (bind c k).
Proof.
  intros Hc Hk s. rewrite bind_state, bind_actions, boundaries_app.
  eapply nondecreasing_app; [apply Hc | apply Hk].
Qed.

Lemma keeps_update_utterance id f : keeps_order (update_utterance id f).
Proof.
  apply keeps_modify. intros s. now destruct (nth_error (utterances s) id).
Qed.

(** [emitProgress] reports the absolute index when it is not below the
    last one reported, and nothing otherwise. *)
Lemma emitProgress_spec nxt base relativeIndex s :
  let absoluteIndex :=
    (start nxt + Z.max 0 (Z.min relativeIndex (Z.max 0 (len (text nxt) - 1))))%Z in
  if (absoluteIndex <? lastCharIndexRef s)%Z
  then emitProgress nxt base relativeIndex s = (tt, s, [])
  else state_of (emitProgress nxt base relativeIndex s)
       = set_lastCharIndexRef absoluteIndex s
       /\ actions_of (emitProgress nxt base relativeIndex s)
          = match onBoundary base with
            | Some f => [CallOnBoundary f absoluteIndex]
            | None => []
            end.
Proof.
  intros abs. unfold emitProgress, bind, get. fold abs.
  destruct (abs <? lastCharIndexRef s)%Z; [reflexivity|].
  unfold modify, call. destruct (onBoundary base); simpl; split; reflexivity.
Qed.

Lemma keeps_emitProgress nxt base relativeIndex :
  keeps_order (emitProgress nxt base relativeIndex).
Proof.
  intros s. pose proof (emitProgress_spec nxt base relativeIndex s) as H.
  cbv zeta in H.
  destruct (_ <? lastCharIndexRef s)%Z eqn:E.
  - rewrite H. unfold actions_of, state_of. simpl. lia.
  - destruct H as [-> ->]. apply Z.ltb_ge in E.
    destruct (onBoundary base); simpl; lia.
Qed.

Ltac keeps :=
  repeat first
    [ apply keeps_ret
    | apply keeps_get
    | apply keeps_emitProgress
    | apply keeps_update_utterance
    | apply keeps_modify; intro; reflexivity
    | apply keeps_emit; reflexivity
    | apply keeps_call; intro; reflexivity
    | apply keeps_bind; [|intro]
    | match goal with
      | |- keeps_order (match ?x with _ => _ end) => destruct x
      end ].

Lemma keeps_playQueue base : keeps_order (playQueue base).
Proof. unfold playQueue. keeps. Qed.

Lemma keeps_startQueue txt base off : keeps_order (startQueue txt base off).
Proof. unfold startQueue. keeps. Qed.

Lemma keeps_handle e : in_session e = true -> keeps_order (handle e).
Proof.
  destruct e; simpl; try discriminate; intros _.
  - unfold pause. keeps.
  - unfold resume. keeps. apply keeps_startQueue.
  - unfold syncState. keeps.
  - unfold ontimer, with_utterance. keeps.
  - unfold onstart, with_utterance, clearProgressTimer. keeps.
  - unfold onpause, with_utterance. keeps.
  - unfold onresume, with_utterance. keeps.
  - unfold onboundary, with_utterance. keeps.
  - unfold onend, with_utterance, clearProgressTimer. keeps.
  - unfold onerror, with_utterance, clearProgressTimer. keeps.
Qed.

Lemma keeps_run evs :
  Forall (fun e => in_session e = true) evs -> keeps_order (run evs).
Proof.
  induction 1 as [|e evs He _ IH]; simpl; [apply keeps_ret|].
  apply keeps_bind; [now apply keeps_handle | intros _; exact IH].
Qed.

(** C3.  From any state of the hook, so from the state a [speak()] call
    leaves, and for any events that follow up to the next [speak()] or
    [stop()], the indices handed to [onBoundary] are in non-decreasing
    order and not below the last index reported before; each comes from
    [emitProgress], which clamps the relative offset to
    [[0, chunk.text.length - 1]], adds [chunk.start], and reports the sum
    when it is not below the last index reported, and else drops it without
    any effect. *)
Theorem onBoundary_nondecreasing (s : State) (evs : list Event) :
  Forall (fun e => in_session e = true) evs ->
  Sorted.StronglySorted Z.le (boundaries (actions_of (run evs s)))
  /\ Forall (fun i => (lastCharIndexRef s <= i)%Z) (boundaries (actions_of (run evs s)))
  /\ forall nxt base relativeIndex s0,
       let absoluteIndex :=
         (start nxt
          + clamp relativeIndex 0 (Z.max 0 (len (text nxt) - 1)))%Z in
       if (absoluteIndex <? lastCharIndexRef s0)%Z
       then emitProgress nxt base relativeIndex s0 = (tt, s0, [])
       else lastCharIndexRef (state_of (emitProgress nxt base relativeIndex s0))
            = absoluteIndex
            /\ boundaries (actions_of (emitProgress nxt base relativeIndex s0))
               = match onBoundary base with
                 | Some _ => [absoluteIndex]
                 | None => []
                 end.
Proof.
  intros H. pose proof (keeps_run evs H s) as K.
  split; [eapply nondecreasing_sorted, K|].
  split; [eapply nondecreasing_lower, K|].
  intros nxt base rel s0 abs.
  pose proof (emitProgress_spec nxt base rel s0) as E. cbv zeta in E.
  assert (Eabs : abs = (start nxt + Z.max 0 (Z.min rel (Z.max 0 (len (text nxt) - 1))))%Z)
    by (unfold abs, clamp; lia).
  rewrite <- Eabs in E.
  destruct (abs <? lastCharIndexRef s0)%Z; [exact E|].
  destruct E as [-> ->]. split; [reflexivity|].
  now destruct (onBoundary base).
Qed.

Lemma onBoundary_nondecreasing_witness :
  Sorted.StronglySorted Z.le
    (boundaries (actions_of
       (run [UStart 0 1000; UBoundary 0 1100 1; UBoundary 0 1150 0;
             Timer (mkSynth true false) 1700 7; UEnd 0; UStart 1 2000; UEnd 1]
            (state_of (speak options_a (initial true)))))).
Proof.
  refine (proj1 (onBoundary_nondecreasing
                   (state_of (speak options_a (initial true)))
                   [UStart 0 1000; UBoundary 0 1100 1; UBoundary 0 1150 0;
                    Timer (mkSynth true false) 1700 7; UEnd 0; UStart 1 2000; UEnd 1]
                   _)).
  repeat constructor.
Defined.

Lemma onBoundary_scenario :
  boundaries (actions_of (run [UStart 0 1000; UBoundary 0 1100 1; UBoundary 0 1150 0;
                               Timer (mkSynth true false) 1700 7; UEnd 0;
                               UStart 1 2000; UEnd 1]
                              (state_of (speak options_a (initial true)))))
  = [0; 1; 2; 2; 4; 8]%Z.
Proof. vm_compute. reflexivity. Qed.

End PlaybackProgress.

(** ** The playback driver: the queue, errors and events of old sessions *)

Module PlaybackQueue.
Import JS Chunker Playback PlaybackProperties PlaybackProgress.
Local Open Scope m_scope.

Lemma bind_get {B} (k : State -> M B) s : bind get k s = k s s.
Proof. unfold bind, get. now destruct (k s s) as [[b s2] o2]. Qed.

Lemma bind_modify {B} f (k : unit -> M B) s : bind (modify f) k s = k tt (f s).
Proof. unfold bind, modify. now destruct (k tt (f s)) as [[b s2] o2]. Qed.

Lemma bind_ret {A B} (a : A) (k : A -> M B) s : bind (ret a) k s = k a s.
Proof. unfold bind, ret. now destruct (k a s) as [[b s2] o2]. Qed.

Lemma with_utterance_some id k s u :
  nth_error (utterances s) id = Some u -> with_utterance id k s = k u s.
Proof. intros H. unfold with_utterance. now rewrite bind_get, H. Qed.

Lemma playQueue_cons base s c rest :
  queueRef s = c :: rest ->
  playQueue base s
  = (tt,
     set_activeUtteranceRef (Some (length (utterances s)))
       (set_utterances (utterances s ++ [utterance_for c base]) (set_queueRef rest s)),
     [SynthSpeak (length (utterances s)) (utterance_for c base)]).
Proof.
  intros H. unfold playQueue. rewrite bind_get, H. now rewrite !bind_modify.
Qed.

Lemma playQueue_nil base s :
  queueRef s = [] ->
  playQueue base s
  = (tt,
     set_isPaused false (set_isSpeaking false (set_activeUtteranceRef None s)),
     match onEnd base with Some f => [CallOnEnd f] | None => [] end).
Proof.
  intros H. unfold playQueue. rewrite bind_get, H. rewrite !bind_modify.
  now destruct (onEnd base).
Qed.

Lemma onerror_playQueue id s u :
  nth_error (utterances s) id = Some u ->
  onerror id s = playQueue (baseOptions u) (set_progressTimerRef None s).
Proof.
  intros H. unfold onerror. rewrite (with_utterance_some _ _ _ _ H).
  unfold clearProgressTimer. now rewrite bind_modify.
Qed.

(** What [onend] does after [emitProgress]. *)
Lemma onend_playQueue id s u :
  nth_error (utterances s) id = Some u ->
  let e := emitProgress (next u) (baseOptions u) (len (text (next u)) - 1) s in
  state_of (onend id s)
  = state_of (playQueue (baseOptions u) (set_progressTimerRef None (state_of e)))
  /\ actions_of (onend id s)
     = actions_of e
       ++ actions_of (playQueue (baseOptions u) (set_progressTimerRef None (state_of e))).
Proof.
  intros H e. unfold onend. rewrite (with_utterance_some _ _ _ _ H).
  rewrite bind_state, bind_actions. fold e.
  unfold clearProgressTimer. now rewrite bind_modify.
Qed.

Lemma submitted_app l1 l2 : submitted (l1 ++ l2) = submitted l1 ++ submitted l2.
Proof.
  induction l1 as [|a l1 IH]; [reflexivity|].
  destruct a; simpl; now rewrite ?IH.
Qed.

(** [emitProgress] leaves everything but [lastCharIndexRef] as it is and
    submits nothing. *)
Lemma emitProgress_frame nxt base rel s :
  exists x,
    state_of (emitProgress nxt base rel s) = set_lastCharIndexRef x s
    /\ submitted (actions_of (emitProgress nxt base rel s)) = [].
Proof.
  pose proof (emitProgress_spec nxt base rel s) as H. cbv zeta in H.
  destruct (_ <? lastCharIndexRef s)%Z.
  - exists (lastCharIndexRef s). rewrite H. split; [|reflexivity].
    unfold state_of. simpl. now destruct s.
  - destruct H as [H1 H2]. eexists. split; [exact H1|]. rewrite H2.
    now destruct (onBoundary base).
Qed.

Lemma fail_active_cons s id u c rest :
  activeUtteranceRef s = Some id ->
  nth_error (utterances s) id = Some u ->
  queueRef s = c :: rest ->
  fail_active s
  = (tt,
     set_activeUtteranceRef (Some (length (utterances s)))
       (set_utterances (utterances s ++ [utterance_for c (baseOptions u)])
          (set_queueRef rest (set_progressTimerRef None s))),
     [SynthSpeak (length (utterances s)) (utterance_for c (baseOptions u))]).
Proof.
  intros Ha Hu Hq. unfold fail_active. rewrite bind_get, Ha.
  rewrite (onerror_playQueue _ _ _ Hu).
  now rewrite (playQueue_cons _ _ c rest).
Qed.

(** However many chunks fail, the rest of the queue is played in order. *)
Lemma fail_each_drains q : forall s id u,
  queueRef s = q ->
  activeUtteranceRef s = Some id ->
  nth_error (utterances s) id = Some u ->
  submitted (actions_of (fail_each (length q) s)) = q
  /\ queueRef (state_of (fail_each (length q) s)) = [].
Proof.
  induction q as [|c rest IH]; intros s id u Hq Ha Hu.
  - simpl. now split.
  - simpl fail_each. rewrite bind_state, bind_actions, submitted_app.
    rewrite (fail_active_cons _ _ _ _ _ Ha Hu Hq).
    set (s1 := set_activeUtteranceRef _ _).
    change (state_of (tt, s1, [SynthSpeak (length (utterances s))
                                 (utterance_for c (baseOptions u))])) with s1.
    destruct (IH s1 (length (utterances s)) (utterance_for c (baseOptions u)))
      as [I1 I2].
    + reflexivity.
    + reflexivity.
    + subst s1. simpl. rewrite nth_error_app2 by lia. now rewrite Nat.sub_diag.
    + rewrite I1, I2. now split.
Qed.

(** C8.  An error on the utterance [id] advances the queue as its
    completion does: the two leave the same queue, utterances, active
    utterance, timer and flags, and submit the same chunk.  When a chunk
    is waiting it is taken from the queue and submitted with the options of
    the session, and nothing else happens: no callback of the caller is
    called.  So when errors keep coming, on every utterance in turn, all
    the chunks of the queue are still submitted, in order. *)
Theorem error_advances_like_completion (s : State) (id : nat) (u : Utterance) :
  nth_error (utterances s) id = Some u ->
  (queueRef (state_of (onerror id s)) = queueRef (state_of (onend id s))
   /\ utterances (state_of (onerror id s)) = utterances (state_of (onend id s))
   /\ activeUtteranceRef (state_of (onerror id s))
      = activeUtteranceRef (state_of (onend id s))
   /\ progressTimerRef (state_of (onerror id s))
      = progressTimerRef (state_of (onend id s))
   /\ isSpeaking (state_of (onerror id s)) = isSpeaking (state_of (onend id s))
   /\ isPaused (state_of (onerror id s)) = isPaused (state_of (onend id s))
   /\ submitted (actions_of (onerror id s)) = submitted (actions_of (onend id s)))
  /\ (forall c rest, queueRef s = c :: rest ->
        queueRef (state_of (onerror id s)) = rest
        /\ actions_of (onerror id s)
           = [SynthSpeak (length (utterances s)) (utterance_for c (baseOptions u))])
  /\ (activeUtteranceRef s = Some id ->
        submitted (actions_of (fail_each (length (queueRef s)) s)) = queueRef s
        /\ queueRef (state_of (fail_each (length (queueRef s)) s)) = []).
Proof.
  intros Hu. split; [|split].
  - destruct (onend_playQueue id s u Hu) as [Es Ea]. cbv zeta in Es, Ea.
    rewrite Es, Ea, submitted_app, (onerror_playQueue _ _ _ Hu).
    destruct (emitProgress_frame (next u) (baseOptions u) (len (text (next u)) - 1) s)
      as (x & -> & ->).
    destruct (queueRef s) as [|c rest] eqn:Eq.
    + rewrite !playQueue_nil by (simpl; exact Eq). simpl. tauto.
    + rewrite (playQueue_cons _ (set_progressTimerRef None s) c rest)
        by (simpl; exact Eq).
      rewrite (playQueue_cons _ (set_progressTimerRef None (set_lastCharIndexRef x s)) c rest)
        by (simpl; exact Eq).
      simpl. tauto.
  - intros c rest Eq. rewrite (onerror_playQueue _ _ _ Hu).
    rewrite (playQueue_cons _ _ c rest) by (simpl; exact Eq). now split.
  - intros Ha. now apply (fail_each_drains (queueRef s) s id u).
Qed.

Lemma error_advances_like_completion_witness :
  submitted (actions_of (onerror 0 (state_of (speak options_a (initial true)))))
  = submitted (actions_of (onend 0 (state_of (speak options_a (initial true)))))
  /\ submitted (actions_of
        (fail_each (length (queueRef (state_of (speak options_a (initial true)))))
                   (state_of (speak options_a (initial true)))))
     = queueRef (state_of (speak options_a (initial true))).
Proof.
  set (s := state_of (speak options_a (initial true))).
  assert (Hu : nth_error (utterances s) 0
               = Some (utterance_for (mkChunk (lit "Un.") 0) (so_base options_a)))
    by (vm_compute; reflexivity).
  destruct (error_advances_like_completion s 0 _ Hu) as (H1 & _ & H3).
  split; [apply H1 | apply H3; vm_compute; reflexivity].
Defined.

End PlaybackQueue.

(** ** The playback driver: events after the end of a session *)

Module PlaybackStale.
Import JS Chunker Playback PlaybackProperties PlaybackProgress PlaybackQueue.
Local Open Scope m_scope.

Lemma quiet_ret {A} (a : A) s : quiet_at s (ret a).
Proof. intros H. now split. Qed.

Lemma quiet_bind {A B} (c : M A) (k : A -> M B) s :
  quiet_at s c -> (forall a, quiet_at (state_of (c s)) (k a)) -> quiet_at s (bind c k).
Proof.
  intros Hc Hk Hi. destruct (Hc Hi) as [H1 H2].
  destruct (Hk (fst (fst (c s))) H1) as [H3 H4].
  rewrite bind_state, bind_actions, submitted_app, H2, H4. now split.
Qed.

Lemma quiet_get_bind {B} (k : State -> M B) s :
  (idle s -> quiet_at s (k s)) -> quiet_at s (bind get k).
Proof. intros H Hi. rewrite bind_get. now apply H. Qed.

Lemma quiet_modify f s : (idle s -> idle (f s)) -> quiet_at s (modify f).
Proof. intros H Hi. split; [now apply H | reflexivity]. Qed.

Lemma quiet_emit a s : submitted [a] = [] -> quiet_at s (emit a).
Proof. intros H Hi. split; [exact Hi | exact H]. Qed.

Lemma quiet_call cb a s : (forall f, submitted [a f] = []) -> quiet_at s (call cb a).
Proof. intros H. destruct cb; simpl; [apply quiet_emit, H | apply quiet_ret]. Qed.

Lemma quiet_update_utterance id f s : quiet_at s (update_utterance id f).
Proof.
  apply quiet_modify. intros Hi. now destruct (nth_error (utterances s) id).
Qed.

Lemma quiet_emitProgress nxt base rel s : quiet_at s (emitProgress nxt base rel).
Proof.
  intros Hi. destruct (emitProgress_frame nxt base rel s) as (x & -> & ->).
  now split.
Qed.

Lemma quiet_playQueue base s : quiet_at s (playQueue base).
Proof.
  intros Hi. rewrite playQueue_nil by apply Hi.
  split; [exact Hi | now destruct (onEnd base)].
Qed.

Ltac quiet :=
  repeat first
    [ apply quiet_ret
    | apply quiet_emitProgress
    | apply quiet_update_utterance
    | apply quiet_playQueue
    | apply quiet_modify; intros [? ?]; split; first [assumption | reflexivity]
    | apply quiet_emit; reflexivity
    | apply quiet_call; intro; reflexivity
    | apply quiet_get_bind; intros [? ?]
    | apply quiet_bind; [|intro]
    | match goal with
      | H : lastSpeakOptionsRef ?s = None |- context [lastSpeakOptionsRef ?s] =>
          rewrite H
      | |- quiet_at _ (match ?x with _ => _ end) => destruct x
      end ].

Lemma quiet_handle e s : not_speak e = true -> quiet_at s (handle e).
Proof.
  destruct e; simpl; try discriminate; intros _.
  - unfold stop, clearProgressTimer. quiet.
  - unfold pause. quiet.
  - unfold resume. quiet.
  - unfold syncState. quiet.
  - unfold ontimer, with_utterance. quiet.
  - unfold onstart, with_utterance, clearProgressTimer. quiet.
  - unfold onpause, with_utterance. quiet.
  - unfold onresume, with_utterance. quiet.
  - unfold onboundary, with_utterance. quiet.
  - unfold onend, with_utterance, clearProgressTimer. quiet.
  - unfold onerror, with_utterance, clearProgressTimer. quiet.
Qed.

Lemma quiet_run evs : forall s,
  Forall (fun e => not_speak e = true) evs -> quiet_at s (run evs).
Proof.
  induction evs as [|e evs IH]; intros s H; simpl; [apply quiet_ret|].
  inversion H; subst.
  apply quiet_bind; [now apply quiet_handle | intros _; now apply IH].
Qed.

Lemma stop_idle s : isSupported s = true -> idle (state_of (stop s)).
Proof.
  intros H. unfold idle, state_of, stop, bind, get. rewrite H. simpl. now split.
Qed.

(** C4, as amended.  [stop()] empties the queue and forgets the options
    of the session, and until the next [speak()] no event makes the driver
    submit a chunk to the backend: not the events of the utterances of the
    old session, not the timer, not [pause()] or [resume()].  (There is no
    guard that tells the session of an event: the handler of an old
    utterance runs when the backend still delivers its event.) *)
Theorem after_stop_nothing_submitted (s : State) (evs : list Event) :
  isSupported s = true ->
  Forall (fun e => not_speak e = true) evs ->
  submitted (actions_of (run evs (state_of (stop s)))) = []
  /\ queueRef (state_of (run evs (state_of (stop s)))) = [].
Proof.
  intros Hs He.
  destruct (quiet_run evs (state_of (stop s)) He (stop_idle s Hs)) as [[H1 _] H2].
  now split.
Qed.

Lemma after_stop_nothing_submitted_witness :
  submitted (actions_of
    (run [UBoundary 0 1100 1; UEnd 0; Resume (mkSynth false false)]
         (state_of (stop (state_of (run [Speak options_a; UStart 0 1000]
                                        (initial true))))))) = [].
Proof.
  refine (proj1 (after_stop_nothing_submitted
                   (state_of (run [Speak options_a; UStart 0 1000] (initial true)))
                   [UBoundary 0 1100 1; UEnd 0; Resume (mkSynth false false)] _ _)).
  - vm_compute. reflexivity.
  - repeat constructor.
Defined.

(** C4 fails as stated.  [speak()] is called for a first text and then
    for a second one; when the backend now reports the end of the first
    utterance, its handler reports index 2 to [onBoundary] of the first call
    and takes the second chunk of the second text from the queue. *)
Lemma stale_end_event_is_handled : ~ stale_events_suppressed.
Proof.
  intros H.
  specialize (H [Speak options_a] (Speak options_b) (UEnd 0) 0%nat).
  cbv zeta in H.
  destruct H as [H _]; [reflexivity | reflexivity | vm_compute; lia |].
  vm_compute in H. discriminate H.
Qed.

(** What happens in that scenario. *)
Lemma stale_end_event_actions :
  actions_of (handle (UEnd 0)
                (state_of (run [Speak options_a; Speak options_b] (initial true))))
  = [CallOnBoundary 1 2;
     SynthSpeak 2 (utterance_for (mkChunk (lit "Quatre.") 7) (so_base options_a))].
Proof. vm_compute. reflexivity. Qed.

End PlaybackStale.

(** ** The chunker: where the chunks lie *)

Module ChunkerSpans.
Import JS Chunker Properties ChunkProperties JSFacts ChunkerBounds ChunkerRejoin.

Lemma spans_le lo cs hi : spans lo cs hi -> (lo <= hi)%Z.
Proof.
  revert lo; induction cs as [|c r IH]; simpl; intros lo H; [exact H|].
  destruct H as (H1 & H2 & H3). apply IH in H3. lia.
Qed.

Lemma spans_weaken lo lo' cs hi hi' :
  spans lo cs hi -> (lo' <= lo)%Z -> (hi <= hi')%Z -> spans lo' cs hi'.
Proof.
  revert lo lo'; induction cs as [|c r IH]; simpl; intros lo lo' H L1 L2; [lia|].
  destruct H as (H1 & H2 & H3). repeat split; try lia.
  eapply IH; [exact H3 | lia | lia].
Qed.

Lemma spans_app lo l1 l2 hi :
  spans lo (l1 ++ l2) hi <-> exists mid, spans lo l1 mid /\ spans mid l2 hi.
Proof.
  revert lo; induction l1 as [|c r IH]; intros lo; simpl.
  - split.
    + intros H. exists lo. split; [lia | exact H].
    + intros (mid & H1 & H2). eapply spans_weaken; [exact H2 | lia | lia].
  - rewrite IH. split.
    + intros (H1 & H2 & mid & H3 & H4). exists mid. tauto.
    + intros (mid & (H1 & H2 & H3) & H4). repeat split; try assumption.
      now exists mid.
Qed.

Lemma spans_snoc lo l c hi :
  spans lo (l ++ [c]) hi
  <-> exists mid, spans lo l mid /\ (mid <= start c)%Z
                  /\ (1 <= Z.of_nat (length (text c)))%Z
                  /\ (start c + Z.of_nat (length (text c)) <= hi)%Z.
Proof.
  rewrite spans_app. simpl. split; intros (mid & H1 & H2); exists mid; tauto.
Qed.

Lemma push_current_mk ch w cs cu :
  is_empty w = false -> push_current (mkSplit ch w cs cu) = ch ++ [mkChunk w cs].
Proof. intros E. unfold push_current. simpl. now rewrite E. Qed.

Lemma split_step_spans off st w :
  split_spans off st -> split_spans off (split_step off st w).
Proof.
  intros (Hc & Hs). unfold split_step.
  destruct w as [|c w']; simpl is_empty; cbv iota; [now split|].
  set (word := c :: w') in *.
  assert (Hlen : (1 <= Z.of_nat (length word))%Z) by (subst word; simpl length; lia).
  destruct (current st) as [|d cur'] eqn:Ecur; simpl is_empty; cbv iota.
  - assert (Hp : push_current st = chunks st)
      by (unfold push_current; rewrite Ecur; reflexivity).
    rewrite Hp in Hs.
    destruct (length word <=? MAX_CHUNK_LENGTH)%nat.
    + unfold split_spans, push_current.
      cbn [cursor current chunks currentStart is_empty].
      split; [lia|]. apply spans_snoc. exists (off + Z.max 0 (cursor st - 1))%Z.
      cbn [text start cursor current chunks currentStart]. repeat split; try assumption; lia.
    + unfold split_spans. unfold push_current at 1.
      cbn [cursor current chunks currentStart is_empty]. rewrite Hp.
      split; [lia|]. apply spans_snoc. exists (off + Z.max 0 (cursor st - 1))%Z.
      cbn [text start cursor current chunks currentStart]. repeat split; try assumption; lia.
  - set (cur := d :: cur') in *.
    assert (Hcl : (1 <= Z.of_nat (length cur))%Z) by (subst cur; simpl length; lia).
    assert (Hp : push_current st = chunks st ++ [mkChunk cur (currentStart st)])
      by (unfold push_current; rewrite Ecur; reflexivity).
    assert (Ee : is_empty (cur ++ [SP] ++ word) = false) by reflexivity.
    assert (Ew : is_empty word = false) by reflexivity.
    clearbody cur word.
    rewrite Hp in Hs. apply spans_snoc in Hs.
    destruct Hs as (mid & H1 & H2 & H3 & H4). cbn [text start] in H2, H3, H4.
    pose proof (spans_le _ _ _ H1) as Hlo.
    destruct (length (cur ++ [SP] ++ word) <=? MAX_CHUNK_LENGTH)%nat.
    + unfold split_spans. rewrite (push_current_mk _ _ _ _ Ee).
      cbn [cursor]. split; [lia|].
      apply spans_snoc. exists mid. cbn [text start cursor current chunks currentStart].
      rewrite !length_app. cbn [length].
      repeat split; try assumption; lia.
    + unfold split_spans. rewrite (push_current_mk _ _ _ _ Ew), Hp.
      cbn [cursor]. split; [lia|]. apply spans_snoc.
      exists (currentStart st + Z.of_nat (length cur))%Z.
      cbn [text start cursor current chunks currentStart].
      repeat split; try lia.
      apply spans_snoc. exists mid. cbn [text start cursor current chunks currentStart].
      repeat split; try assumption; lia.
Qed.

Lemma split_fold_spans off ws : forall st,
  split_spans off st -> split_spans off (fold_left (split_step off) ws st).
Proof.
  induction ws as [|w r IH]; intros st H; simpl; [exact H|].
  apply IH, split_step_spans, H.
Qed.

Lemma splitLongSentence_spans sentence off :
  spans off (splitLongSentence sentence off) (off + Z.of_nat (length sentence)).
Proof.
  unfold splitLongSentence.
  destruct (split_fold_spans off (split_ws sentence) (mkSplit [] [] off 0)) as [Hc Hs].
  { unfold split_spans, push_current. simpl. lia. }
  eapply spans_weaken; [exact Hs | lia |].
  destruct (split_fold_inv off (split_ws sentence) (mkSplit [] [] off 0)) as [_ Hcur].
  - apply split_ws_NoSpace.
  - unfold split_inv, push_current; simpl. repeat split; try lia. constructor.
  - rewrite Hcur. simpl cursor. pose proof (split_ws_cursor_sum sentence). lia.
Qed.

Lemma chunk_loop_spans fuel : forall n i acc,
  (i <= length n)%nat -> spans 0 acc (Z.of_nat i) ->
  spans 0 (chunk_loop fuel n i acc) (Z.of_nat (length n)).
Proof.
  induction fuel as [|fuel IH]; intros n i acc Hi Hs; simpl.
  { eapply spans_weaken; [exact Hs | lia | lia]. }
  destruct (sentenceRegex_exec n i) as [[idx m]|] eqn:E;
    [|eapply spans_weaken; [exact Hs | lia | lia]].
  destruct (exec_progress _ _ _ _ E) as (P1 & P2 & P3).
  pose proof (trim_length m) as Ht.
  destruct (trim m) as [|c0 t0] eqn:Et; simpl is_empty; cbv iota.
  { apply IH; [lia|]. eapply spans_weaken; [exact Hs | lia | lia]. }
  destruct (length (c0 :: t0) <=? MAX_CHUNK_LENGTH)%nat.
  - apply IH; [lia|]. apply spans_snoc. exists (Z.of_nat i). simpl.
    simpl length in Ht. repeat split; try assumption; lia.
  - apply IH; [lia|]. apply spans_app. exists (Z.of_nat i). split; [exact Hs|].
    eapply spans_weaken; [apply splitLongSentence_spans | lia | lia].
Qed.

Lemma spans_of_chunkText (s : jsstring) :
  spans 0 (chunkText s) (Z.of_nat (length (normalize s))).
Proof.
  unfold chunkText. destruct (is_empty (normalize s)); [simpl; lia|].
  pose proof (chunk_loop_spans (S (length (normalize s))) (normalize s) 0 []) as H.
  destruct (chunk_loop _ _ _ _) as [|c r].
  - apply (splitLongSentence_spans (normalize s) 0).
  - apply H; [lia | simpl; lia].
Qed.

(** X1.  The chunks of a text lie one after the other inside the normalized
    text, without overlap, and none has an empty text. *)
Theorem chunkText_spans (s : jsstring) :
  spans 0 (chunkText s) (Z.of_nat (length (normalize s))).
Proof. exact (spans_of_chunkText s). Qed.

Lemma replace_ws_keeps c s : forall b,
  In c s -> is_space c = false -> In c (replace_ws_from b s).
Proof.
  induction s as [|d r IH]; intros b Hin Hc; [destruct Hin|].
  simpl. destruct Hin as [->|Hin].
  - rewrite Hc. now left.
  - destruct (is_space d); [destruct b|]; simpl; auto.
Qed.

Lemma dropWhile_keeps c s :
  In c s -> is_space c = false -> In c (dropWhile is_space s).
Proof.
  induction s as [|d r IH]; intros Hin Hc; [destruct Hin|].
  simpl. destruct (is_space d) eqn:E; [|exact Hin].
  destruct Hin as [->|Hin]; [congruence | auto].
Qed.

Lemma trim_keeps c s : In c s -> is_space c = false -> In c (trim s).
Proof.
  intros Hin Hc. unfold trim, trimEnd, trimStart.
  apply (proj1 (in_rev _ _)). apply dropWhile_keeps; [|exact Hc].
  apply (proj1 (in_rev _ _)). now apply dropWhile_keeps.
Qed.

Lemma dropWhile_all_spaces s :
  Forall (fun c => is_space c = true) s -> dropWhile is_space s = [].
Proof. induction 1 as [|c r Hc _ IH]; simpl; [reflexivity | now rewrite Hc]. Qed.

Lemma replace_ws_spaces s : forall b,
  Forall (fun c => is_space c = true) s ->
  Forall (fun c => is_space c = true) (replace_ws_from b s).
Proof.
  induction s as [|c r IH]; intros b H; [constructor|].
  inversion H as [|? ? Hc Hr]; subst. simpl. rewrite Hc.
  destruct b; [now apply IH | constructor; [reflexivity | now apply IH]].
Qed.

Lemma all_spaces_dec (s : jsstring) :
  Forall (fun c => is_space c = true) s \/ exists c, In c s /\ is_space c = false.
Proof.
  induction s as [|c r [IH|(d & Hd & Hs)]].
  - left. constructor.
  - destruct (is_space c) eqn:E.
    + left. now constructor.
    + right. exists c. split; [now left | exact E].
  - right. exists d. split; [now right | exact Hs].
Qed.

Lemma trim_spaces s : Forall (fun c => is_space c = true) s -> trim s = [].
Proof.
  intros H. unfold trim, trimStart. now rewrite dropWhile_all_spaces.
Qed.

(** A text is blank for [normalize] exactly when it is for [trim]. *)
Lemma normalize_blank s : normalize s = [] <-> trim s = [].
Proof.
  destruct (all_spaces_dec s) as [H|(c & Hin & Hc)].
  - split; intros _; [now apply trim_spaces|].
    unfold normalize. apply trim_spaces. now apply replace_ws_spaces.
  - split; intros E; exfalso.
    + pose proof (trim_keeps c _ (replace_ws_keeps c s false Hin Hc) Hc) as F.
      fold (replace_ws s) in F. fold (normalize s) in F. rewrite E in F. destruct F.
    + pose proof (trim_keeps c s Hin Hc) as F. rewrite E in F. destruct F.
Qed.

Lemma splitLongSentence_nonempty n off :
  clean SP n -> splitLongSentence n off <> [].
Proof.
  intros C E.
  pose proof (splitLongSentence_join n off) as J.
  rewrite (split_ws_join n C), E in J. simpl in J.
  now apply (clean_SP_nonempty n C).
Qed.

Lemma no_chunk_iff_blank (s : jsstring) :
  chunkText s = [] <-> trim s = [].
Proof.
  rewrite <- normalize_blank. unfold chunkText.
  destruct (normalize_clean s) as [E|C].
  - rewrite E. simpl. tauto.
  - pose proof (clean_SP_nonempty _ C) as Hne.
    destruct (normalize s) as [|c n] eqn:En; [congruence|].
    simpl is_empty. cbv iota. split; [|discriminate].
    destruct (chunk_loop _ _ _ _) as [|x l]; [|discriminate].
    intros F. now apply (splitLongSentence_nonempty (c :: n) 0) in F.
Qed.

(** X2.  [chunkText] returns no chunk exactly for the texts [speak] refuses:
    those that [trim] leaves empty. *)
Theorem chunkText_empty_iff_blank (s : jsstring) :
  chunkText s = [] <-> trim s = [].
Proof. exact (no_chunk_iff_blank s). Qed.

Lemma replace_ws_clean s : forall b p,
  is_space p = b -> chain space_ok p s = true -> replace_ws_from b s = s.
Proof.
  induction s as [|c r IH]; intros b p Hp H; [reflexivity|].
  simpl in H. apply andb_true_iff in H. destruct H as [H1 H2].
  simpl. destruct (is_space c) eqn:E.
  - destruct (space_ok_space _ _ H1 E) as [-> Hpf].
    rewrite Hpf in Hp. subst b. f_equal. now apply (IH true SP).
  - f_equal. now apply (IH false c).
Qed.

(** [normalize] leaves a normalized text as it is. *)
Lemma normalize_idempotent s : normalize (normalize s) = normalize s.
Proof.
  destruct (normalize_clean s) as [E|C]; [now rewrite E|].
  set (n := normalize s) in *. unfold normalize, replace_ws.
  pose proof C as [Hc _].
  assert (Hh : exists c r, n = c :: r /\ is_space c = false).
  { destruct n as [|c r]; [now apply clean_SP_nonempty in C|].
    exists c, r. split; [reflexivity | eapply clean_SP_head, C]. }
  destruct Hh as (c & r & En & Hs).
  rewrite (replace_ws_clean n false 0%N); [| reflexivity |].
  - rewrite <- (app_nil_r n) at 1. apply trim_clean; [|exact C|constructor].
    now apply clean_SP_nonempty.
  - rewrite En in *. rewrite (chain_head_nonspace _ SP); assumption.
Qed.

(** X3.  Chunking the normalized text gives the chunks of the text: the start
    offsets are offsets into the normalized text. *)
Theorem chunkText_normalize (s : jsstring) :
  chunkText (normalize s) = chunkText s.
Proof. unfold chunkText. now rewrite normalize_idempotent. Qed.

End ChunkerSpans.

(** ** The chunker: the start offsets *)

Module ChunkerOffsets.
Import JS Chunker Properties ChunkProperties JSFacts ChunkerBounds ChunkerRejoin
       ChunkerSpans.

Lemma located_extend off j x c :
  located_from off j c -> located_from off (j ++ x) c.
Proof.
  intros (b & a & -> & L). exists b, (a ++ x). split; [|exact L].
  now rewrite <- !app_assoc.
Qed.

Lemma join_sp_snoc ws w :
  ws <> [] -> join_sp (ws ++ [w]) = join_sp ws ++ SP :: w.
Proof. intros H. now rewrite join_sp_app by (assumption || discriminate). Qed.

Lemma split_step_located off ws st w :
  nonempty w = true -> split_located off ws st ->
  split_located off (ws ++ [w]) (split_step off st w).
Proof.
  intros Hw (Hc & Hch & Hcur). unfold split_step.
  destruct w as [|c w']; [discriminate Hw|]. simpl is_empty. cbv iota.
  set (word := c :: w') in *.
  assert (Ew : word <> []) by discriminate.
  clearbody word.
  destruct Hcur as [[Ecur ->] | (Ecur & Hws & before & Hj & Hb)].
  - (* the first word *)
    rewrite Ecur. simpl is_empty. cbv iota. simpl app.
    simpl in Hc.
    assert (R : split_located off [word]
                  (mkSplit (chunks st) word (off + cursor st)
                           (cursor st + Z.of_nat (length word) + 1))).
    { unfold split_located. cbn [cursor chunks current currentStart].
      split; [simpl; lia|]. split.
      - eapply Forall_impl; [|exact Hch]. intros x Hx.
        apply (located_extend off [] word x Hx).
      - right. repeat split; [assumption | discriminate |].
        exists []. split; [reflexivity | simpl; lia]. }
    destruct (length word <=? MAX_CHUNK_LENGTH)%nat; [exact R|].
    unfold push_current. rewrite Ecur. exact R.
  - destruct (current st) as [|d cur'] eqn:Ec; [congruence|].
    set (cur := d :: cur') in *. simpl is_empty. cbv iota.
    assert (Hne : ws ++ [word] <> []) by (destruct ws; discriminate).
    assert (Hj' : join_sp (ws ++ [word]) = join_sp ws ++ SP :: word)
      by now apply join_sp_snoc.
    assert (Hc' : (cursor st + Z.of_nat (length word) + 1
                   = cursor_after (ws ++ [word]))%Z).
    { unfold cursor_after in *. destruct ws as [|w0 ws0]; [congruence|].
      change ((w0 :: ws0) ++ [word]) with (w0 :: (ws0 ++ [word])) in *.
      cbv iota. rewrite Hj', length_app. cbn [length]. lia. }
    assert (Hch' : Forall (located_from off (join_sp (ws ++ [word]))) (chunks st)).
    { rewrite Hj'. eapply Forall_impl; [|exact Hch]. intros x Hx.
      now apply located_extend. }
    destruct (length (cur ++ [SP] ++ word) <=? MAX_CHUNK_LENGTH)%nat.
    + unfold split_located. cbn [cursor chunks current currentStart].
      split; [exact Hc'|]. split; [exact Hch'|]. right.
      split; [destruct cur; discriminate|]. split; [exact Hne|].
      exists before. split; [|exact Hb].
      etransitivity; [exact Hj'|]. rewrite Hj. now rewrite <- app_assoc.
    + unfold split_located. cbn [cursor chunks current currentStart].
      split; [exact Hc'|]. split.
      * unfold push_current. rewrite Ec. simpl is_empty. cbv iota.
        apply Forall_app. split; [exact Hch'|]. constructor; [|constructor].
        exists before, (SP :: word). cbn [text start]. split; [|exact Hb].
        etransitivity; [exact Hj'|]. rewrite Hj. now rewrite <- app_assoc.
      * right. split; [exact Ew|]. split; [exact Hne|].
        exists (join_sp ws ++ [SP]). split.
        -- etransitivity; [exact Hj'|]. now rewrite <- app_assoc.
        -- rewrite length_app. simpl length. unfold cursor_after in Hc.
           destruct ws; [congruence|]. lia.
Qed.

Lemma split_fold_located off ws2 : forall ws1 st,
  Forall (fun w => nonempty w = true) ws2 ->
  split_located off ws1 st ->
  split_located off (ws1 ++ ws2) (fold_left (split_step off) ws2 st).
Proof.
  induction ws2 as [|w r IH]; intros ws1 st Hne H; simpl.
  - now rewrite app_nil_r.
  - inversion Hne as [|? ? Hw Hr]; subst.
    change (w :: r) with ([w] ++ r). rewrite app_assoc.
    apply IH; [exact Hr|]. now apply split_step_located.
Qed.

(** The empty pieces of [split] are skipped. *)
Lemma split_fold_skip off ws : forall st,
  fold_left (split_step off) ws st
  = fold_left (split_step off) (filter nonempty ws) st.
Proof.
  induction ws as [|w r IH]; intros st; [reflexivity|].
  simpl. destruct w as [|c w']; simpl; apply IH.
Qed.

Lemma filter_nonempty_all ws :
  Forall (fun w => nonempty w = true) (filter nonempty ws).
Proof.
  apply Forall_forall. intros x Hx. apply filter_In in Hx. tauto.
Qed.

(** In a clean sentence every chunk of [splitLongSentence] starts at the
    offset of its first word. *)
Lemma splitLongSentence_located sentence off :
  clean SP sentence ->
  Forall (located_from off sentence) (splitLongSentence sentence off).
Proof.
  intros C. unfold splitLongSentence. rewrite split_fold_skip.
  assert (H : split_located off (filter nonempty (split_ws sentence))
                (fold_left (split_step off) (filter nonempty (split_ws sentence))
                           (mkSplit [] [] off 0))).
  { apply (split_fold_located off (filter nonempty (split_ws sentence)) []
             (mkSplit [] [] off 0) (filter_nonempty_all _)).
    unfold split_located. simpl. split; [reflexivity|]. split; [constructor|].
    left. now split. }
  unfold split_located in H. rewrite (split_ws_join sentence C) in H.
  destruct H as (_ & Hch & Hcur).
  unfold push_current.
  destruct Hcur as [[-> _] | (Hne & _ & before & Hj & Hb)]; [exact Hch|].
  destruct (current _) as [|d cur'] eqn:Ec; [congruence|].
  simpl is_empty. cbv iota. apply Forall_app. split; [exact Hch|].
  constructor; [|constructor]. exists before, []. cbn [text start].
  split; [now rewrite app_nil_r | exact Hb].
Qed.

Lemma located_shift n i sentence rest c :
  skipn i n = sentence ++ rest -> (i <= length n)%nat ->
  located_from (Z.of_nat i) sentence c -> located n c.
Proof.
  intros Hs Hi (b & a & -> & L).
  exists (firstn i n ++ b), (a ++ rest). split.
  - rewrite <- (firstn_skipn i n) at 1. rewrite Hs. now rewrite <- !app_assoc.
  - rewrite length_app, length_firstn. lia.
Qed.

Lemma chunk_loop_located fuel : forall n i r,
  skipn i n = r -> (i <= length n)%nat -> (length r < fuel)%nat -> tidy SP r ->
  Forall (located n) (chunk_loop fuel n i []).
Proof.
  induction fuel as [|fuel IH]; intros n i r Hr Hi Hf T; [lia|].
  pose proof (exec_tidy _ _ _ Hr T) as Ex.
  destruct (sentence_shape r T)
    as (body & terms & spaces & rest & Eb & Et & Es & Erest & Er & Hne & C & Htrim & Hrest).
  rewrite <- Eb, <- Et, <- Es in Ex. clear Eb Et Es Erest.
  assert (Hskip : skipn (i + length (body ++ terms ++ spaces)) n = rest).
  { apply skipn_past. rewrite Hr, Er. now rewrite <- !app_assoc. }
  assert (Hlen : length r = (length (body ++ terms ++ spaces) + length rest)%nat).
  { rewrite Er, !length_app. lia. }
  assert (Hi' : (i + length (body ++ terms ++ spaces) <= length n)%nat).
  { assert (L : length (skipn i n) = length r) by now rewrite Hr.
    rewrite length_skipn in L. lia. }
  set (i' := (i + length (body ++ terms ++ spaces))%nat) in *.
  set (X := if (length (body ++ terms) <=? MAX_CHUNK_LENGTH)%nat
            then [mkChunk (body ++ terms) (Z.of_nat i)]
            else splitLongSentence (body ++ terms) (Z.of_nat i)).
  assert (HX : Forall (located n) X).
  { assert (Hs : skipn i n = (body ++ terms) ++ spaces ++ rest) by now rewrite Hr.
    unfold X. destruct (length (body ++ terms) <=? MAX_CHUNK_LENGTH)%nat.
    - constructor; [|constructor].
      apply (located_shift n i _ _ _ Hs Hi).
      exists [], []. cbn [text start]. split; [now rewrite app_nil_r | simpl; lia].
    - eapply Forall_impl; [|apply (splitLongSentence_located _ (Z.of_nat i) C)].
      intros c Hc. exact (located_shift n i _ _ _ Hs Hi Hc). }
  assert (G : chunk_loop (S fuel) n i [] = X ++ chunk_loop fuel n i' []).
  { simpl chunk_loop. rewrite Ex. cbv zeta.
    fold i'. rewrite Htrim.
    destruct (body ++ terms) as [|c0 s0] eqn:Es; [congruence|].
    simpl is_empty. cbv iota. unfold X.
    destruct (length (c0 :: s0) <=? MAX_CHUNK_LENGTH)%nat;
      simpl app; now rewrite chunk_loop_acc. }
  rewrite G. apply Forall_app. split; [exact HX|].
  destruct Hrest as [[Hs Hre]|[Hs Tr]].
  - rewrite chunk_loop_end by (now rewrite Hskip). constructor.
  - apply (IH n i' rest Hskip Hi'); [|exact Tr].
    assert (1 <= length (body ++ terms ++ spaces))%nat.
    { rewrite Hs, !length_app. simpl length. lia. }
    lia.
Qed.

(** X4.  When the sentences of the normalized text are written the usual way,
    every chunk is the part of the normalized text that begins at its start
    offset. *)
Theorem chunkText_located (s : jsstring) :
  well_punctuated (normalize s) = true ->
  Forall (located (normalize s)) (chunkText s).
Proof.
  intros W. unfold chunkText.
  destruct (normalize_clean s) as [E|C]; [rewrite E; constructor|].
  pose proof (clean_SP_nonempty _ C) as Hne.
  destruct (normalize s) as [|c n] eqn:En; [congruence|].
  simpl is_empty. cbv iota.
  assert (L : Forall (located (c :: n))
                (chunk_loop (S (length (c :: n))) (c :: n) 0 [])).
  { apply (chunk_loop_located _ (c :: n) 0 (c :: n));
      [reflexivity | lia | lia | split; assumption]. }
  destruct (chunk_loop (S (length (c :: n))) (c :: n) 0 []) as [|x l]; [|exact L].
  apply (splitLongSentence_located (c :: n) 0 C).
Qed.

Lemma chunkText_located_witness :
  well_punctuated
    (normalize (lit "Bonjour.  Comment vas tu aujourd'hui? Tres bien merci.")) = true
  /\ Forall (located
               (normalize (lit "Bonjour.  Comment vas tu aujourd'hui? Tres bien merci.")))
            (chunkText (lit "Bonjour.  Comment vas tu aujourd'hui? Tres bien merci.")).
Proof.
  split; [vm_compute; reflexivity|].
  apply (chunkText_located
           (lit "Bonjour.  Comment vas tu aujourd'hui? Tres bien merci.")).
  vm_compute. reflexivity.
Defined.

End ChunkerOffsets.

(** ** The playback driver: whole sessions *)

Module PlaybackRuns.
Import JS Chunker Playback PlaybackProperties ChunkProperties PlaybackSessions.
Import JSFacts ChunkerSpans PlaybackProgress PlaybackQueue.
Local Open Scope m_scope.

Lemma shift_0 cs : map (shift 0) cs = cs.
Proof.
  induction cs as [|c r IH]; [reflexivity|]. simpl. rewrite IH. f_equal.
  destruct c as [t st]. unfold shift. simpl. f_equal. lia.
Qed.

Lemma bind_emit {B} a (k : unit -> M B) s :
  state_of (bind (emit a) k s) = state_of (k tt s)
  /\ actions_of (bind (emit a) k s) = a :: actions_of (k tt s).
Proof. unfold bind, emit, state_of, actions_of. now destruct (k tt s) as [[b s2] o2]. Qed.

Lemma bind_call {B} cb f (k : unit -> M B) s :
  state_of (bind (call cb f) k s) = state_of (k tt s)
  /\ actions_of (bind (call cb f) k s)
     = match cb with Some g => [f g] | None => [] end ++ actions_of (k tt s).
Proof.
  destruct cb; simpl call; [apply bind_emit|]. rewrite bind_ret. now split.
Qed.

Lemma speak_first_chunk (o : SpeakOptions) (s : State) :
  isSupported s = true -> trim (so_text o) <> [] ->
  exists c rest,
    chunkText (so_text o) = c :: rest
    /\ actions_of (speak o s)
       = [SynthCancel]
         ++ match so_onStart o with Some f => [CallOnStart f] | None => [] end
         ++ [SynthSpeak (length (utterances s)) (utterance_for c (so_base o))]
    /\ queueRef (state_of (speak o s)) = rest
    /\ activeUtteranceRef (state_of (speak o s)) = Some (length (utterances s))
    /\ utterances (state_of (speak o s))
       = utterances s ++ [utterance_for c (so_base o)]
    /\ lastCharIndexRef (state_of (speak o s)) = 0%Z
    /\ sourceTextRef (state_of (speak o s)) = so_text o
    /\ lastSpeakOptionsRef (state_of (speak o s)) = Some (so_base o).
Proof.
  intros Hs Ht.
  destruct (chunkText (so_text o)) as [|c rest] eqn:Ec.
  { apply no_chunk_iff_blank in Ec. congruence. }
  exists c, rest. split; [reflexivity|].
  unfold speak, startQueue, playQueue, bind, get, modify, emit, call, ret,
    state_of, actions_of.
  rewrite Hs. simpl negb. cbv iota zeta.
  destruct (trim (so_text o)) as [|t0 tr] eqn:Et; [congruence|].
  simpl is_empty. cbv iota. rewrite Ec, shift_0.
  destruct (so_onStart o); simpl; repeat split; reflexivity.
Qed.

(** X5.  [speak] with a text that is not blank cancels what the backend is
    doing, then tells the caller, then submits the first chunk of the text
    and keeps the others in the queue. *)
Theorem speak_starts (o : SpeakOptions) (s : State) :
  isSupported s = true -> trim (so_text o) <> [] ->
  exists c rest,
    chunkText (so_text o) = c :: rest
    /\ actions_of (speak o s)
       = [SynthCancel]
         ++ match so_onStart o with Some f => [CallOnStart f] | None => [] end
         ++ [SynthSpeak (length (utterances s)) (utterance_for c (so_base o))]
    /\ queueRef (state_of (speak o s)) = rest
    /\ activeUtteranceRef (state_of (speak o s)) = Some (length (utterances s))
    /\ utterances (state_of (speak o s))
       = utterances s ++ [utterance_for c (so_base o)]
    /\ lastCharIndexRef (state_of (speak o s)) = 0%Z
    /\ sourceTextRef (state_of (speak o s)) = so_text o
    /\ lastSpeakOptionsRef (state_of (speak o s)) = Some (so_base o).
Proof. exact (speak_first_chunk o s). Qed.

Lemma speak_starts_witness :
  exists c rest,
    chunkText (so_text options_a) = c :: rest
    /\ actions_of (speak options_a (initial true))
       = [SynthCancel]
         ++ match so_onStart options_a with Some f => [CallOnStart f] | None => [] end
         ++ [SynthSpeak 0 (utterance_for c (so_base options_a))].
Proof.
  destruct (speak_starts options_a (initial true)) as (c & rest & H1 & H2 & _).
  - reflexivity.
  - vm_compute. discriminate.
  - exists c, rest. split; [exact H1 | exact H2].
Defined.

Lemma ends_app l1 l2 : ends (l1 ++ l2) = ends l1 ++ ends l2.
Proof.
  induction l1 as [|a l1 IH]; [reflexivity|].
  destruct a; simpl; now rewrite ?IH.
Qed.

(** The first part of [onend] and of [onerror]: the index may move, the
    timer is cleared, and nothing is submitted or ended. *)
Lemma finish_active_playQueue failed s id u :
  activeUtteranceRef s = Some id ->
  nth_error (utterances s) id = Some u ->
  exists x acts,
    state_of (finish_active failed s)
    = state_of (playQueue (baseOptions u)
                  (set_progressTimerRef None (set_lastCharIndexRef x s)))
    /\ actions_of (finish_active failed s)
       = acts ++ actions_of (playQueue (baseOptions u)
                               (set_progressTimerRef None (set_lastCharIndexRef x s)))
    /\ submitted acts = [] /\ ends acts = [].
Proof.
  intros Ha Hu. unfold finish_active. rewrite bind_get, Ha.
  destruct failed.
  - exists (lastCharIndexRef s), []. rewrite (onerror_playQueue _ _ _ Hu).
    replace (set_lastCharIndexRef (lastCharIndexRef s) s) with s by now destruct s.
    repeat split; reflexivity.
  - destruct (onend_playQueue id s u Hu) as [Es Ea]. cbv zeta in Es, Ea.
    pose proof (emitProgress_spec (next u) (baseOptions u)
                  (len (text (next u)) - 1) s) as Sp.
    cbv zeta in Sp.
    destruct (_ <? lastCharIndexRef s)%Z.
    + exists (lastCharIndexRef s), []. rewrite Es, Ea, Sp.
      replace (set_lastCharIndexRef (lastCharIndexRef s) s) with s by now destruct s.
      repeat split; reflexivity.
    + destruct Sp as [S1 S2]. eexists. eexists. rewrite Es, Ea, S1, S2.
      split; [reflexivity|]. split; [reflexivity|].
      destruct (onBoundary (baseOptions u)); split; reflexivity.
Qed.

(** Whatever the outcome of each utterance, the queue is played to its
    end, and then [onEnd] is called, once. *)
Lemma finish_each_drains outcomes : forall s id u,
  length outcomes = S (length (queueRef s)) ->
  activeUtteranceRef s = Some id ->
  nth_error (utterances s) id = Some u ->
  submitted (actions_of (finish_each outcomes s)) = queueRef s
  /\ ends (actions_of (finish_each outcomes s))
     = match onEnd (baseOptions u) with Some f => [f] | None => [] end
  /\ queueRef (state_of (finish_each outcomes s)) = []
  /\ activeUtteranceRef (state_of (finish_each outcomes s)) = None
  /\ isSpeaking (state_of (finish_each outcomes s)) = false
  /\ isPaused (state_of (finish_each outcomes s)) = false
  /\ progressTimerRef (state_of (finish_each outcomes s)) = None.
Proof.
  induction outcomes as [|b r IH]; intros s id u Hl Ha Hu; [discriminate Hl|].
  simpl finish_each.
  rewrite bind_state, bind_actions, submitted_app, ends_app.
  destruct (finish_active_playQueue b s id u Ha Hu) as (x & acts & Es & Ea & As & Ae).
  rewrite Es, Ea, submitted_app, ends_app, As, Ae. simpl app.
  set (s0 := set_progressTimerRef None (set_lastCharIndexRef x s)) in *.
  destruct (queueRef s) as [|c rest] eqn:Eq.
  - (* the last utterance *)
    simpl in Hl. destruct r; [|discriminate Hl].
    rewrite (playQueue_nil _ s0) by exact Eq.
    unfold state_of, actions_of. simpl.
    destruct (onEnd (baseOptions u)); repeat split; first [reflexivity | exact Eq].
  - rewrite (playQueue_cons _ s0 c rest) by exact Eq.
    set (s1 := set_activeUtteranceRef _ _).
    change (state_of (tt, s1, [SynthSpeak (length (utterances s0))
                                 (utterance_for c (baseOptions u))])) with s1.
    destruct (IH s1 (length (utterances s0)) (utterance_for c (baseOptions u)))
      as (I1 & I2 & I3).
    + simpl in Hl. simpl. lia.
    + reflexivity.
    + subst s1 s0. simpl. rewrite nth_error_app2 by lia. now rewrite Nat.sub_diag.
    + unfold actions_of at 1 3. simpl snd. simpl submitted. simpl ends.
      rewrite I1, I2. split; [reflexivity|]. split; [reflexivity | exact I3].
Qed.

(** X6.  A whole session.  After [speak] with a text that is not blank, when
    every utterance ends or fails in turn, the chunks of the text are
    submitted one after the other, in order, [onEnd] is called once, after
    the last one, and the driver is at rest. *)
Theorem session_plays_every_chunk (o : SpeakOptions) (s : State) (outcomes : list bool) :
  isSupported s = true -> trim (so_text o) <> [] ->
  length outcomes = length (chunkText (so_text o)) ->
  submitted (actions_of ((speak o ;; finish_each outcomes) s)) = chunkText (so_text o)
  /\ ends (actions_of ((speak o ;; finish_each outcomes) s))
     = match onEnd (so_base o) with Some f => [f] | None => [] end
  /\ queueRef (state_of ((speak o ;; finish_each outcomes) s)) = []
  /\ activeUtteranceRef (state_of ((speak o ;; finish_each outcomes) s)) = None
  /\ isSpeaking (state_of ((speak o ;; finish_each outcomes) s)) = false.
Proof.
  intros Hs Ht Hl.
  destruct (speak_first_chunk o s Hs Ht)
    as (c & rest & Ec & Ea & Eq & Eact & Eu & _).
  rewrite bind_state, bind_actions, submitted_app, ends_app.
  set (s1 := state_of (speak o s)) in *.
  destruct (finish_each_drains outcomes s1 (length (utterances s))
              (utterance_for c (so_base o)))
    as (I1 & I2 & I3 & I4 & I5 & _).
  - rewrite Eq. rewrite Ec in Hl. exact Hl.
  - exact Eact.
  - rewrite Eu. rewrite nth_error_app2 by lia. now rewrite Nat.sub_diag.
  - rewrite Ea, I1, I2, Eq, Ec.
    destruct (so_onStart o); simpl; repeat split; assumption.
Qed.

Lemma session_plays_every_chunk_witness :
  submitted (actions_of ((speak options_a ;; finish_each [false; true]) (initial true)))
  = chunkText (so_text options_a).
Proof.
  refine (proj1 (session_plays_every_chunk options_a (initial true) [false; true] _ _ _)).
  - reflexivity.
  - vm_compute. discriminate.
  - vm_compute. reflexivity.
Defined.



Lemma unsupported_handle e s :
  isSupported s = false -> interface_call e = true -> handle e s = (tt, s, []).
Proof.
  intros Hs He. destruct e; try discriminate He; simpl handle.
  - unfold speak. rewrite bind_get, Hs. reflexivity.
  - unfold stop. rewrite bind_get, Hs. reflexivity.
  - unfold pause. rewrite bind_get, Hs. reflexivity.
  - unfold resume. rewrite bind_get, Hs. reflexivity.
Qed.

(** X8.  Without a backend ([isSupported] is false) no call of the interface
    does anything: the state stays as it is, no request goes to the backend
    and no callback is called. *)
Theorem unsupported_does_nothing (s : State) (calls : list Event) :
  isSupported s = false ->
  Forall (fun e => interface_call e = true) calls ->
  run calls s = (tt, s, []).
Proof.
  intros Hs H. induction H as [|e r He _ IH]; [reflexivity|].
  simpl run. unfold bind. rewrite (unsupported_handle e s Hs He). now rewrite IH.
Qed.

Lemma unsupported_does_nothing_witness :
  run [Speak options_a; Pause (mkSynth true false); Resume (mkSynth false true); Stop]
      (initial false)
  = (tt, initial false, []).
Proof.
  apply (unsupported_does_nothing (initial false)); [reflexivity | repeat constructor].
Defined.

End PlaybackRuns.

(** ** The playback driver: the indices reported lie in the text *)

Module PlaybackInside.
Import JS Chunker Playback PlaybackProperties ChunkProperties PlaybackSessions.
Import JSFacts ChunkerSpans PlaybackProgress PlaybackQueue PlaybackRuns.
Local Open Scope m_scope.

Lemma replace_ws_length s : forall b, (length (replace_ws_from b s) <= length s)%nat.
Proof.
  induction s as [|c r IH]; intros b; simpl; [lia|].
  pose proof (IH true). pose proof (IH false).
  destruct (is_space c); [destruct b|]; simpl; lia.
Qed.

Lemma normalize_length s : (length (normalize s) <= length s)%nat.
Proof.
  unfold normalize. etransitivity; [apply trim_length | apply replace_ws_length].
Qed.

Lemma spans_within t off cs : forall lo hi,
  spans lo cs hi -> (0 <= lo + off)%Z -> (hi + off <= len t)%Z ->
  Forall (within t) (map (shift off) cs).
Proof.
  induction cs as [|c r IH]; intros lo hi H L1 L2; simpl; [constructor|].
  destruct H as (H1 & H2 & H3). pose proof (spans_le _ _ _ H3) as H4.
  constructor.
  - unfold within, shift, len in *. cbn [text start]. lia.
  - apply (IH _ hi H3); lia.
Qed.

Lemma chunks_within t txt off :
  (0 <= off)%Z -> (off + len txt <= len t)%Z ->
  Forall (within t) (map (shift off) (chunkText txt)).
Proof.
  intros H1 H2. apply (spans_within t off _ 0 _ (ChunkerSpans.spans_of_chunkText txt)); [lia|].
  pose proof (normalize_length txt). unfold len in *. lia.
Qed.

Lemma slice_rest_length (s : jsstring) (a : Z) :
  (0 <= a <= len s)%Z -> len (slice s a (len s)) = (len s - a)%Z.
Proof.
  intros H. unfold slice, slice_index, len in *.
  assert (E1 : (a <? 0)%Z = false) by (apply Z.ltb_ge; lia).
  assert (E2 : (Z.of_nat (length s) <? 0)%Z = false) by (apply Z.ltb_ge; lia).
  rewrite E1, E2, length_firstn, length_skipn. lia.
Qed.

Lemma inside_ret {A} t s (a : A) : inside_at t s (ret a).
Proof. intros R. split; [exact R | constructor]. Qed.

Lemma inside_bind {A B} t s (c : M A) (k : A -> M B) :
  inside_at t s c -> (forall a, inside_at t (state_of (c s)) (k a)) ->
  inside_at t s (bind c k).
Proof.
  intros Hc Hk R. destruct (Hc R) as [R1 F1].
  destruct (Hk (fst (fst (c s))) R1) as [R2 F2].
  rewrite bind_state, bind_actions, boundaries_app.
  split; [exact R2 | apply Forall_app; now split].
Qed.

Lemma inside_get_bind {B} t s (k : State -> M B) :
  (reading t s -> inside_at t s (k s)) -> inside_at t s (bind get k).
Proof. intros H R. rewrite bind_get. now apply H. Qed.

Lemma inside_modify t s f :
  (reading t s -> reading t (f s)) -> inside_at t s (modify f).
Proof. intros H R. split; [now apply H | constructor]. Qed.

Lemma inside_emit t s a : boundaries [a] = [] -> inside_at t s (emit a).
Proof.
  intros H R. split; [exact R|].
  unfold emit, actions_of. simpl snd. rewrite H. constructor.
Qed.

Lemma inside_call t s cb a :
  (forall f, boundaries [a f] = []) -> inside_at t s (call cb a).
Proof. intros H. destruct cb; simpl; [apply inside_emit, H | apply inside_ret]. Qed.

Lemma Forall_set_nth {A} (P : A -> Prop) x : forall l i,
  Forall P l -> P x -> Forall P (set_nth i x l).
Proof.
  induction l as [|y l IH]; intros i H Hx; [destruct i; constructor|].
  inversion H; subst. destruct i; simpl; constructor; auto.
Qed.

Lemma inside_update_utterance t s id f :
  (forall u, next (f u) = next u) -> inside_at t s (update_utterance id f).
Proof.
  intros Hf. apply inside_modify. intros (R1 & R2 & R3 & R4).
  destruct (nth_error (utterances s) id) as [u|] eqn:E; [|now repeat split].
  repeat split; try assumption. simpl.
  apply Forall_set_nth; [exact R4|]. rewrite Hf.
  apply nth_error_In in E. rewrite Forall_forall in R4. now apply R4.
Qed.

Lemma inside_emitProgress t s nxt base rel :
  within t nxt -> inside_at t s (emitProgress nxt base rel).
Proof.
  intros (W1 & W2 & W3) (R1 & R2 & R3 & R4).
  pose proof (emitProgress_spec nxt base rel s) as Sp. cbv zeta in Sp.
  destruct (_ <? lastCharIndexRef s)%Z.
  - rewrite Sp. split; [now repeat split | constructor].
  - destruct Sp as [-> ->]. split.
    + repeat split; try assumption. simpl. lia.
    + destruct (onBoundary base); simpl; [|constructor].
      constructor; [lia | constructor].
Qed.

Lemma inside_playQueue t s base : inside_at t s (playQueue base).
Proof.
  intros (R1 & R2 & R3 & R4). destruct (queueRef s) as [|c rest] eqn:Eq.
  - rewrite playQueue_nil by exact Eq. split.
    + repeat split; try assumption. simpl. now rewrite Eq.
    + unfold actions_of. simpl. destruct (onEnd base); constructor.
  - rewrite (playQueue_cons _ _ c rest) by exact Eq.
    inversion R3; subst. split; [|constructor].
    repeat split; try assumption. simpl.
    apply Forall_app. split; [exact R4|]. constructor; [assumption | constructor].
Qed.

Lemma inside_startQueue t s txt base off :
  (0 <= off)%Z -> (off + len txt <= len t)%Z ->
  inside_at t s (startQueue txt base off).
Proof.
  intros H1 H2. unfold startQueue.
  pose proof (chunks_within t txt off H1 H2) as W.
  destruct (chunkText txt) as [|c r]; [apply inside_ret|].
  apply inside_bind; [|intros _; apply inside_playQueue].
  apply inside_modify. intros (R1 & R2 & R3 & R4). now repeat split.
Qed.

Lemma inside_with_utterance t s id k :
  (forall u, within t (next u) -> inside_at t s (k u)) ->
  inside_at t s (with_utterance id k).
Proof.
  intros H. unfold with_utterance. apply inside_get_bind. intros (_ & _ & _ & R4).
  destruct (nth_error (utterances s) id) as [u|] eqn:E; [|apply inside_ret].
  apply H. apply nth_error_In in E. rewrite Forall_forall in R4. now apply R4.
Qed.

Ltac inside :=
  repeat first
    [ apply inside_ret
    | apply inside_playQueue
    | apply inside_emitProgress; assumption
    | apply inside_update_utterance; intro; reflexivity
    | apply inside_modify; (let Hr := fresh "Hr" in intros Hr; exact Hr)
    | apply inside_emit; reflexivity
    | apply inside_call; intro; reflexivity
    | apply inside_get_bind; intros ?
    | apply inside_bind; [|intro]
    | match goal with
      | |- inside_at _ _ (match ?x with _ => _ end) => destruct x eqn:?
      end ].

Lemma inside_resume t s y : inside_at t s (resume y).
Proof.
  unfold resume. apply inside_get_bind. intros R.
  destruct (negb (isSupported s)); [apply inside_ret|].
  destruct (paused y || isPaused s); [inside|].
  destruct (lastSpeakOptionsRef s) as [options|]; [|apply inside_ret].
  destruct (negb (speaking y) && negb (is_empty (sourceTextRef s))
            && (lastCharIndexRef s <? len (sourceTextRef s) - 1)%Z) eqn:E;
    [|apply inside_ret].
  apply andb_true_iff in E. destruct E as [_ E]. apply Z.ltb_lt in E.
  destruct R as (R1 & R2 & _). rewrite R1 in *.
  apply inside_bind; [inside|]. intros _.
  apply inside_bind; [inside|]. intros _.
  apply inside_startQueue; [exact R2|].
  rewrite slice_rest_length; lia.
Qed.

Lemma inside_handle t s e : in_session e = true -> inside_at t s (handle e).
Proof.
  destruct e; simpl; try discriminate; intros _.
  - unfold pause. inside.
  - apply inside_resume.
  - unfold syncState. inside.
  - unfold ontimer. apply inside_get_bind. intros _.
    destruct (progressTimerRef s); [|apply inside_ret].
    apply inside_with_utterance. intros u Hu. inside.
  - unfold onstart, clearProgressTimer.
    apply inside_with_utterance. intros u Hu. inside.
  - unfold onpause. apply inside_with_utterance. intros u Hu. inside.
  - unfold onresume. apply inside_with_utterance. intros u Hu. inside.
  - unfold onboundary. apply inside_with_utterance. intros u Hu. inside.
  - unfold onend, clearProgressTimer.
    apply inside_with_utterance. intros u Hu. inside.
  - unfold onerror, clearProgressTimer.
    apply inside_with_utterance. intros u Hu. inside.
Qed.

Lemma inside_run t evs : forall s,
  Forall (fun e => in_session e = true) evs -> inside_at t s (run evs).
Proof.
  induction evs as [|e evs IH]; intros s H; simpl; [apply inside_ret|].
  inversion H; subst.
  apply inside_bind; [now apply inside_handle | intros _; now apply IH].
Qed.

Lemma speak_nothing o s :
  isSupported s = false \/ trim (so_text o) = [] -> speak o s = (tt, s, []).
Proof.
  intros H. unfold speak. rewrite bind_get.
  destruct (isSupported s); simpl negb; cbv iota; [|reflexivity].
  destruct H as [H|H]; [discriminate H|]. now rewrite H.
Qed.

(** X9.  From the first [speak()] on and until the next [speak()] or [stop()],
    whatever the backend, the timer and the caller do, every index handed
    to [onBoundary] is an index of the text that was given to [speak]. *)
Theorem reported_indices_inside_text (supported : bool) (o : SpeakOptions)
    (evs : list Event) :
  Forall (fun e => in_session e = true) evs ->
  Forall (fun i => (0 <= i < len (so_text o))%Z)
         (boundaries (actions_of (run (Speak o :: evs) (initial supported)))).
Proof.
  intros H. simpl run. rewrite bind_actions, boundaries_app.
  change (handle (Speak o)) with (speak o).
  destruct supported; [destruct (trim (so_text o)) as [|t0 tr] eqn:Et|].
  - rewrite (speak_nothing o (initial true)) by now right.
    unfold state_of, actions_of. simpl app.
    assert (R : reading [] (initial true)) by (repeat split; try constructor; simpl; lia).
    destruct (inside_run [] evs (initial true) H R) as [_ F].
    eapply Forall_impl; [|exact F]. simpl. unfold len. simpl. intros; lia.
  - destruct (speak_first_chunk o (initial true) eq_refl)
      as (c & rest & Ec & Ea & Eq & _ & Eu & El & Es & _);
      [rewrite Et; discriminate|].
    assert (W : Forall (within (so_text o)) (c :: rest)).
    { rewrite <- Ec, <- (shift_0 (chunkText (so_text o))).
      apply chunks_within; lia. }
    apply Forall_cons_iff in W. destruct W as [Wc Wr].
    assert (R : reading (so_text o) (state_of (speak o (initial true)))).
    { repeat split.
      - exact Es.
      - rewrite El. lia.
      - rewrite Eq. exact Wr.
      - rewrite Eu. simpl. constructor; [exact Wc | constructor]. }
    destruct (inside_run (so_text o) evs _ H R) as [_ F].
    apply Forall_app. split; [|exact F].
    rewrite Ea. destruct (so_onStart o); constructor.
  - rewrite (speak_nothing o (initial false)) by now left.
    unfold state_of, actions_of. simpl app.
    assert (R : reading [] (initial false)) by (repeat split; try constructor; simpl; lia).
    destruct (inside_run [] evs (initial false) H R) as [_ F].
    eapply Forall_impl; [|exact F]. simpl. unfold len. simpl. intros; lia.
Qed.

Lemma reported_indices_inside_text_witness :
  Forall (fun i => (0 <= i < len (so_text options_a))%Z)
         (boundaries (actions_of
            (run (Speak options_a ::
                  [UStart 0 1000; UBoundary 0 1100 900; UEnd 0; UStart 1 2000;
                   Timer (mkSynth true false) 3000 55; UEnd 1])
                 (initial true)))).
Proof.
  apply (reported_indices_inside_text true options_a). repeat constructor.
Defined.

End PlaybackInside.

(** ** The helpers of the readers *)

Module ReadersProofs.
Import JS Readers Properties JSFacts ChunkerBounds ChunkerRejoin.

Lemma scan_left_spec text n :
  (scan_left text n <= n)%nat
  /\ (forall i, (scan_left text n <= i < n)%nat -> space_at text i = false)
  /\ (scan_left text n = 0%nat \/ space_at text (scan_left text n - 1) = true).
Proof.
  induction n as [|k (I1 & I2 & I3)]; simpl.
  - split; [lia|]. split; [intros; lia | now left].
  - destruct (space_at text k) eqn:E.
    + split; [lia|]. split; [intros; lia|]. right.
      now replace (S k - 1)%nat with k by lia.
    + split; [lia|]. split; [|exact I3].
      intros i Hi. destruct (Nat.eq_dec i k) as [->|Hne]; [exact E|].
      apply I2. lia.
Qed.

Lemma scan_right_spec text fuel : forall n,
  (length text - n <= fuel)%nat ->
  (n <= scan_right fuel text n)%nat
  /\ ((n <= length text)%nat -> (scan_right fuel text n <= length text)%nat)
  /\ (forall i, (n <= i < scan_right fuel text n)%nat -> space_at text i = false)
  /\ ((length text <= scan_right fuel text n)%nat
      \/ space_at text (scan_right fuel text n) = true).
Proof.
  induction fuel as [|fuel IH]; intros n Hf; simpl.
  - split; [lia|]. split; [lia|]. split; [intros; lia | left; lia].
  - destruct (n <? length text)%nat eqn:El; simpl.
    + apply Nat.ltb_lt in El. destruct (space_at text n) eqn:E; simpl.
      * split; [lia|]. split; [lia|]. split; [intros; lia | now right].
      * destruct (IH (S n)) as (I1 & I2 & I3 & I4); [lia|].
        split; [lia|]. split; [intros; apply I2; lia|]. split; [|exact I4].
        intros i Hi. destruct (Nat.eq_dec i n) as [->|Hne]; [exact E|].
        apply I3. lia.
    + apply Nat.ltb_ge in El.
      split; [lia|]. split; [lia|]. split; [intros; lia | now left].
Qed.

(** X10.  [wordRangeAt] returns the word around the index: the range holds the
    index (brought into the text), lies in the text, has no whitespace
    inside, and cannot be made longer at either end. *)
Theorem wordRangeAt_word (text : jsstring) (index : Z) :
  let safe := clamp index 0 (Z.max 0 (len text - 1)) in
  let r := wordRangeAt text index in
  (0 <= from r <= safe)%Z /\ (safe <= to r <= len text)%Z
  /\ (forall i, (from r <= Z.of_nat i < to r)%Z -> space_at text i = false)
  /\ (from r = 0%Z \/ space_at text (Z.to_nat (from r) - 1) = true)
  /\ (to r = len text \/ space_at text (Z.to_nat (to r)) = true).
Proof.
  intros safe r. unfold r, wordRangeAt. fold safe. cbn [from to].
  assert (Hs : (0 <= safe <= len text)%Z) by (unfold safe, clamp, len; lia).
  destruct (scan_left_spec text (Z.to_nat safe)) as (L1 & L2 & L3).
  destruct (scan_right_spec text (length text) (Z.to_nat safe)) as (R1 & R2 & R3 & R4);
    [lia|].
  assert (R2' : (scan_right (length text) text (Z.to_nat safe) <= length text)%nat)
    by (apply R2; unfold len in Hs; lia).
  unfold len in *.
  split; [lia|]. split; [lia|]. split.
  - intros i Hi.
    destruct (Nat.lt_ge_cases i (Z.to_nat safe)); [apply L2 | apply R3]; lia.
  - split.
    + destruct L3 as [L3|L3]; [left; lia | right; now rewrite Nat2Z.id].
    + destruct R4 as [R4|R4]; [left; lia | right; now rewrite Nat2Z.id].
Qed.

Lemma ext_char_DOT : ext_char DOT = false.
Proof. reflexivity. Qed.

Lemma strip_extension_ext ext : forall name,
  ext <> [] -> forallb ext_char ext = true ->
  strip_extension (name ++ DOT :: ext) = name.
Proof.
  intros name Hne He. induction name as [|c name IH].
  - simpl. rewrite He. destruct ext; [congruence | reflexivity].
  - assert (F : forallb ext_char (name ++ DOT :: ext) = false).
    { rewrite forallb_app. change (forallb ext_char (DOT :: ext)) with false.
      apply andb_false_r. }
    change ((c :: name) ++ DOT :: ext) with (c :: (name ++ DOT :: ext)).
    cbn [strip_extension]. now rewrite F, andb_false_r, IH.
Qed.

(** X11.  [basenameNoExt] takes the extension off: for a name that is not empty,
    followed by a dot and an extension without dot or slash, it returns the
    name. *)
Theorem basenameNoExt_strips (name ext : jsstring) :
  name <> [] -> ext <> [] -> forallb ext_char ext = true ->
  basenameNoExt (name ++ DOT :: ext) = name.
Proof.
  intros Hn He Hf. unfold basenameNoExt. rewrite strip_extension_ext by assumption.
  destruct name; [congruence | reflexivity].
Qed.

Lemma basenameNoExt_strips_witness :
  basenameNoExt (lit "rapport.final" ++ DOT :: lit "docx") = lit "rapport.final".
Proof.
  apply basenameNoExt_strips; [discriminate | discriminate | reflexivity].
Defined.

Lemma strip_extension_prefix s : exists rest, s = strip_extension s ++ rest.
Proof.
  induction s as [|c r (rest & IH)]; [now exists []|]. simpl.
  destruct ((c =? DOT)%N && negb (Reconciler.is_empty r) && forallb ext_char r).
  - now exists (c :: r).
  - exists rest. simpl. now rewrite <- IH.
Qed.

Lemma strip_extension_no_dot s : ~ In DOT s -> strip_extension s = s.
Proof.
  induction s as [|c r IH]; intros H; [reflexivity|]. simpl.
  destruct (N.eqb_spec c DOT) as [->|Hne]; [exfalso; apply H; now left|].
  simpl. f_equal. apply IH. intros F. apply H. now right.
Qed.

(** X12.  [basenameNoExt] never returns the empty string: it returns "document",
    or a beginning of the file name that is not empty; a file name without
    a dot is returned as it is. *)
Theorem basenameNoExt_result (filename : jsstring) :
  basenameNoExt filename <> []
  /\ (basenameNoExt filename = lit "document"
      \/ exists rest, filename = basenameNoExt filename ++ rest)
  /\ (filename <> [] -> ~ In DOT filename -> basenameNoExt filename = filename).
Proof.
  unfold basenameNoExt. split; [|split].
  - destruct (strip_extension filename); discriminate.
  - destruct (strip_extension_prefix filename) as (rest & E).
    destruct (strip_extension filename) as [|c r]; [now left|].
    right. now exists rest.
  - intros Hne Hd. rewrite (strip_extension_no_dot _ Hd).
    destruct filename; [congruence | reflexivity].
Qed.

(** *** [normalizeWithMap] *)

Lemma normalize_loop_fst input : forall b i,
  fst (normalize_loop b i input) = replace_ws_from b input.
Proof.
  induction input as [|c r IH]; intros b i; [reflexivity|]. simpl.
  destruct (is_space c).
  - destruct b; [apply IH|].
    specialize (IH true (i + 1)%Z). destruct (normalize_loop true (i + 1) r).
    simpl in *. now rewrite IH.
  - specialize (IH false (i + 1)%Z). destruct (normalize_loop false (i + 1) r).
    simpl in *. now rewrite IH.
Qed.

Lemma replace_ws_true_head s :
  dropWhile is_space (replace_ws_from true s) = replace_ws_from true s.
Proof.
  induction s as [|c r IH]; [reflexivity|]. simpl.
  destruct (is_space c) eqn:E; [exact IH|]. simpl. now rewrite E.
Qed.

Lemma replace_ws_true s : replace_ws_from true s = trimStart (replace_ws s).
Proof.
  unfold trimStart, replace_ws. destruct s as [|c r]; [reflexivity|]. simpl.
  destruct (is_space c) eqn:E; simpl.
  - symmetry. apply replace_ws_true_head.
  - now rewrite E.
Qed.

Lemma SP_is_space : is_space SP = true.
Proof. reflexivity. Qed.

Lemma trimEnd_single n p :
  chain space_ok p n = true ->
  trimEnd n = if ends_with_space n then removelast n else n.
Proof.
  intros H. destruct (list_eq_dec N.eq_dec n []) as [->|Hne]; [reflexivity|].
  destruct (exists_last Hne) as (n' & x & ->).
  rewrite chain_app in H. apply andb_true_iff in H. destruct H as [H1 H2].
  simpl in H2. rewrite andb_true_r in H2.
  unfold ends_with_space. rewrite rev_unit, removelast_last.
  destruct (is_space x) eqn:E.
  - destruct (space_ok_space _ _ H2 E) as [-> Hl]. rewrite N.eqb_refl.
    rewrite trimEnd_spaces by (constructor; [reflexivity | constructor]).
    destruct n' as [|c0 n0]; [reflexivity|].
    apply (trimEnd_fixed _ p); [discriminate | exact Hl].
  - destruct (N.eqb_spec x SP) as [->|_]; [rewrite SP_is_space in E; discriminate|].
    apply (trimEnd_fixed _ p); [exact Hne | now rewrite last_last].
Qed.

(** X13.  The text [normalizeWithMap] returns is the text the chunker works on:
    the whitespace put to single spaces, and none at the ends. *)
Theorem normalizeWithMap_normalized (input : jsstring) :
  normalized (normalizeWithMap input) = Chunker.normalize input.
Proof.
  unfold normalizeWithMap, Chunker.normalize, trim.
  rewrite <- replace_ws_true.
  pose proof (normalize_loop_fst input true 0) as F.
  destruct (normalize_loop true 0 input) as [n m]. simpl in F. subst n.
  rewrite (trimEnd_single _ SP) by (apply replace_ws_chain; reflexivity).
  now destruct (ends_with_space (replace_ws_from true input)).
Qed.

Lemma stands_for_cons a input c j :
  stands_for input c (j - 1) -> (1 <= j)%Z -> stands_for (a :: input) c j.
Proof.
  intros (H0 & x & Hx & Hc) Hj. split; [lia|]. exists x. split; [|exact Hc].
  replace (Z.to_nat j) with (S (Z.to_nat (j - 1))) by lia. exact Hx.
Qed.

(** The loop from the index [i]: the indices it records are those of the
    characters it keeps, counted from [i]. *)
Lemma normalize_loop_map input : forall b i,
  Forall2 (fun c j => stands_for input c (j - i))
          (fst (normalize_loop b i input)) (snd (normalize_loop b i input))
  /\ ascending i (snd (normalize_loop b i input)) (i + len input).
Proof.
  induction input as [|a r IH]; intros b i.
  - simpl. split; [constructor | unfold len; simpl; lia].
  - assert (Hl : len (a :: r) = (len r + 1)%Z) by (unfold len; simpl length; lia).
    rewrite Hl. simpl normalize_loop.
    assert (K : forall b',
      Forall2 (fun c j => stands_for (a :: r) c (j - i))
              (fst (normalize_loop b' (i + 1) r)) (snd (normalize_loop b' (i + 1) r))
      /\ ascending (i + 1) (snd (normalize_loop b' (i + 1) r)) (i + (len r + 1))).
    { intros b'. destruct (IH b' (i + 1)%Z) as [I1 I2]. split.
      - pose proof (ascending_lower _ _ _ I2) as Lo.
        clear I2. revert Lo.
        induction I1 as [|c j n m Hcj _ IHf]; intros Lo; constructor.
        + inversion Lo; subst. apply stands_for_cons; [|lia].
          now replace (j - i - 1)%Z with (j - (i + 1))%Z by lia.
        + inversion Lo; subst. now apply IHf.
      - eapply ascending_weaken; [exact I2 | lia | lia]. }
    destruct (is_space a) eqn:E.
    + destruct b.
      * destruct (K true) as [K1 K2]. split; [exact K1|].
        eapply ascending_weaken; [exact K2 | lia | lia].
      * destruct (K true) as [K1 K2].
        destruct (normalize_loop true (i + 1) r) as [n m]. simpl in *.
        split; [|split; [lia | exact K2]].
        constructor; [|exact K1]. split; [lia|]. exists a.
        replace (i - i)%Z with 0%Z by lia. simpl. now rewrite E.
    + destruct (K false) as [K1 K2].
      destruct (normalize_loop false (i + 1) r) as [n m]. simpl in *.
      split; [|split; [lia | exact K2]].
      constructor; [|exact K1]. split; [lia|]. exists a.
      replace (i - i)%Z with 0%Z by lia. simpl. now rewrite E.
Qed.

Lemma Forall2_removelast {A B} (R : A -> B -> Prop) l1 l2 :
  Forall2 R l1 l2 -> Forall2 R (removelast l1) (removelast l2).
Proof.
  induction 1 as [|x y l1 l2 Hxy H IH]; [constructor|].
  simpl. destruct H; [constructor | constructor; assumption].
Qed.

Lemma ascending_removelast lo l hi :
  ascending lo l hi -> ascending lo (removelast l) hi.
Proof.
  revert lo; induction l as [|x l IH]; intros lo H; [exact H|].
  destruct H as [H1 H2]. simpl removelast. destruct l as [|y l].
  - simpl in *. lia.
  - split; [exact H1 | now apply IH].
Qed.

Lemma indexMap_spec (input : jsstring) :
  Forall2 (stands_for input) (normalized (normalizeWithMap input))
          (indexMap (normalizeWithMap input))
  /\ Sorted.StronglySorted Z.lt (indexMap (normalizeWithMap input))
  /\ Forall (fun j => (0 <= j < len input)%Z) (indexMap (normalizeWithMap input)).
Proof.
  assert (H : Forall2 (stands_for input) (normalized (normalizeWithMap input))
                (indexMap (normalizeWithMap input))
              /\ ascending 0 (indexMap (normalizeWithMap input)) (len input)).
  { unfold normalizeWithMap.
    destruct (normalize_loop_map input true 0) as [F A].
    destruct (normalize_loop true 0 input) as [n m]. simpl in F, A.
    assert (F' : Forall2 (stands_for input) n m).
    { eapply Forall2_impl; [|exact F]. intros c j Hc. cbv beta in Hc.
      now rewrite Z.sub_0_r in Hc. }
    destruct (ends_with_space n); simpl.
    - split; [now apply Forall2_removelast | now apply ascending_removelast].
    - now split. }
  destruct H as [F A]. split; [exact F|]. split.
  - exact (ascending_sorted _ _ _ A).
  - clear F. revert A. generalize (indexMap (normalizeWithMap input)) 0%Z.
    intros m. induction m as [|x m IH]; intros lo A; [constructor|].
    destruct A as [A1 A2]. pose proof (ascending_le _ _ _ A2).
    constructor; [lia|].
    eapply Forall_impl; [|apply (IH _ A2)]. simpl. intros; lia.
Qed.


Lemma sorted_nth_le (m : list Z) :
  Sorted.StronglySorted Z.lt m ->
  forall i j, (i <= j < length m)%nat -> (nth i m 0 <= nth j m 0)%Z.
Proof.
  induction 1 as [|x m _ IH Hx]; intros i j Hij; [simpl in Hij; lia|].
  destruct i as [|i]; destruct j as [|j]; simpl in *; try lia.
  - assert (In (nth j m 0%Z) m) by (apply nth_In; lia).
    rewrite Forall_forall in Hx. specialize (Hx _ H). lia.
  - apply IH. lia.
Qed.

(** X15.  The index of the document that [lancerLecture] derives from the index
    the driver reports never moves backwards when the reported index moves
    forwards, and it is an index of the text that is read. *)
Theorem mappedLocalIndex_monotone (input : jsstring) (c1 c2 : Z) :
  (c1 <= c2)%Z ->
  (mappedLocalIndex (indexMap (normalizeWithMap input)) c1
   <= mappedLocalIndex (indexMap (normalizeWithMap input)) c2)%Z
  /\ (0 <= mappedLocalIndex (indexMap (normalizeWithMap input)) c1
      <= Z.max 0 (len input - 1))%Z.
Proof.
  intros Hc. destruct (indexMap_spec input) as (_ & S & B).
  set (m := indexMap (normalizeWithMap input)) in *.
  assert (N : forall k, (k < length m)%nat -> (0 <= nth k m 0 < len input)%Z).
  { intros k Hk. rewrite Forall_forall in B. apply B, nth_In, Hk. }
  unfold mappedLocalIndex.
  destruct (Z.min c1 (Z.of_nat (length m) - 1) <? 0)%Z eqn:E1;
    destruct (Z.min c2 (Z.of_nat (length m) - 1) <? 0)%Z eqn:E2.
  - lia.
  - apply Z.ltb_ge in E2.
    specialize (N (Z.to_nat (Z.min c2 (Z.of_nat (length m) - 1)))). lia.
  - apply Z.ltb_ge in E1. apply Z.ltb_lt in E2. lia.
  - apply Z.ltb_ge in E1. apply Z.ltb_ge in E2.
    pose proof (N (Z.to_nat (Z.min c1 (Z.of_nat (length m) - 1)))) as N1.
    split; [|lia]. apply sorted_nth_le; [exact S | lia].
Qed.

Lemma mappedLocalIndex_monotone_witness :
  (mappedLocalIndex (indexMap (normalizeWithMap (lit "  ab   c d  "))) 2
   <= mappedLocalIndex (indexMap (normalizeWithMap (lit "  ab   c d  "))) 3)%Z.
Proof.
  refine (proj1 (mappedLocalIndex_monotone (lit "  ab   c d  ") 2 3 _)). lia.
Defined.

End ReadersProofs.

(** ** The start of the reading, and the bounds of the reconciler *)

Module CursorProofs.
Import JS Readers.

Lemma indexDernierePonctuation_spec s : forall i,
  (indexDernierePonctuation s i = (-1)%Z
   /\ forall k, (k < i)%nat -> punct_at s k = false)
  \/ ((0 <= indexDernierePonctuation s i < Z.of_nat i)%Z
      /\ punct_at s (Z.to_nat (indexDernierePonctuation s i)) = true
      /\ forall k, (indexDernierePonctuation s i < Z.of_nat k)%Z -> (k < i)%nat ->
                   punct_at s k = false).
Proof.
  induction i as [|k IH]; simpl.
  - left. split; [reflexivity | intros; lia].
  - assert (Step : punct_at s k = false ->
      (indexDernierePonctuation s k = (-1)%Z
       /\ forall j, (j < S k)%nat -> punct_at s j = false)
      \/ ((0 <= indexDernierePonctuation s k < Z.of_nat (S k))%Z
          /\ punct_at s (Z.to_nat (indexDernierePonctuation s k)) = true
          /\ forall j, (indexDernierePonctuation s k < Z.of_nat j)%Z -> (j < S k)%nat ->
                       punct_at s j = false)).
    { intros Hk. destruct IH as [[E H]|(B & P & H)].
      - left. split; [exact E|]. intros j Hj.
        destruct (Nat.eq_dec j k) as [->|]; [exact Hk | apply H; lia].
      - right. split; [lia|]. split; [exact P|]. intros j H1 H2.
        destruct (Nat.eq_dec j k) as [->|]; [exact Hk | apply H; lia]. }
    unfold punct_at in Step at 1.
    destruct (nth_error s k) as [c|] eqn:E; [|now apply Step].
    destruct (Chunker.is_term c) eqn:Ec; [|now apply Step].
    right. split; [lia|]. split.
    + rewrite Nat2Z.id. unfold punct_at. now rewrite E.
    + intros j H1 H2. lia.
Qed.

Lemma substring_0 s p :
  substring s 0 p = firstn (Z.to_nat (clamp p 0 (len s))) s.
Proof.
  unfold substring. set (b := clamp p 0 (len s)).
  assert (Hb : (0 <= b <= len s)%Z) by (unfold b, clamp, Readers.len; lia).
  assert (E : clamp 0 0 (len s) = 0%Z) by (unfold clamp, Readers.len; lia).
  rewrite E. rewrite Z.min_l, Z.max_r by lia. simpl skipn. f_equal. lia.
Qed.

Lemma substring_to_end s a :
  (0 <= a <= len s)%Z -> substring s a (len s) = skipn (Z.to_nat a) s.
Proof.
  intros H. unfold substring.
  assert (E1 : clamp a 0 (len s) = a) by (unfold clamp; lia).
  assert (E2 : clamp (len s) 0 (len s) = len s) by (unfold clamp, Readers.len; lia).
  rewrite E1, E2, Z.min_l, Z.max_r by lia.
  apply firstn_all2. rewrite length_skipn. unfold Readers.len. lia.
Qed.

Lemma punct_at_firstn s n k : (k < n)%nat -> punct_at (firstn n s) k = punct_at s k.
Proof.
  intros H. unfold punct_at. rewrite nth_error_firstn.
  apply Nat.ltb_lt in H. now rewrite H.
Qed.

Lemma cursor_sentence (texte : jsstring) (cursorPos : Z) :
  let cursor := clamp cursorPos 0 (len texte) in
  let r := obtenirTexteDepuisCurseur texte (Some cursorPos) in
  (0 <= startOffset r <= cursor)%Z
  /\ rs_text r = skipn (Z.to_nat (startOffset r)) texte
  /\ (startOffset r = 0%Z \/ punct_at texte (Z.to_nat (startOffset r) - 1) = true)
  /\ (forall k, (startOffset r <= Z.of_nat k < cursor)%Z -> punct_at texte k = false).
Proof.
  intros cursor r. unfold r, obtenirTexteDepuisCurseur. cbv zeta.
  rewrite substring_0. fold cursor.
  assert (Hc : (0 <= cursor <= len texte)%Z) by (unfold cursor, clamp, Readers.len; lia).
  set (n := Z.to_nat cursor).
  assert (Hl : length (firstn n texte) = n).
  { rewrite length_firstn. unfold Readers.len in Hc. lia. }
  rewrite Hl.
  destruct (indexDernierePonctuation_spec (firstn n texte) n) as [[E H]|(B & P & H)].
  - rewrite E. change (-1 =? -1)%Z with true. cbv iota. cbn [startOffset rs_text].
    split; [lia|]. split; [now rewrite substring_to_end by lia|].
    split; [now left|]. intros k Hk. rewrite <- (punct_at_firstn texte n) by lia.
    apply H. lia.
  - set (i := indexDernierePonctuation (firstn n texte) n) in *.
    assert (Ei : (i =? -1)%Z = false) by (apply Z.eqb_neq; lia).
    rewrite Ei. cbn [startOffset rs_text].
    split; [lia|]. split; [now rewrite substring_to_end by lia|]. split.
    + right. replace (Z.to_nat (i + 1) - 1)%nat with (Z.to_nat i) by lia.
      rewrite <- (punct_at_firstn texte n) by lia. exact P.
    + intros k Hk. rewrite <- (punct_at_firstn texte n) by lia.
      apply H; lia.
Qed.

Lemma cursor_slice texte cursorPos :
  (0 <= startOffset (obtenirTexteDepuisCurseur texte (Some cursorPos)))%Z
  /\ rs_text (obtenirTexteDepuisCurseur texte (Some cursorPos))
     = skipn (Z.to_nat (startOffset (obtenirTexteDepuisCurseur texte (Some cursorPos))))
             texte.
Proof.
  destruct (cursor_sentence texte cursorPos) as (H1 & H2 & _). split; [lia | exact H2].
Qed.

(** X16.  The reading starts at the start of the sentence the cursor is in:
    [obtenirTexteDepuisCurseur] returns the text from an offset that is not
    after the cursor, that is 0 or follows a [.], [!] or [?], and from which
    to the cursor there is none of the three. *)
Theorem obtenirTexteDepuisCurseur_sentence (texte : jsstring) (cursorPos : Z) :
  let cursor := clamp cursorPos 0 (len texte) in
  let r := obtenirTexteDepuisCurseur texte (Some cursorPos) in
  (0 <= startOffset r <= cursor)%Z
  /\ rs_text r = skipn (Z.to_nat (startOffset r)) texte
  /\ (startOffset r = 0%Z \/ punct_at texte (Z.to_nat (startOffset r) - 1) = true)
  /\ (forall k, (startOffset r <= Z.of_nat k < cursor)%Z -> punct_at texte k = false).
Proof. exact (cursor_sentence texte cursorPos). Qed.

Lemma Forall2_nth_both {A B} (R : A -> B -> Prop) l1 l2 :
  Forall2 R l1 l2 ->
  forall k a, nth_error l1 k = Some a ->
  exists b, nth_error l2 k = Some b /\ R a b.
Proof.
  induction 1 as [|x y l1 l2 Hxy _ IH]; intros k a Hk.
  - destruct k; discriminate.
  - destruct k as [|k]; simpl in *.
    + inversion Hk; subst. now exists y.
    + now apply IH.
Qed.

(** Reading the document from the offset [off] on. *)
Lemma skipn_follows texte off c :
  (0 <= off)%Z ->
  (0 <= c < len (normalized (normalizeWithMap (skipn (Z.to_nat off) texte))))%Z ->
  follows texte (mkSlice (skipn (Z.to_nat off) texte) off) c.
Proof.
  intros Ho Hc. unfold follows, lancerLecture_onBoundary. cbn [rs_text startOffset].
  set (t := skipn (Z.to_nat off) texte) in *.
  destruct (ReadersProofs.indexMap_spec t) as (F & _ & _).
  pose proof (Forall2_length F) as L.
  destruct (nth_error (normalized (normalizeWithMap t)) (Z.to_nat c)) as [a|] eqn:Ea.
  2:{ apply nth_error_None in Ea. unfold len in Hc. lia. }
  destruct (Forall2_nth_both _ _ _ F _ _ Ea) as (j & Ej & (Hj & x & Ex & Hx)).
  exists x. split; [|now rewrite Hx].
  unfold mappedLocalIndex. unfold len in Hc.
  rewrite Z.min_l by lia.
  assert (E0 : (c <? 0)%Z = false) by (apply Z.ltb_ge; lia). rewrite E0.
  rewrite (nth_error_nth _ _ 0%Z Ej).
  unfold t in Ex. rewrite nth_error_skipn in Ex.
  now replace (Z.to_nat (off + j)) with (Z.to_nat off + Z.to_nat j)%nat by lia.
Qed.

(** X17.  After [jumpAndRead], the index of the document that is stored at each
    report of the driver points at the character the driver is at; the jump
    lands inside the document. *)
Theorem jumpAndRead_follows (texte : jsstring) (activeDocCharIndex delta : Z)
    (r : ReadingSlice) (charIndex : Z) :
  jumpAndRead texte activeDocCharIndex delta = Some r ->
  (0 <= charIndex < len (normalized (normalizeWithMap (rs_text r))))%Z ->
  follows texte r charIndex
  /\ (0 <= startOffset r < len texte)%Z
  /\ rs_text r = skipn (Z.to_nat (startOffset r)) texte.
Proof.
  unfold jumpAndRead. intros H Hc.
  destruct (Reconciler.is_empty (trim texte)) eqn:E; [discriminate|].
  cbv zeta in H.
  set (target := Z.max 0 (Z.min (Z.max 0 (Z.min activeDocCharIndex
                    (Z.max 0 (len texte - 1))) + delta) (Z.max 0 (len texte - 1)))) in *.
  assert (Hl : (1 <= len texte)%Z).
  { unfold len. destruct texte; [discriminate E | simpl length; lia]. }
  assert (Ht : (0 <= target < len texte)%Z) by (unfold target; lia).
  assert (Es : slice texte target (len texte) = skipn (Z.to_nat target) texte).
  { unfold slice, slice_index. fold (len texte).
    assert (E1 : (target <? 0)%Z = false) by (apply Z.ltb_ge; lia).
    assert (E2 : (len texte <? 0)%Z = false) by (apply Z.ltb_ge; lia).
    rewrite E1, E2, !Z.min_l by lia.
    apply firstn_all2. rewrite length_skipn. unfold len. lia. }
  rewrite Es in H. inversion H; subst r. cbn [rs_text startOffset] in *.
  split; [now apply skipn_follows; [lia|] | now split].
Qed.

Lemma jumpAndRead_follows_witness :
  follows (lit "Un.  Deux   trois.") (mkSlice (lit "Deux   trois.") 5) 5.
Proof.
  refine (proj1 (jumpAndRead_follows (lit "Un.  Deux   trois.") 0 5
                   (mkSlice (lit "Deux   trois.") 5) 5 _ _)).
  - reflexivity.
  - vm_compute. split; [discriminate | reflexivity].
Defined.

(** X18.  Reading from the cursor: the index of the document that is stored at
    each report of the driver points at the character the driver is at. *)
Theorem obtenirTexteDepuisCurseur_follows (texte : jsstring) (cursor : option Z)
    (charIndex : Z) :
  let r := obtenirTexteDepuisCurseur texte cursor in
  (0 <= charIndex < len (normalized (normalizeWithMap (rs_text r))))%Z ->
  follows texte r charIndex.
Proof.
  destruct cursor as [cursorPos|].
  - destruct (cursor_slice texte cursorPos) as (Hb & Ht).
    intros r. fold r in Hb, Ht.
    destruct r as [rt ro]. cbn [rs_text startOffset] in *. subst rt.
    intros Hc. apply skipn_follows; [lia | exact Hc].
  - simpl. intros Hc. apply (skipn_follows texte 0); [lia | exact Hc].
Qed.

Lemma obtenirTexteDepuisCurseur_follows_witness :
  follows (lit "Un.  Deux   trois.")
          (obtenirTexteDepuisCurseur (lit "Un.  Deux   trois.") (Some 8%Z)) 6.
Proof.
  apply (obtenirTexteDepuisCurseur_follows (lit "Un.  Deux   trois.") (Some 8%Z) 6%Z).
  vm_compute. split; [discriminate | reflexivity].
Defined.

(** X19.  Whatever the texts and the index, [remapIndexAfterEdit] returns an
    index of the new text, and 0 when the new text is empty. *)
Theorem remap_in_bounds (oldText newText : jsstring) (oldIndex : Z) :
  (0 <= Reconciler.remapIndexAfterEdit oldText newText oldIndex
   <= Z.max 0 (Reconciler.len newText - 1))%Z.
Proof.
  unfold Reconciler.remapIndexAfterEdit.
  destruct (Reconciler.is_empty oldText || Reconciler.is_empty newText); [lia|].
  destruct (Reconciler.str_eqb oldText newText); [unfold clamp; lia|].
  cbv zeta.
  destruct (8 <=? _)%Z; [destruct (0 <=? _)%Z|]; unfold clamp; lia.
Qed.

End CursorProofs.

(** ** The reading history: ids, repeated saves, queries *)

Module HistoryMore.
Import JS History HistoryQueries HistoryProofs.

Lemma ToInt32_mod x : (ToInt32 x mod 2 ^ 32 = x mod 2 ^ 32)%Z.
Proof.
  unfold ToInt32.
  rewrite (Z.mod_eq (x + 2 ^ 31) (2 ^ 32)) by lia.
  replace (x + 2 ^ 31 - 2 ^ 32 * ((x + 2 ^ 31) / 2 ^ 32) - 2 ^ 31)%Z
    with (x + (- ((x + 2 ^ 31) / 2 ^ 32)) * 2 ^ 32)%Z by lia.
  apply Z_mod_plus_full.
Qed.

Lemma ToInt32_small x : (- 2 ^ 31 <= x < 2 ^ 31)%Z -> ToInt32 x = x.
Proof. intros H. unfold ToInt32. rewrite Z.mod_small; lia. Qed.

Lemma lxor_mod a c n :
  (0 <= n)%Z -> (Z.lxor a c mod 2 ^ n = Z.lxor (a mod 2 ^ n) (c mod 2 ^ n))%Z.
Proof.
  intros Hn. apply Z.bits_inj'. intros k Hk. rewrite Z.lxor_spec.
  destruct (Z.lt_ge_cases k n).
  - rewrite !Z.mod_pow2_bits_low by lia. now rewrite Z.lxor_spec.
  - now rewrite !Z.mod_pow2_bits_high by lia.
Qed.

Lemma shl_mod a k :
  (0 <= k)%Z -> (shl a k mod 2 ^ 32 = (a * 2 ^ k) mod 2 ^ 32)%Z.
Proof.
  intros Hk. unfold shl. rewrite ToInt32_mod, Z.shiftl_mul_pow2 by lia.
  rewrite Zmult_mod, ToInt32_mod, <- Zmult_mod. reflexivity.
Qed.

Lemma mod_eq_split a b m :
  (0 < m)%Z -> (a mod m = b mod m)%Z -> exists t, (a = b + t * m)%Z.
Proof.
  intros Hm H. exists (a / m - b / m)%Z.
  pose proof (Z.div_mod a m). pose proof (Z.div_mod b m). nia.
Qed.

(** One round of [hashText] is one round of FNV-1a, up to 32 bits. *)
Lemma hash_step_mod h c :
  (c < 65536)%N -> (hash_step h c mod 2 ^ 32 = fnv1a_step (h mod 2 ^ 32) c)%Z.
Proof.
  intros Hc. unfold hash_step, fnv1a_step.
  rewrite (ToInt32_small (Z.of_N c)) by lia.
  set (x := Z.lxor (ToInt32 h) (Z.of_N c)).
  destruct (mod_eq_split _ _ (2 ^ 32) ltac:(lia) (shl_mod x 1 ltac:(lia))) as (t1 & E1).
  destruct (mod_eq_split _ _ (2 ^ 32) ltac:(lia) (shl_mod x 4 ltac:(lia))) as (t4 & E4).
  destruct (mod_eq_split _ _ (2 ^ 32) ltac:(lia) (shl_mod x 7 ltac:(lia))) as (t7 & E7).
  destruct (mod_eq_split _ _ (2 ^ 32) ltac:(lia) (shl_mod x 8 ltac:(lia))) as (t8 & E8).
  destruct (mod_eq_split _ _ (2 ^ 32) ltac:(lia) (shl_mod x 24 ltac:(lia))) as (t24 & E24).
  rewrite E1, E4, E7, E8, E24.
  replace (x + (x * 2 ^ 1 + t1 * 2 ^ 32 + (x * 2 ^ 4 + t4 * 2 ^ 32)
                + (x * 2 ^ 7 + t7 * 2 ^ 32) + (x * 2 ^ 8 + t8 * 2 ^ 32)
                + (x * 2 ^ 24 + t24 * 2 ^ 32)))%Z
    with (x * 16777619 + (t1 + t4 + t7 + t8 + t24) * 2 ^ 32)%Z by lia.
  rewrite Z_mod_plus_full, Zmult_mod.
  rewrite (Zmult_mod (Z.lxor (h mod 2 ^ 32) (Z.of_N c))).
  f_equal. f_equal. unfold x. rewrite lxor_mod by lia.
  rewrite ToInt32_mod, lxor_mod by lia.
  now rewrite Z.mod_mod by lia.
Qed.

Lemma fold_hash_mod s : forall h,
  Forall (fun c => (c < 65536)%N) s ->
  (fold_left hash_step s h mod 2 ^ 32 = fold_left fnv1a_step s (h mod 2 ^ 32))%Z.
Proof.
  induction s as [|c r IH]; intros h H; [reflexivity|].
  inversion H; subst. simpl. rewrite IH by assumption.
  now rewrite hash_step_mod.
Qed.

Lemma hex_digit_value d :
  (0 <= d < 16)%Z ->
  hex_value (hex_digit d) = d /\ is_hex_digit (hex_digit d) = true.
Proof.
  intros H. unfold hex_value, hex_digit, is_hex_digit.
  destruct (d <? 10)%Z eqn:E.
  - apply Z.ltb_lt in E.
    assert (L : (Z.to_N (48 + d) <? 58)%N = true) by (apply N.ltb_lt; lia).
    rewrite L. split; [lia|].
    assert (L1 : (48 <=? Z.to_N (48 + d))%N = true) by (apply N.leb_le; lia).
    assert (L2 : (Z.to_N (48 + d) <=? 57)%N = true) by (apply N.leb_le; lia).
    now rewrite L1, L2.
  - apply Z.ltb_ge in E.
    assert (L : (Z.to_N (97 + (d - 10)) <? 58)%N = false) by (apply N.ltb_ge; lia).
    rewrite L. split; [lia|].
    assert (L1 : (97 <=? Z.to_N (97 + (d - 10)))%N = true) by (apply N.leb_le; lia).
    assert (L2 : (Z.to_N (97 + (d - 10)) <=? 102)%N = true) by (apply N.leb_le; lia).
    rewrite L1, L2. apply orb_true_r.
Qed.

Lemma from_hex_snoc ds d : from_hex (ds ++ [d]) = (16 * from_hex ds + hex_value d)%Z.
Proof. unfold from_hex. now rewrite fold_left_app. Qed.

(** [toString(16)] writes the digits of the number in front of [acc]. *)
Lemma toString16_digits fuel : forall n acc,
  (0 <= n < 16 ^ Z.of_nat fuel)%Z -> (1 <= fuel)%nat ->
  exists ds,
    toString16_from fuel n acc = ds ++ acc
    /\ from_hex ds = n
    /\ (1 <= length ds <= fuel)%nat
    /\ forallb is_hex_digit ds = true.
Proof.
  induction fuel as [|fuel IH]; intros n acc Hn Hf; [lia|].
  simpl toString16_from.
  assert (Hd : (0 <= n mod 16 < 16)%Z) by (apply Z.mod_pos_bound; lia).
  destruct (hex_digit_value _ Hd) as [V D].
  destruct (n / 16 =? 0)%Z eqn:E.
  - apply Z.eqb_eq in E. exists [hex_digit (n mod 16)]. split; [reflexivity|].
    split; [|split; [simpl; lia | simpl; now rewrite D]].
    unfold from_hex. simpl. rewrite V.
    pose proof (Z.div_mod n 16). lia.
  - apply Z.eqb_neq in E.
    assert (Hq : (0 <= n / 16 < 16 ^ Z.of_nat fuel)%Z).
    { split; [apply Z.div_pos; lia|].
      apply Z.div_lt_upper_bound; [lia|].
      replace (16 * 16 ^ Z.of_nat fuel)%Z with (16 ^ Z.of_nat (S fuel))%Z; [lia|].
      rewrite Nat2Z.inj_succ, Z.pow_succ_r by lia. reflexivity. }
    assert (Hf' : (1 <= fuel)%nat).
    { destruct fuel; [|lia]. simpl in Hq. lia. }
    destruct (IH (n / 16)%Z (hex_digit (n mod 16) :: acc) Hq Hf')
      as (ds & E1 & E2 & E3 & E4).
    exists (ds ++ [hex_digit (n mod 16)]). split; [|split; [|split]].
    + rewrite E1. now rewrite <- app_assoc.
    + rewrite from_hex_snoc, E2, V. pose proof (Z.div_mod n 16). lia.
    + rewrite length_app. simpl. lia.
    + rewrite forallb_app, E4. simpl. now rewrite D.
Qed.

Lemma fnv1a_range s : (0 <= fnv1a s < 2 ^ 32)%Z.
Proof.
  unfold fnv1a.
  assert (G : forall h, (0 <= h < 2 ^ 32)%Z ->
                        (0 <= fold_left fnv1a_step s h < 2 ^ 32)%Z).
  { induction s as [|c r IH]; intros h Hh; [exact Hh|].
    simpl. apply IH. unfold fnv1a_step. apply Z.mod_pos_bound. lia. }
  apply G. lia.
Qed.

(** X20.  [hashText] writes the FNV-1a hash of 32 bits of the text, taken over
    its code units, as 1 to 8 lower case hexadecimal digits. *)
Theorem hashText_fnv1a (s : jsstring) :
  Forall (fun c => (c < 65536)%N) s ->
  from_hex (hashText s) = fnv1a s
  /\ (1 <= length (hashText s) <= 8)%nat
  /\ forallb is_hex_digit (hashText s) = true.
Proof.
  intros H. unfold hashText, ToUint32.
  rewrite (fold_hash_mod s _ H).
  change (2166136261 mod 2 ^ 32)%Z with 2166136261%Z. fold (fnv1a s).
  destruct (toString16_digits 8 (fnv1a s) []) as (ds & E1 & E2 & E3 & E4).
  - pose proof (fnv1a_range s). change (16 ^ Z.of_nat 8)%Z with (2 ^ 32)%Z. lia.
  - lia.
  - rewrite E1, app_nil_r. now repeat split.
Qed.

Lemma hashText_fnv1a_witness :
  from_hex (hashText (lit "hello")) = fnv1a (lit "hello").
Proof.
  refine (proj1 (hashText_fnv1a (lit "hello") _)).
  repeat constructor.
Defined.

Lemma firstn_max x (l : list ReadingHistoryEntry) :
  firstn MAX_ENTRIES (x :: l) = x :: firstn 11 l.
Proof. reflexivity. Qed.

Lemma filter_firstn_filter (f : ReadingHistoryEntry -> bool) n l :
  filter f (firstn n (filter f l)) = firstn n (filter f l).
Proof.
  apply forallb_filter_id. apply forallb_forall. intros x Hx.
  assert (In x (filter f l)).
  { rewrite <- (firstn_skipn n (filter f l)). apply in_or_app. now left. }
  apply filter_In in H. tauto.
Qed.

Lemma str_eqb_refl a : str_eqb a a = true.
Proof. unfold str_eqb. now apply ReconcilerProofs.str_eqb_eq. Qed.

Lemma filter_drops (f : ReadingHistoryEntry -> bool) x l :
  f x = false -> filter f (x :: l) = filter f l.
Proof. intros H. simpl. now rewrite H. Qed.

Lemma drops_own_id i r d t x now :
  negb (str_eqb (History.id (mkEntry i r d t x now)) i) = false.
Proof. cbn [History.id]. now rewrite str_eqb_refl. Qed.

(** X21.  Saving a document again replaces its entry: the history is the one
    that the last save alone gives. *)
Theorem save_again_replaces (r : ReaderType) (d t : jsstring) (i1 i2 : Z)
    (now1 now2 : jsstring) (h : list ReadingHistoryEntry) :
  saveHistoryEntry r d t i2 now2 (saveHistoryEntry r d t i1 now1 h)
  = saveHistoryEntry r d t i2 now2 h.
Proof.
  unfold saveHistoryEntry.
  destruct (Reconciler.is_empty (trim t)) eqn:E; [reflexivity|].
  cbv zeta. fold (entry_id r d t).
  rewrite !firstn_max. f_equal.
  rewrite filter_drops by apply drops_own_id.
  rewrite filter_firstn_filter, firstn_firstn. reflexivity.
Qed.

(** X22.  Deleting the entry of a document that was just saved gives the
    history without the entries of that id, as far as it was kept. *)
Theorem delete_after_save (r : ReaderType) (d t : jsstring) (i : Z)
    (now : jsstring) (h : list ReadingHistoryEntry) :
  trim t <> [] ->
  deleteHistoryEntry (entry_id r d t) (saveHistoryEntry r d t i now h)
  = firstn 11 (deleteHistoryEntry (entry_id r d t) h)
  /\ ~ In (entry_id r d t)
          (map id (deleteHistoryEntry (entry_id r d t) (saveHistoryEntry r d t i now h))).
Proof.
  intros Ht. split; [|apply not_in_others].
  unfold saveHistoryEntry, deleteHistoryEntry.
  assert (E : Reconciler.is_empty (trim t) = false)
    by (destruct (trim t); [congruence | reflexivity]).
  rewrite E. cbv zeta. fold (entry_id r d t).
  rewrite firstn_max, filter_drops by apply drops_own_id.
  apply filter_firstn_filter.
Qed.

Lemma delete_after_save_witness :
  deleteHistoryEntry (entry_id pdf (lit "notes.pdf") (lit "Bonjour."))
    (saveHistoryEntry pdf (lit "notes.pdf") (lit "Bonjour.") 3 (lit "t0") [])
  = firstn 11 (deleteHistoryEntry (entry_id pdf (lit "notes.pdf") (lit "Bonjour.")) []).
Proof.
  refine (proj1 (delete_after_save pdf (lit "notes.pdf") (lit "Bonjour.") 3 (lit "t0")
                   [] _)).
  vm_compute. discriminate.
Defined.

Lemma insert_by_perm {A} (cmp : A -> A -> Z) x l :
  Permutation.Permutation (insert_by cmp x l) (x :: l).
Proof.
  induction l as [|y r IH]; simpl; [apply Permutation.Permutation_refl|].
  destruct (cmp x y <=? 0)%Z; [apply Permutation.Permutation_refl|].
  eapply Permutation.perm_trans; [apply Permutation.perm_skip, IH|].
  apply Permutation.perm_swap.
Qed.

Lemma sort_by_perm {A} (cmp : A -> A -> Z) l :
  Permutation.Permutation (sort_by cmp l) l.
Proof.
  induction l as [|x r IH]; simpl; [constructor|].
  eapply Permutation.perm_trans; [apply insert_by_perm|].
  now apply Permutation.perm_skip.
Qed.

Lemma insert_by_sorted time x l :
  Sorted.StronglySorted (newer_or_same time) l ->
  Sorted.StronglySorted (newer_or_same time)
    (insert_by (fun a b => (time (updatedAt b) - time (updatedAt a))%Z) x l).
Proof.
  induction 1 as [|y r Hs IH Hy]; simpl.
  - constructor; constructor.
  - destruct (time (updatedAt y) - time (updatedAt x) <=? 0)%Z eqn:E.
    + apply Z.leb_le in E. constructor; [now constructor|].
      constructor; [unfold newer_or_same; lia|].
      eapply Forall_impl; [|exact Hy]. unfold newer_or_same. intros; lia.
    + apply Z.leb_gt in E. constructor; [exact IH|].
      eapply Permutation.Permutation_Forall;
        [apply Permutation.Permutation_sym, insert_by_perm|].
      constructor; [unfold newer_or_same; lia | exact Hy].
Qed.

(** X23.  [loadHistoryByType] returns the stored entries of the reader type, all
    of them and no other, the most recent first. *)
Theorem loadHistoryByType_newest_first (time : jsstring -> Z) (rt : ReaderType)
    (stored : list ReadingHistoryEntry) :
  Permutation.Permutation
    (loadHistoryByType time rt stored)
    (filter (fun e => readerType_eqb (readerType e) rt) stored)
  /\ Forall (fun e => readerType e = rt) (loadHistoryByType time rt stored)
  /\ Sorted.StronglySorted (newer_or_same time) (loadHistoryByType time rt stored).
Proof.
  unfold loadHistoryByType. split; [apply sort_by_perm|]. split.
  - eapply Permutation.Permutation_Forall;
      [apply Permutation.Permutation_sym, sort_by_perm|].
    apply Forall_forall. intros e He. apply filter_In in He. destruct He as [_ He].
    destruct (readerType e), rt; (reflexivity || discriminate).
  - generalize (filter (fun e => readerType_eqb (readerType e) rt) stored).
    intros l. induction l as [|x r IH]; simpl; [constructor|].
    now apply insert_by_sorted.
Qed.

End HistoryMore.

(** ** Positions and issues of the analysis *)

Module AnalysisProofs.
Import JS Analysis.

Lemma split_lines_spec s :
  exists L l,
    split_lines s = L ++ [l]
    /\ s = concat (List.map (fun x => x ++ [NL]) L) ++ l
    /\ ~ In NL l
    /\ length L = newlines s.
Proof.
  induction s as [|c r (L & l & E1 & E2 & E3 & E4)].
  - exists [], []. repeat split; auto.
  - unfold newlines in *. cbn [split_lines filter].
    destruct (c =? NL)%N eqn:Ec.
    + apply N.eqb_eq in Ec. subst c. exists ([] :: L), l. rewrite E1.
      split; [reflexivity|]. split; [simpl; now rewrite <- E2|].
      split; [exact E3 | simpl; now rewrite E4].
    + rewrite E1. destruct L as [|x L'].
      * exists [], (c :: l). simpl in *.
        split; [reflexivity|]. split; [now rewrite E2|]. split; [|exact E4].
        intros [F|F]; [subst c; rewrite N.eqb_refl in Ec; discriminate | now apply E3].
      * exists ((c :: x) :: L'), l. simpl in *.
        split; [reflexivity|]. split; [now rewrite E2|]. split; [exact E3 | exact E4].
Qed.

Lemma last_length_snoc L l : last_length (L ++ [l]) = len l.
Proof. unfold last_length. now rewrite rev_unit. Qed.

(** X24.  [toLineColumn] locates the index in its line: the line number is one
    more than the number of line ends before the index, and the column
    counts from the start of the line, which is the start of the text or
    follows a line end, with no line end between it and the index. *)
Theorem toLineColumn_locates (text : jsstring) (index : Z) :
  let safe := Z.to_nat (Z.max 0 (Z.min index (len text))) in
  let r := toLineColumn text index in
  line r = Z.of_nat (S (newlines (firstn safe text)))
  /\ (1 <= column r <= Z.of_nat safe + 1)%Z
  /\ let start := (safe - Z.to_nat (column r - 1))%nat in
     (start = 0%nat \/ nth_error text (start - 1) = Some NL)
     /\ forall k, (start <= k < safe)%nat -> nth_error text k <> Some NL.
Proof.
  intros safe r. unfold r, toLineColumn. cbv zeta.
  rewrite HistoryProofs.slice_0 by lia. fold safe.
  assert (Hs : (safe <= length text)%nat) by (unfold safe, len; lia).
  assert (Hn : forall k, (k < safe)%nat ->
                         nth_error text k = nth_error (firstn safe text) k).
  { intros k Hk. rewrite nth_error_firstn. apply Nat.ltb_lt in Hk. now rewrite Hk. }
  pose proof (length_firstn safe text) as Lb. rewrite Nat.min_l in Lb by exact Hs.
  destruct (split_lines_spec (firstn safe text)) as (L & l & E1 & E2 & E3 & E4).
  rewrite E1, last_length_snoc. cbn [line column].
  set (P := concat (List.map (fun x => x ++ [NL]) L)) in *.
  assert (Lp : (length P + length l = safe)%nat).
  { rewrite <- Lb, E2 at 1. now rewrite length_app. }
  unfold len.
  replace (safe - Z.to_nat (Z.of_nat (length l) + 1 - 1))%nat with (length P) by lia.
  split; [rewrite length_app, E4; simpl; lia|]. split; [lia|]. split.
  - destruct (list_eq_dec (list_eq_dec N.eq_dec) L []) as [->|Hne]; [now left|].
    right. destruct (exists_last Hne) as (L0 & x & EL).
    assert (EP : P = (concat (List.map (fun x => x ++ [NL]) L0) ++ x) ++ [NL]).
    { unfold P. rewrite EL, map_app, concat_app. simpl.
      now rewrite app_nil_r, app_assoc. }
    set (Q := concat (List.map (fun x => x ++ [NL]) L0) ++ x) in *.
    assert (Lq : length P = S (length Q)).
    { rewrite EP, length_app. simpl. lia. }
    rewrite Lq. replace (S (length Q) - 1)%nat with (length Q) by lia.
    rewrite Hn by lia. rewrite E2, EP.
    rewrite nth_error_app1 by (rewrite length_app; simpl; lia).
    rewrite nth_error_app2 by lia. now rewrite Nat.sub_diag.
  - intros k Hk F. rewrite Hn in F by lia. rewrite E2 in F.
    rewrite nth_error_app2 in F by lia. apply nth_error_In in F. now apply E3.
Qed.

Lemma has_In (m : IssueMap) key : has m key = true <-> In key (List.map fst m).
Proof.
  unfold has. rewrite existsb_exists, in_map_iff. split.
  - intros (kv & H1 & H2). apply ReconcilerProofs.str_eqb_eq in H2. now exists kv.
  - intros (kv & H1 & H2). exists kv. split; [exact H2|].
    now apply ReconcilerProofs.str_eqb_eq.
Qed.

Lemma NoDup_snoc {A} (l : list A) a : NoDup l -> ~ In a l -> NoDup (l ++ [a]).
Proof.
  intros H1 H2.
  apply (Permutation.Permutation_NoDup (Permutation.Permutation_cons_append l a)).
  now constructor.
Qed.

(** The loop of [dedupeIssues] from a map on: it adds the issues that
    are the first of their id and whose id is not in the map. *)
Lemma dedupe_fold l : forall acc : IssueMap,
  Forall (fun kv => fst kv = id (snd kv)) acc ->
  NoDup (List.map fst acc) ->
  Forall (fun kv => fst kv = id (snd kv)) (fold_left dedupe_step l acc)
  /\ NoDup (List.map fst (fold_left dedupe_step l acc))
  /\ forall v, In v (List.map snd (fold_left dedupe_step l acc))
               <-> In v (List.map snd acc)
                   \/ (~ In (id v) (List.map fst acc) /\ first_of_its_id l v).
Proof.
  induction l as [|x l IH]; intros acc K D.
  - simpl. split; [exact K|]. split; [exact D|]. intros v. split; [now left|].
    intros [H|[_ (pre & post & E & _)]]; [exact H|]. now destruct pre.
  - cbn [fold_left].
    assert (K' : Forall (fun kv => fst kv = id (snd kv)) (dedupe_step acc x)).
    { unfold dedupe_step. destruct (has acc (id x)); [exact K|].
      apply Forall_app. split; [exact K | now constructor]. }
    assert (D' : NoDup (List.map fst (dedupe_step acc x))).
    { unfold dedupe_step. destruct (has acc (id x)) eqn:E; [exact D|].
      rewrite map_app. apply NoDup_snoc; [exact D|].
      cbn [fst]. intros F. apply has_In in F. congruence. }
    destruct (IH _ K' D') as (I1 & I2 & I3).
    split; [exact I1|]. split; [exact I2|]. intros v. rewrite I3.
    unfold dedupe_step. destruct (has acc (id x)) eqn:E.
    + apply has_In in E. split.
      * intros [H|[H1 (pre & post & E1 & E2)]]; [now left|]. right.
        split; [exact H1|]. exists (x :: pre), post. split; [now rewrite E1|].
        simpl. intros [F|F]; [congruence | now apply E2].
      * intros [H|[H1 (pre & post & E1 & E2)]]; [now left|]. right.
        split; [exact H1|]. destruct pre as [|p pre].
        -- simpl in E1. inversion E1; subst. contradiction.
        -- simpl in E1. inversion E1; subst. exists pre, post. split; [reflexivity|].
           intros F. apply E2. now right.
    + assert (Hx : ~ In (id x) (List.map fst acc)).
      { intros F. apply has_In in F. congruence. }
      rewrite !map_app. simpl List.map. split.
      * intros [H|[H1 (pre & post & E1 & E2)]].
        -- apply in_app_or in H. destruct H as [H|[H|[]]]; [now left|]. subst v.
           right. split; [exact Hx|]. exists [], l. now split.
        -- right. split; [intros F; apply H1, in_or_app; now left|].
           exists (x :: pre), post. split; [now rewrite E1|].
           simpl. intros [F|F]; [|now apply E2].
           apply H1, in_or_app. right. left. exact F.
      * intros [H|[H1 (pre & post & E1 & E2)]].
        -- left. apply in_or_app. now left.
        -- destruct pre as [|p pre].
           ++ simpl in E1. inversion E1; subst. left. apply in_or_app. right. now left.
           ++ simpl in E1. inversion E1; subst. right. split.
              ** intros F. apply in_app_or in F. destruct F as [F|[F|[]]]; [now apply H1|].
                 apply E2. left. exact F.
              ** exists pre, post. split; [reflexivity|].
                 intros F. apply E2. now right.
Qed.

Lemma insert_by_index_sorted (x : AnalysisIssue) l :
  Sorted.StronglySorted (fun a b => (index a <= index b)%Z) l ->
  Sorted.StronglySorted (fun a b => (index a <= index b)%Z)
    (HistoryQueries.insert_by (fun a b => (index a - index b)%Z) x l).
Proof.
  induction 1 as [|y r Hs IH Hy]; simpl.
  - constructor; constructor.
  - destruct (index x - index y <=? 0)%Z eqn:E.
    + apply Z.leb_le in E. constructor; [now constructor|].
      constructor; [lia|].
      eapply Forall_impl; [|exact Hy]. simpl. intros; lia.
    + apply Z.leb_gt in E. constructor; [exact IH|].
      eapply Permutation.Permutation_Forall;
        [apply Permutation.Permutation_sym, HistoryMore.insert_by_perm|].
      constructor; [lia | exact Hy].
Qed.

(** X25.  [dedupeIssues] keeps, of the issues that share an id, the first one
    and no other; the ids of the result are pairwise distinct, and the
    result is in the order of the indices. *)
Theorem dedupeIssues_first_of_each_id (issues : list AnalysisIssue) :
  (forall x, In x (dedupeIssues issues) <-> first_of_its_id issues x)
  /\ NoDup (List.map id (dedupeIssues issues))
  /\ Sorted.StronglySorted (fun a b => (index a <= index b)%Z) (dedupeIssues issues).
Proof.
  unfold dedupeIssues. cbv zeta.
  destruct (dedupe_fold issues [] (Forall_nil _) (NoDup_nil _)) as (K & D & I).
  set (m := fold_left dedupe_step issues []) in *.
  pose proof (HistoryMore.sort_by_perm (fun a b => (index a - index b)%Z)
                (List.map snd m)) as P.
  split; [|split].
  - intros x. split.
    + intros H. apply (Permutation.Permutation_in _ P) in H.
      apply I in H. destruct H as [[]|[_ H]]. exact H.
    + intros H. apply (Permutation.Permutation_in _ (Permutation.Permutation_sym P)).
      apply I. right. split; [intros []|exact H].
  - apply (Permutation.Permutation_NoDup
             (Permutation.Permutation_sym (Permutation.Permutation_map id P))).
    replace (List.map id (List.map snd m)) with (List.map fst m); [exact D|].
    rewrite map_map. apply map_ext_Forall. exact K.
  - generalize (List.map snd m). intros l.
    induction l as [|x r IH]; simpl; [constructor|].
    now apply insert_by_index_sorted.
Qed.

End AnalysisProofs.

(** ** The window of text around the reading position *)

Module ProgressProofs.
Import JS Progress.

Lemma firstn_plus {A} n m : forall l : list A,
  firstn (n + m) l = firstn n l ++ firstn m (skipn n l).
Proof.
  induction n as [|n IH]; intros l; [reflexivity|].
  destruct l as [|x l]; simpl; [now rewrite firstn_nil | now rewrite IH].
Qed.

Lemma slice_seg (t : jsstring) a b :
  (0 <= a <= b)%Z -> (b <= len t)%Z ->
  slice t a b = firstn (Z.to_nat (b - a)) (skipn (Z.to_nat a) t).
Proof.
  intros H1 H2. unfold slice, slice_index. unfold len in H2.
  assert (E1 : (a <? 0)%Z = false) by (apply Z.ltb_ge; lia).
  assert (E2 : (b <? 0)%Z = false) by (apply Z.ltb_ge; lia).
  now rewrite E1, E2, !Z.min_l by lia.
Qed.

Lemma slice_split (t : jsstring) a b c :
  (0 <= a <= b)%Z -> (b <= c <= len t)%Z ->
  slice t a c = slice t a b ++ slice t b c.
Proof.
  intros H1 H2. rewrite !slice_seg by lia.
  replace (Z.to_nat (c - a)) with (Z.to_nat (b - a) + Z.to_nat (c - b))%nat by lia.
  rewrite firstn_plus, skipn_skipn.
  now replace (Z.to_nat (b - a) + Z.to_nat a)%nat with (Z.to_nat b) by lia.
Qed.

Lemma slice_len (t : jsstring) a b :
  (0 <= a <= b)%Z -> (b <= len t)%Z -> len (slice t a b) = (b - a)%Z.
Proof.
  intros H1 H2. rewrite slice_seg by lia. unfold len in *.
  rewrite length_firstn, length_skipn. lia.
Qed.

Lemma slice_nth (t : jsstring) a b j :
  (0 <= a <= b)%Z -> (b <= len t)%Z -> (j < Z.to_nat (b - a))%nat ->
  nth_error (slice t a b) j = nth_error t (Z.to_nat a + j).
Proof.
  intros H1 H2 Hj. rewrite slice_seg by lia.
  rewrite nth_error_firstn. apply Nat.ltb_lt in Hj. rewrite Hj.
  apply nth_error_skipn.
Qed.

Lemma scan_wordStart_spec text lo : forall k,
  (lo <= k)%nat ->
  (lo <= scan_wordStart text lo k <= k)%nat
  /\ forall i, (scan_wordStart text lo k <= i < k)%nat -> not_blank_at text i = true.
Proof.
  induction k as [|k IH]; intros Hk; simpl.
  - split; [lia | intros; lia].
  - destruct (lo <? S k)%nat eqn:El; simpl.
    + apply Nat.ltb_lt in El. destruct (not_blank_at text k) eqn:E.
      * destruct IH as [I1 I2]; [lia|]. split; [lia|].
        intros i Hi. destruct (Nat.eq_dec i k) as [->|Hne]; [exact E | apply I2; lia].
      * split; [lia | intros; lia].
    + split; [lia | intros; lia].
Qed.

Lemma scan_wordEnd_spec text hi fuel : forall k,
  (k <= hi)%nat -> (hi - k <= fuel)%nat ->
  (k <= scan_wordEnd fuel text hi k <= hi)%nat
  /\ (forall i, (k <= i < scan_wordEnd fuel text hi k)%nat -> not_blank_at text i = true)
  /\ (scan_wordEnd fuel text hi k = hi
      \/ not_blank_at text (scan_wordEnd fuel text hi k) = false).
Proof.
  induction fuel as [|fuel IH]; intros k Hk Hf; simpl.
  - split; [lia|]. split; [intros; lia | left; lia].
  - destruct (k <? hi)%nat eqn:El; simpl.
    + apply Nat.ltb_lt in El. destruct (not_blank_at text k) eqn:E.
      * destruct (IH (S k)) as (I1 & I2 & I3); [lia | lia |].
        split; [lia|]. split; [|exact I3].
        intros i Hi. destruct (Nat.eq_dec i k) as [->|Hne]; [exact E | apply I2; lia].
      * split; [lia|]. split; [intros; lia | now right].
    + apply Nat.ltb_ge in El. split; [lia|]. split; [intros; lia | left; lia].
Qed.

(** X26.  The three pieces [ReadingProgress] shows are the window of the text
    around the reading position, cut in three: the middle piece is a word
    without a space, or the space at the position; it ends after the
    position or, when the position is on a space, at it.  The highlighted
    text is never empty. *)
Theorem content_window (text : jsstring) (currentCharIndex : Z) :
  trim text <> [] ->
  let c := content text currentCharIndex in
  let s := safeIndex text currentCharIndex in
  let lo := startWindow text currentCharIndex in
  let hi := endWindow text currentCharIndex in
  (0 <= lo <= s)%Z /\ (s < hi <= len text)%Z
  /\ exists b m a,
       slice text lo hi = b ++ m ++ a
       /\ before c = (if (0 <? lo)%Z then lit "..." else []) ++ b
       /\ after c = a ++ (if (hi <? len text)%Z then lit "..." else [])
       /\ (len b <= s - lo <= len b + len m)%Z
       /\ m <> []
       /\ (~ In SP m \/ m = [SP])
       /\ exists w, current c = Some w /\ w <> []
                    /\ (w = trim m \/ exists x, nth_error text (Z.to_nat s) = Some x
                                                 /\ w = [x]).
Proof.
  intros Ht c s lo hi.
  assert (Hl : (1 <= len text)%Z).
  { unfold len. destruct text; [now elim Ht | simpl length; lia]. }
  assert (Hs : (0 <= s < len text)%Z) by (unfold s, safeIndex; lia).
  assert (Hlo : (0 <= lo <= s)%Z).
  { unfold lo, startWindow, WINDOW_SIZE. fold s.
    change (240 / 2)%Z with 120%Z. lia. }
  assert (Hhi : (s < hi <= len text)%Z).
  { unfold hi, endWindow, WINDOW_SIZE. fold s.
    change (240 / 2)%Z with 120%Z. lia. }
  split; [exact Hlo|]. split; [exact Hhi|].
  unfold c, content.
  assert (Ee : Reconciler.is_empty (trim text) = false)
    by (destruct (trim text); [now elim Ht | reflexivity]).
  rewrite Ee. cbv zeta. fold s lo hi.
  destruct (scan_wordStart_spec text (Z.to_nat lo) (Z.to_nat s)) as [S1 S2]; [lia|].
  destruct (scan_wordEnd_spec text (Z.to_nat hi) (length text) (Z.to_nat s))
    as (F1 & F2 & F3); [lia | unfold len in *; lia |].
  set (wS := scan_wordStart text (Z.to_nat lo) (Z.to_nat s)) in *.
  set (wE := scan_wordEnd (length text) text (Z.to_nat hi) (Z.to_nat s)) in *.
  set (cut := Z.max (Z.of_nat wS + 1) (Z.of_nat wE)).
  assert (Hc : (Z.of_nat wS < cut <= hi)%Z) by (unfold cut; lia).
  assert (Hc' : (s <= cut)%Z) by (unfold cut; lia).
  set (m := slice text (Z.of_nat wS) cut).
  exists (slice text lo (Z.of_nat wS)), m, (slice text cut hi).
  assert (Lm : len m = (cut - Z.of_nat wS)%Z) by (apply slice_len; lia).
  assert (Mne : m <> []).
  { intros F. rewrite F in Lm. unfold len in Lm. simpl in Lm. lia. }
  assert (Msp : ~ In SP m \/ m = [SP]).
  { destruct (Nat.eq_dec wE wS) as [Ew|Ew].
    - right. assert (Es : wS = Z.to_nat s) by lia.
      destruct F3 as [F3|F3]; [lia|]. rewrite Ew, Es in F3.
      unfold not_blank_at in F3.
      destruct (nth_error text (Z.to_nat s)) as [x|] eqn:Ex; [|discriminate].
      apply negb_false_iff, N.eqb_eq in F3. subst x.
      assert (E0 : nth_error m 0 = Some SP).
      { unfold m. rewrite slice_nth by lia.
        now replace (Z.to_nat (Z.of_nat wS) + 0)%nat with (Z.to_nat s) by lia. }
      assert (L1 : length m = 1%nat) by (unfold len in Lm; unfold cut in Lm; lia).
      destruct m as [|x [|y r]]; try discriminate. simpl in E0. congruence.
    - left. intros F. apply In_nth_error in F. destruct F as (j & Ej).
      assert (Hj : (j < length m)%nat) by (apply nth_error_Some; congruence).
      assert (Ec : cut = Z.of_nat wE) by (unfold cut; lia).
      unfold len in Lm.
      unfold m in Ej. rewrite slice_nth in Ej by lia.
      rewrite Nat2Z.id in Ej.
      assert (N : not_blank_at text (wS + j) = true).
      { destruct (Nat.lt_ge_cases (wS + j) (Z.to_nat s)); [apply S2 | apply F2]; lia. }
      unfold not_blank_at in N. rewrite Ej in N. discriminate N. }
  split; [|split; [|split; [|split; [|split; [exact Mne | split; [exact Msp|]]]]]].
  - unfold m. rewrite <- !slice_split by lia. reflexivity.
  - cbn [before]. now destruct (0 <? lo)%Z.
  - cbn [after]. destruct (hi <? len text)%Z; [reflexivity | now rewrite app_nil_r].
  - rewrite Lm, slice_len by lia. lia.
  - cbn [current].
    destruct (trim m) as [|w0 w] eqn:Em; simpl Reconciler.is_empty; cbv iota.
    + destruct (nth_error text (Z.to_nat s)) as [x|] eqn:Ex.
      * exists [x]. split; [reflexivity|]. split; [discriminate|]. right. now exists x.
      * apply nth_error_None in Ex. unfold len in Hs. lia.
    + exists (w0 :: w). split; [reflexivity|]. split; [discriminate | now left].
Qed.

Lemma content_window_witness :
  (safeIndex (lit "Bonjour tout le monde") 9
   < endWindow (lit "Bonjour tout le monde") 9
   <= len (lit "Bonjour tout le monde"))%Z.
Proof.
  refine (proj1 (proj2 (content_window (lit "Bonjour tout le monde") 9 _))).
  vm_compute. discriminate.
Defined.

End ProgressProofs.
